(** * unifi-threat-sync: parse, normalize, fingerprint, reconcile

    A shallow embedding of the core of the repository:
    - [internal/parser] (the line-level parser [parseIPOrCIDR], the plain and
      netset feed parsers and the parser registry),
    - [internal/normalizer] ([Normalize], [ToStrings], [Merge]),
    - [internal/sync] (the [Syncer] with its [Run] cycle) and the calls of
      [internal/unifi] it makes, with the session of the client,
    - [internal/config] (the defaults and the validation of a configuration),
      the health server of [internal/http] and the sync loop of [main].

    Go strings are byte strings: they are modelled as [string] (a list of
    8-bit [ascii]).  A byte of an address or mask is an [N] below 256, a Go
    [int] is a [Z].  The parts of Go's standard library the code relies on
    ([strings], [bufio.Scanner], [net], [net/netip], [sort], [crypto/sha256],
    [encoding/hex]) are modelled in modules named after the packages. *)

From Stdlib Require Import ZArith NArith Ascii String Lia ZifyBool DecimalString.
From stdpp Require Import gmap strings list sorting.

(** ** Go's order on strings *)

(** [s < t] on Go strings compares bytes lexicographically; it is
    [String.ltb] of the standard library. *)
Module strorder.

Definition lt (s t : string) : Prop := String.ltb s t = true.
Definition le (s t : string) : Prop := String.ltb t s = false.

End strorder.

(** ** [crypto/sha256] and [encoding/hex] *)

(** [sha256.Sum256] (FIPS 180-4) over a list of bytes; 32-bit words are [N]
    reduced modulo [2^32]. *)
Module sha256.
Local Open Scope N_scope.

Definition add32 (x y : N) : N := (x + y) mod 2 ^ 32.
Definition rotr (n x : N) : N :=
  N.lor (N.shiftr x n) ((N.shiftl x (32 - n)) mod 2 ^ 32).
Definition not32 (x : N) : N := N.lxor x 0xffffffff.
Definition Ch (x y z : N) : N := N.lxor (N.land x y) (N.land (not32 x) z).
Definition Maj (x y z : N) : N :=
  N.lxor (N.lxor (N.land x y) (N.land x z)) (N.land y z).
Definition bigSigma0 (x : N) : N := N.lxor (N.lxor (rotr 2 x) (rotr 13 x)) (rotr 22 x).
Definition bigSigma1 (x : N) : N := N.lxor (N.lxor (rotr 6 x) (rotr 11 x)) (rotr 25 x).
Definition smallSigma0 (x : N) : N := N.lxor (N.lxor (rotr 7 x) (rotr 18 x)) (N.shiftr x 3).
Definition smallSigma1 (x : N) : N := N.lxor (N.lxor (rotr 17 x) (rotr 19 x)) (N.shiftr x 10).

(** The round constants and the initial hash value are the first 32 bits
    of the fractional parts of the cube roots of the first 64 primes and of
    the square roots of the first 8 primes. *)
Definition is_prime (p : nat) : bool :=
  forallb (λ d, negb (p mod d =? 0)%nat) (seq 2 (p - 2)).

Definition primes (n : nat) : list N :=
  N.of_nat <$> take n (filter (λ p, is_prime p = true) (seq 2 400)).

(** The largest [x] below [2 ^ bits] with [x ^ 3 ≤ n]. *)
Fixpoint cube_root (bits : nat) (x n : N) : N :=
  match bits with
  | O => x
  | S bits =>
      let y := x + 2 ^ N.of_nat bits in
      if y * y * y <=? n then cube_root bits y n else cube_root bits x n
  end.

Definition _K : list N :=
  Eval vm_compute in (λ p, cube_root 40 0 (p * 2 ^ 96) mod 2 ^ 32) <$> primes 64.

Definition init : list N :=
  Eval vm_compute in (λ p, N.sqrt (p * 2 ^ 64) mod 2 ^ 32) <$> primes 8.

(** Padding: one [0x80] byte, zeros up to 56 modulo 64, the bit length as
    eight big-endian bytes. *)
Definition be_bytes (k : nat) (x : N) : list N :=
  (λ i : nat, N.shiftr x (8 * N.of_nat (k - 1 - i)) mod 256) <$> seq 0 k.

Definition pad (msg : list N) : list N :=
  let len := N.of_nat (length msg) in
  msg ++ [0x80] ++ replicate (N.to_nat ((119 - len mod 64) mod 64)) 0
      ++ be_bytes 8 (8 * len).

Fixpoint chunks {A} (fuel k : nat) (l : list A) : list (list A) :=
  match fuel, l with
  | _, [] => []
  | O, _ => []
  | S fuel, _ => take k l :: chunks fuel k (drop k l)
  end.

Definition be_word (bs : list N) : N :=
  foldl (λ acc b, acc * 256 + b) 0 bs.

Fixpoint schedule (n : nat) (w : list N) : list N :=
  match n with
  | O => w
  | S n =>
      let t := length w in
      let at_ (k : nat) := nth (t - k) w 0 in
      schedule n (w ++ [add32 (add32 (smallSigma1 (at_ 2%nat)) (at_ 7%nat))
                              (add32 (smallSigma0 (at_ 15%nat)) (at_ 16%nat))])
  end.

Definition round (st : list N) (kw : N * N) : list N :=
  match st with
  | [a; b; c; d; e; f; g; h] =>
      let t1 := add32 (add32 (add32 h (bigSigma1 e)) (add32 (Ch e f g) kw.1)) kw.2 in
      let t2 := add32 (bigSigma0 a) (Maj a b c) in
      [add32 t1 t2; a; b; c; add32 d t1; e; f; g]
  | _ => st
  end.

Definition block (h : list N) (blk : list N) : list N :=
  let w := schedule 48 (be_word <$> chunks 16 4 blk) in
  zip_with add32 h (foldl round h (zip _K w)).

Definition Sum256 (msg : list N) : list N :=
  let padded := pad msg in
  foldl block init (chunks (length padded) 64 padded) ≫= be_bytes 4.

End sha256.

Module hex.
Local Open Scope N_scope.

Definition hextable : string := "0123456789abcdef".

Definition digit (x : N) : ascii :=
  default "0"%char (String.get (N.to_nat x) hextable).

(** [hex.EncodeToString]: two lower-case digits per byte. *)
Fixpoint EncodeToString (src : list N) : string :=
  match src with
  | [] => ""
  | v :: src => String (digit (N.shiftr v 4)) (String (digit (N.land v 0x0f)) (EncodeToString src))
  end.

End hex.

(** [[]byte(s)] and [string(b)]. *)
Definition bytes_of_string (s : string) : list N := N_of_ascii <$> list_ascii_of_string s.
Definition string_of_bytes (b : list N) : string := string_of_list_ascii (ascii_of_N <$> b).

(** ** Package [strings] *)

Module gostrings.
Local Open Scope N_scope.

(** The runes for which [unicode.IsSpace] holds, in their UTF-8 encodings:
    the six ASCII ones, U+0085, U+00A0, U+1680, U+2000 to U+200A, U+2028,
    U+2029, U+202F, U+205F and U+3000. *)
Definition space_runes : list (list N) :=
  [ [0x09]; [0x0a]; [0x0b]; [0x0c]; [0x0d]; [0x20];
    [0xc2; 0x85]; [0xc2; 0xa0]; [0xe1; 0x9a; 0x80];
    [0xe2; 0x80; 0x80]; [0xe2; 0x80; 0x81]; [0xe2; 0x80; 0x82]; [0xe2; 0x80; 0x83];
    [0xe2; 0x80; 0x84]; [0xe2; 0x80; 0x85]; [0xe2; 0x80; 0x86]; [0xe2; 0x80; 0x87];
    [0xe2; 0x80; 0x88]; [0xe2; 0x80; 0x89]; [0xe2; 0x80; 0x8a];
    [0xe2; 0x80; 0xa8]; [0xe2; 0x80; 0xa9]; [0xe2; 0x80; 0xaf];
    [0xe2; 0x81; 0x9f]; [0xe3; 0x80; 0x80] ].

Definition strip_prefix (p s : list N) : option (list N) :=
  if bool_decide (take (length p) s = p) then Some (drop (length p) s) else None.

(** [TrimLeftFunc(s, unicode.IsSpace)]: runes are decoded from the front; a
    byte sequence that is not the encoding of a space rune stops the scan. *)
Fixpoint trim_left (fuel : nat) (runes : list (list N)) (s : list N) : list N :=
  match fuel with
  | O => s
  | S fuel =>
      match head (omap (λ r, strip_prefix r s) runes) with
      | Some s' => trim_left fuel runes s'
      | None => s
      end
  end.

(** [TrimRightFunc(s, unicode.IsSpace)]: the same from the back, where Go
    looks for the lead byte of the last rune. *)
Definition trim_right (s : list N) : list N :=
  reverse (trim_left (length s) (reverse <$> space_runes) (reverse s)).

Definition TrimSpace (s : string) : string :=
  let b := bytes_of_string s in
  string_of_bytes (trim_right (trim_left (length b) space_runes b)).

Definition HasPrefix (s prefix : string) : bool := String.prefix prefix s.

Fixpoint Contains (s : string) (c : ascii) : bool :=
  match s with
  | EmptyString => false
  | String d s => Ascii.eqb c d || Contains s c
  end.

(** [Cut(s, sep)] for a one-byte separator: the text before and after the
    first [sep], or [None] when there is none. *)
Fixpoint Cut (s : string) (sep : ascii) : option (string * string) :=
  match s with
  | EmptyString => None
  | String d s =>
      if Ascii.eqb sep d then Some (EmptyString, s)
      else '(before, after) ← Cut s sep; Some (String d before, after)
  end.

(** A byte that occurs in no space rune. *)
Definition no_space_byte (b : N) : Prop :=
  Forall (λ r, (b ∉ r) ∧ r ≠ []) space_runes.

End gostrings.

(** ** Package [bufio]: a [Scanner] with the default [ScanLines] split *)

Module bufio.

Definition MaxScanTokenSize : nat := 64 * 1024.

Definition dropCR (line : string) : string :=
  match String.rev line with
  | String "013" r => String.rev r
  | _ => line
  end.

(** The raw lines of a body: the text between newlines, and a last line
    without newline when it is not empty. *)
Fixpoint raw_lines (cur : string) (s : string) : list string :=
  match s with
  | EmptyString => if String.eqb cur "" then [] else [String.rev cur]
  | String "010" s => String.rev cur :: raw_lines "" s
  | String c s => raw_lines (String c cur) s
  end.

(** What a reader delivers: the bytes read, and the error (if any) that ended
    the reading in place of the end of the data. *)
Record Reader := { content : string; read_error : bool }.

(** The tokens of [Scan], and whether [Err] is set afterwards: by a read
    error, or by [ErrTooLong] when a line does not fit the buffer. *)
Definition too_long (raw : string) : bool :=
  bool_decide (MaxScanTokenSize ≤ String.length raw)%nat.

Definition Scan (body : Reader) : list string * bool :=
  let raw := raw_lines "" (content body) in
  (dropCR <$> raw, read_error body || existsb too_long raw).

End bufio.

(** ** Packages [net] and [net/netip] *)

(** A [net.IP] and a [net.IPMask] are byte slices, here [list N]; the nil
    slice is [[]].  *)
Module net.
Local Open Scope N_scope.

Definition IPv4len : nat := 4.
Definition IPv6len : nat := 16.

Record IPNet := { IP : list N; Mask : list N }.

Definition v4InV6Prefix : list N := [0; 0; 0; 0; 0; 0; 0; 0; 0; 0; 0xff; 0xff].

Definition isZeros (p : list N) : bool := forallb (N.eqb 0) p.
Definition allFF (b : list N) : bool := forallb (N.eqb 0xff) b.

(** [ip.To4()] *)
Definition To4 (ip : list N) : list N :=
  if (length ip =? IPv4len)%nat then ip
  else if (length ip =? IPv6len)%nat && isZeros (take 10 ip)
          && (ip !!! 10%nat =? 0xff) && (ip !!! 11%nat =? 0xff)
       then drop 12 ip
       else [].

(** [CIDRMask(ones, bits)] *)
Fixpoint CIDRMask_fill (l : nat) (n : Z) : list N :=
  match l with
  | O => []
  | S l =>
      if (8 <=? n)%Z then 0xff :: CIDRMask_fill l (n - 8)
      else N.lxor 0xff (N.shiftr 0xff (Z.to_N n)) :: CIDRMask_fill l 0
  end.

Definition CIDRMask (ones bits : Z) : list N :=
  if negb (bits =? 8 * 4)%Z && negb (bits =? 8 * 16)%Z then []
  else if (ones <? 0)%Z || (bits <? ones)%Z then []
  else CIDRMask_fill (Z.to_nat (bits / 8)) ones.

(** [ip.Mask(mask)] *)
Definition IP_Mask (ip mask : list N) : list N :=
  let mask :=
    if (length mask =? IPv6len)%nat && (length ip =? IPv4len)%nat && allFF (take 12 mask)
    then drop 12 mask else mask in
  let ip :=
    if (length mask =? IPv4len)%nat && (length ip =? IPv6len)%nat
       && bool_decide (take 12 ip = v4InV6Prefix)
    then drop 12 ip else ip in
  if negb (length ip =? length mask)%nat then []
  else zip_with N.land ip mask.

(** *** Parsing: [netip.ParseAddr] *)

Inductive Addr :=
  | Addr4 (b : list N)
  | Addr6 (b : list N) (zone : string).

Definition BitLen (a : Addr) : Z :=
  match a with Addr4 _ => 32 | Addr6 _ _ => 128 end.
Definition Zone (a : Addr) : string :=
  match a with Addr4 _ => "" | Addr6 _ z => z end.
Definition As16 (a : Addr) : list N :=
  match a with Addr4 b => v4InV6Prefix ++ b | Addr6 b _ => b end.

Definition is_digit (c : ascii) : bool :=
  (48 <=? N_of_ascii c) && (N_of_ascii c <=? 57).

Definition hex_val (c : ascii) : option N :=
  let n := N_of_ascii c in
  if (48 <=? n) && (n <=? 57) then Some (n - 48)
  else if (97 <=? n) && (n <=? 102) then Some (n - 97 + 10)
  else if (65 <=? n) && (n <=? 70) then Some (n - 65 + 10)
  else None.

(** [parseIPv4Fields]: [first] says that the byte is the first of the text,
    [prevDot] that the byte before it is a dot. *)
Fixpoint parseIPv4Fields (s : string) (first prevDot : bool)
    (val : N) (digLen pos : nat) (fields : list N) : option (list N) :=
  match s with
  | EmptyString => if (pos <? 3)%nat then None else Some (fields ++ [val])
  | String c rest =>
      if is_digit c then
        if (digLen =? 1)%nat && (val =? 0) then None
        else
          let val := val * 10 + (N_of_ascii c - 48) in
          if 255 <? val then None
          else parseIPv4Fields rest false false val (S digLen) pos fields
      else if Ascii.eqb c "." then
        if first || String.eqb rest "" || prevDot then None
        else if (pos =? 3)%nat then None
        else parseIPv4Fields rest false true 0 0%nat (S pos) (fields ++ [val])
      else None
  end.

Definition parseIPv4 (s : string) : option Addr :=
  fields ← parseIPv4Fields s true false 0 0%nat 0%nat []; Some (Addr4 fields).

(** One group of hexadecimal digits: the number of digits, the value and
    the text after them; more than four digits is an error. *)
Fixpoint hex_group (s : string) (off : nat) (acc : N) : option (nat * N * string) :=
  match s with
  | EmptyString => Some (off, acc, s)
  | String c rest =>
      match hex_val c with
      | None => Some (off, acc, s)
      | Some d =>
          let acc := acc * 16 + d in
          if (3 <? off)%nat then None
          else if 0xffff <? acc then None
          else hex_group rest (S off) acc
      end
  end.

(** The loop of [parseIPv6]; [ip] holds the [i] bytes parsed so far. *)
Fixpoint parseIPv6_loop (fuel : nat) (s : string) (ip : list N) (ellipsis : option nat)
    : option (string * list N * option nat) :=
  match fuel with
  | O => Some (s, ip, ellipsis)
  | S fuel =>
      if (16 <=? length ip)%nat then Some (s, ip, ellipsis)
      else
        '(off, acc, rest) ← hex_group s 0 0;
        if (off =? 0)%nat then None
        else if gostrings.HasPrefix rest "." then
          if bool_decide (ellipsis = None) && negb (length ip =? 12)%nat then None
          else if (16 <? length ip + 4)%nat then None
          else
            fields ← parseIPv4Fields s true false 0 0%nat 0%nat [];
            Some ("", ip ++ fields, ellipsis)
        else
          let ip := ip ++ [N.shiftr acc 8; N.land acc 0xff] in
          match rest with
          | EmptyString => Some ("", ip, ellipsis)
          | String c rest =>
              if negb (Ascii.eqb c ":") then None
              else match rest with
                   | EmptyString => None
                   | String c' rest' =>
                       if Ascii.eqb c' ":" then
                         if bool_decide (ellipsis = None) then
                           if String.eqb rest' "" then Some ("", ip, Some (length ip))
                           else parseIPv6_loop fuel rest' ip (Some (length ip))
                         else None
                       else parseIPv6_loop fuel rest ip ellipsis
                   end
          end
  end.

Definition parseIPv6 (input : string) : option Addr :=
  '(s, zone) ← match gostrings.Cut input "%" with
               | Some (s, zone) => if String.eqb zone "" then None else Some (s, zone)
               | None => Some (input, "")
               end;
  let '(ellipsis, s) :=
    match s with
    | String c (String c' s') =>
        if Ascii.eqb c ":" && Ascii.eqb c' ":" then (Some 0%nat, s') else (None, s)
    | _ => (None, s)
    end in
  if bool_decide (ellipsis = Some 0%nat) && String.eqb s "" then Some (Addr6 (replicate 16 0) zone)
  else
    '(s, ip, ellipsis) ← parseIPv6_loop 9 s [] ellipsis;
    if negb (String.eqb s "") then None
    else if (length ip <? 16)%nat then
      e ← ellipsis;
      Some (Addr6 (take e ip ++ replicate (16 - length ip) 0 ++ drop e ip) zone)
    else match ellipsis with
         | Some _ => None
         | None => Some (Addr6 ip zone)
         end.

(** The first of the bytes ['.'], [':'] and ['%'] decides the format. *)
Fixpoint ParseAddr_scan (s rest : string) : option Addr :=
  match rest with
  | EmptyString => None
  | String c rest =>
      if Ascii.eqb c "." then parseIPv4 s
      else if Ascii.eqb c ":" then parseIPv6 s
      else if Ascii.eqb c "%" then None
      else ParseAddr_scan s rest
  end.

Definition ParseAddr (s : string) : option Addr := ParseAddr_scan s s.

(** [net.ParseIP]: sixteen bytes, or nil. *)
Definition parseIP (s : string) : option (list N) :=
  ip ← ParseAddr s;
  if negb (String.eqb (Zone ip) "") then None else Some (As16 ip).

Definition ParseIP (s : string) : list N := default [] (parseIP s).

Definition big : Z := 0xFFFFFF.

(** [dtoi]: a decimal number at the start of [s], the number of bytes read,
    and whether there was one below [big]. *)
Fixpoint dtoi_loop (s : string) (n : Z) (i : nat) : Z * nat * bool :=
  match s with
  | String c rest =>
      if is_digit c then
        let n := (n * 10 + Z.of_N (N_of_ascii c - 48))%Z in
        if (big <=? n)%Z then (big, i, false) else dtoi_loop rest n (S i)
      else if (i =? 0)%nat then (0%Z, 0%nat, false) else (n, i, true)
  | EmptyString => if (i =? 0)%nat then (0%Z, 0%nat, false) else (n, i, true)
  end.

Definition dtoi (s : string) : Z * nat * bool := dtoi_loop s 0%Z 0%nat.

(** [net.ParseCIDR]: the address and the network, or an error ([None]). *)
Definition ParseCIDR (s : string) : option (list N * IPNet) :=
  '(addr, mask) ← gostrings.Cut s "/";
  ipAddr ← ParseAddr addr;
  if negb (String.eqb (Zone ipAddr) "") then None
  else
    let '(n, i, ok) := dtoi mask in
    if negb ok || negb (i =? String.length mask)%nat || (n <? 0)%Z || (BitLen ipAddr <? n)%Z
    then None
    else
      let m := CIDRMask n (BitLen ipAddr) in
      let addr16 := As16 ipAddr in
      Some (addr16, {| IP := IP_Mask addr16 m; Mask := m |}).


(** *** Printing: [IP.String], [IPMask.String], [IPNet.String] *)

(** [uitoa] and [ubtoa]: the decimal digits of a number. *)
Definition uitoa (n : N) : string := NilEmpty.string_of_uint (N.to_uint n).

(** [appendHex]: a 16-bit group in lower-case hexadecimal, without leading
    zeros. *)
Definition appendHex (x : N) : string :=
  (if 0x1000 <=? x then String (hex.digit (N.shiftr x 12)) "" else "")
  +:+ (if 0x100 <=? x then String (hex.digit (N.land (N.shiftr x 8) 0xf)) "" else "")
  +:+ (if 0x10 <=? x then String (hex.digit (N.land (N.shiftr x 4) 0xf)) "" else "")
  +:+ String (hex.digit (N.land x 0xf)) "".

Definition hexString (b : list N) : string := hex.EncodeToString b.

(** [appendTo4]: dotted decimal. *)
Definition appendTo4 (ip : list N) : string :=
  match ip with
  | [a; b; c; d] => uitoa a +:+ "." +:+ uitoa b +:+ "." +:+ uitoa c +:+ "." +:+ uitoa d
  | _ => ""
  end.

(** The eight 16-bit groups of a 16-byte address ([v6u16]). *)
Fixpoint v6groups (ip : list N) : list N :=
  match ip with
  | hi :: lo :: ip => (hi * 256 + lo) :: v6groups ip
  | _ => []
  end.

Fixpoint zero_run (groups : list N) : nat :=
  match groups with
  | 0 :: groups => S (zero_run groups)
  | _ => O
  end.

(** The first longest run of at least two zero groups, as
    [(zeroStart, zeroEnd)]; [(255, 255)] when there is none. *)
Definition zero_span (groups : list N) : nat * nat :=
  foldl (λ '(zeroStart, zeroEnd) (i : nat),
           let l := zero_run (drop i groups) in
           if (2 <=? l)%nat && (zeroEnd - zeroStart <? l)%nat then (i, (i + l)%nat)
           else (zeroStart, zeroEnd))
        (255%nat, 255%nat) (seq 0 8).

Fixpoint appendTo6_loop (fuel i : nat) (groups : list N) (zeroStart zeroEnd : nat) : string :=
  match fuel with
  | O => ""
  | S fuel =>
      if (8 <=? i)%nat then ""
      else if (i =? zeroStart)%nat then
        "::" +:+ (if (8 <=? zeroEnd)%nat then ""
                  else appendHex (groups !!! zeroEnd)
                       +:+ appendTo6_loop fuel (S zeroEnd) groups zeroStart zeroEnd)
      else (if (0 <? i)%nat then ":" else "")
           +:+ appendHex (groups !!! i)
           +:+ appendTo6_loop fuel (S i) groups zeroStart zeroEnd
  end.

Definition appendTo6 (ip : list N) : string :=
  let groups := v6groups ip in
  let '(zeroStart, zeroEnd) := zero_span groups in
  appendTo6_loop 9 0 groups zeroStart zeroEnd.

(** [ip.String()] *)
Definition IP_String (ip : list N) : string :=
  if (length ip =? 0)%nat then "<nil>"
  else if negb (length ip =? IPv4len)%nat && negb (length ip =? IPv6len)%nat
       then "?" +:+ hexString ip
       else let p4 := To4 ip in
            if (length p4 =? IPv4len)%nat then appendTo4 p4 else appendTo6 ip.

(** [m.String()] *)
Definition IPMask_String (m : list N) : string :=
  if (length m =? 0)%nat then "<nil>" else hexString m.

(** [simpleMaskLength]: the number of leading ones of a mask made of ones
    followed by zeros, and [-1] for any other mask. *)
Fixpoint leading_ones (fuel : nat) (v : N) : Z * N :=
  match fuel with
  | O => (0%Z, v)
  | S fuel =>
      if negb (N.land v 0x80 =? 0) then
        let '(n, v') := leading_ones fuel (N.shiftl v 1 mod 256) in ((n + 1)%Z, v')
      else (0%Z, v)
  end.

Fixpoint simpleMaskLength (mask : list N) : Z :=
  match mask with
  | [] => 0%Z
  | v :: mask =>
      if v =? 0xff then
        match simpleMaskLength mask with
        | (-1)%Z => (-1)%Z
        | n => (8 + n)%Z
        end
      else
        let '(n, v') := leading_ones 8 v in
        if negb (v' =? 0) then (-1)%Z
        else if isZeros mask then n else (-1)%Z
  end.

(** [networkNumberAndMask]; [None] stands for the pair of nils. *)
Definition networkNumberAndMask (n : IPNet) : option (list N * list N) :=
  ip ← (let ip := To4 (IP n) in
        if negb (length ip =? 0)%nat then Some ip
        else if negb (length (IP n) =? IPv6len)%nat then None
        else Some (IP n));
  let m := Mask n in
  if (length m =? IPv4len)%nat then
    if negb (length ip =? IPv4len)%nat then None else Some (ip, m)
  else if (length m =? IPv6len)%nat then
    if (length ip =? IPv4len)%nat then Some (ip, drop 12 m) else Some (ip, m)
  else None.

(** [n.String()]: the canonical text of a network. *)
Definition IPNet_String (n : IPNet) : string :=
  match networkNumberAndMask n with
  | None => "<nil>"
  | Some (nn, m) =>
      let l := simpleMaskLength m in
      if (l =? -1)%Z then IP_String nn +:+ "/" +:+ IPMask_String m
      else IP_String nn +:+ "/" +:+ uitoa (Z.to_N l)
  end.

(** *** The addresses of a network *)

Definition is_byte (b : N) : Prop := b < 256.

(** What a parsed address is: four or sixteen bytes. *)
Definition Addr_ok (a : Addr) : Prop :=
  match a with
  | Addr4 b => length b = 4%nat ∧ Forall is_byte b
  | Addr6 b _ => length b = 16%nat ∧ Forall is_byte b
  end.

(** The byte of a mask in which [n] leading ones remain to be set. *)
Definition mask_byte (n : Z) : N :=
  if (8 <=? n)%Z then 0xff else N.lxor 0xff (N.shiftr 0xff (Z.to_N n)).

(** The byte with bit [r] alone set, and an address with its bit [l]
    flipped; bits are counted from the most significant bit of the first
    byte. *)
Definition bit_at (r : Z) : N := N.shiftr 0x80 (Z.to_N r).

Definition flip_bit (ip : list N) (l : Z) : list N :=
  let j := Z.to_nat (l / 8) in
  <[j := N.lxor (ip !!! j) (bit_at (l mod 8))]> ip.

(** A network number [nn] with a prefix length [l], as the parsers leave
    them: the bits after the prefix are zero. *)
Definition canonical_network (nn : list N) (l : Z) : Prop :=
  (0 ≤ l ≤ 8 * Z.of_nat (length nn))%Z
  ∧ Forall is_byte nn
  ∧ zip_with N.land nn (CIDRMask_fill (length nn) l) = nn.

(** The test of [in_network] on a network number and a mask. *)
Definition agree (nn m ip : list N) : bool :=
  (length ip =? length nn)%nat
  && bool_decide (zip_with N.land nn m = zip_with N.land ip m).

(** The addresses a network stands for: the byte strings of the length of
    its network number that agree with the network number under the mask.
    This is the loop of [IPNet.Contains]; the candidate is taken as it is,
    where [Contains] first shortens an IPv4-mapped candidate to four
    bytes. *)
Definition in_network (n : IPNet) (ip : list N) : bool :=
  match networkNumberAndMask n with
  | None => false
  | Some (nn, m) => agree nn m ip
  end.

End net.

(** ** Errors and results *)

(** A Go [error] is its message, with the wrapped error (the [%w] verb of
    [fmt.Errorf]) when there is one.  A pair [(value, err)] of results is a
    [result]. *)
Inductive error :=
  | New (msg : string)
  | Wrap (msg : string) (cause : error).

Inductive result (A : Type) :=
  | Ok (a : A)
  | Err (e : error).
Arguments Ok {A} a.
Arguments Err {A} e.

Definition is_Ok {A} (r : result A) : bool :=
  match r with Ok _ => true | Err _ => false end.

(** ** Package [config] *)

Module config.

Record UniFiConfig := {
  URL : string;
  Site : string;
  Username : string;
  Password : string;
  GroupName : string;
  Ruleset : string;
  RuleIndex : Z
}.

(** The [Auth] and [Params] maps of a feed are not read by the code below
    and are left out. *)
Record FeedConfig := {
  Name : string;
  FeedURL : string;
  Parser : string;
  Enabled : bool;
  Timeout : string
}.

Record Config := {
  UniFi : UniFiConfig;
  Feeds : list FeedConfig
}.

(** [FeedsList.GetEnabled] *)
Definition GetEnabled (f : list FeedConfig) : list FeedConfig :=
  filter (λ feed, Enabled feed = true) f.

(** [FeedsList.EnabledCount] *)
Definition EnabledCount (f : list FeedConfig) : Z :=
  foldl (λ count feed, if Enabled feed then count + 1 else count)%Z 0%Z f.

(** The fields [Sync] and [Health] of [Config], which the orchestrator does
    not read, beside the two it reads.  A [time.Duration] is a number of
    nanoseconds. *)
Record SyncConfig := { Interval : Z }.
Record HealthConfig := { HealthEnabled : bool; Port : Z }.
Record File := { Core : Config; Sync : SyncConfig; Health : HealthConfig }.

Definition Minute : Z := 60 * 1000000000.

(** [Config.setDefaults] *)
Definition or_string (s d : string) : string := if String.eqb s "" then d else s.
Definition or_int (n d : Z) : Z := if (n =? 0)%Z then d else n.

Definition setDefaults (c : File) : File :=
  let u := UniFi (Core c) in
  {| Core :=
       {| UniFi :=
            {| URL := URL u; Site := or_string (Site u) "default";
               Username := Username u; Password := Password u;
               GroupName := or_string (GroupName u) "uts-block-list";
               Ruleset := or_string (Ruleset u) "WAN_OUT";
               RuleIndex := or_int (RuleIndex u) 2000 |};
          Feeds :=
            (λ feed, {| Name := Name feed; FeedURL := FeedURL feed; Parser := Parser feed;
                        Enabled := Enabled feed;
                        Timeout := or_string (Timeout feed) "30s" |}) <$> Feeds (Core c) |};
     Sync := {| Interval := or_int (Interval (Sync c)) (60 * Minute) |};
     Health := {| HealthEnabled := HealthEnabled (Health c);
                  Port := or_int (Port (Health c)) 8080 |} |}.

(** [Config.Validate] *)
Definition has_scheme (url : string) : bool :=
  gostrings.HasPrefix url "http://" || gostrings.HasPrefix url "https://".

Definition feed_error (i : nat) (what : string) : error :=
  New ("feed[" +:+ net.uitoa (N.of_nat i) +:+ "]" +:+ what).

(** The loop over the feeds: the first error, or the number of enabled
    feeds. *)
Fixpoint validate_feeds (i : nat) (enabledCount : Z) (feeds : list FeedConfig) : error + Z :=
  match feeds with
  | [] => inr enabledCount
  | feed :: feeds =>
      if negb (Enabled feed) then validate_feeds (S i) enabledCount feeds
      else if String.eqb (Name feed) "" then inl (feed_error i ".name is required")
      else if String.eqb (FeedURL feed) "" then inl (feed_error i ".url is required")
      else if String.eqb (Parser feed) "" then inl (feed_error i ".parser is required")
      else if negb (has_scheme (FeedURL feed))
      then inl (feed_error i ".url must start with http:// or https://")
      else validate_feeds (S i) (enabledCount + 1) feeds
  end.

Definition Validate (c : File) : option error :=
  let u := UniFi (Core c) in
  if String.eqb (URL u) "" then Some (New "unifi.url is required")
  else if negb (has_scheme (URL u))
  then Some (New "unifi.url must start with http:// or https://")
  else if String.eqb (Username u) "" then Some (New "unifi.username is required")
  else if String.eqb (Password u) "" then Some (New "unifi.password is required")
  else if (Interval (Sync c) <? Minute)%Z
  then Some (New "sync.interval must be at least 1 minute")
  else if (length (Feeds (Core c)) =? 0)%nat
  then Some (New "at least one feed must be configured")
  else match validate_feeds 0 0 (Feeds (Core c)) with
       | inl err => Some err
       | inr enabledCount =>
           if (enabledCount =? 0)%Z then Some (New "at least one feed must be enabled")
           else None
       end.

End config.

(** ** The network *)

(** What the program sends and what comes back.  A request is made with
    [http.NewRequestWithContext] and sent with [client.Do]; either can fail.
    The body of a response is the text a reader delivers, together with what
    decoding it as the controller's JSON envelope yields ([None] when
    [Decode] fails). *)
Module http.

Record FirewallGroup := {
  ID : string;
  GroupName : string;
  GroupType : string;
  Members : list string
}.

Inductive Payload :=
  | NoBody
  | LoginBody (username password : string) (remember : bool)
  | GroupBody (group : FirewallGroup)
  | UpdateBody (group_members : list string).

Record Request := {
  Method : string;
  URL : string;
  Body : Payload;
  Header : list (string * string);
  ClientTimeout : string
}.

Record Response := {
  StatusCode : Z;
  RespBody : bufio.Reader;
  Data : option (list FirewallGroup)
}.

Inductive Outcome :=
  | RequestError (e : error)
  | DoError (e : error)
  | Got (resp : Response).

Definition StatusOK : Z := 200.
Definition StatusCreated : Z := 201.

End http.

(** ** Package [parser] *)

Module parser.
Import net.

(** [parseIPOrCIDR] *)
Definition parseIPOrCIDR (s : string) : result IPNet :=
  let s := gostrings.TrimSpace s in
  if gostrings.Contains s "/" then
    match ParseCIDR s with
    | None => Err (Wrap "invalid CIDR" (New ("invalid CIDR address: " +:+ s)))
    | Some (_, ipnet) => Ok ipnet
    end
  else
    let ip := ParseIP s in
    if (length ip =? 0)%nat then Err (New ("invalid IP address: " +:+ s))
    else
      let mask :=
        if negb (length (To4 ip) =? 0)%nat then CIDRMask 32 32 else CIDRMask 128 128 in
      Ok {| IP := ip; Mask := mask |}.

(** The canonical string of the network a text parses to. *)
Definition canonical_of (s : string) : option string :=
  match parseIPOrCIDR s with
  | Ok ipnet => Some (IPNet_String ipnet)
  | Err _ => None
  end.

(** The network a text parses to, when it does. *)
Definition network_of (s : string) : option IPNet :=
  match parseIPOrCIDR s with
  | Ok ipnet => Some ipnet
  | Err _ => None
  end.

(** [isValidIP], [isValidCIDR] *)
Definition isValidIP (s : string) : bool := negb (length (ParseIP s) =? 0)%nat.
Definition isValidCIDR (s : string) : bool := bool_decide (is_Some (ParseCIDR s)).

(** One turn of the loop of [PlainParser.parseBody] on the text of a line. *)
Definition plain_line (networks : list IPNet) (text : string) : list IPNet :=
  let line := gostrings.TrimSpace text in
  if String.eqb line "" then networks
  else if gostrings.HasPrefix line "#" || gostrings.HasPrefix line ";"
          || gostrings.HasPrefix line "//" then networks
  else match parseIPOrCIDR line with
       | Err _ => networks
       | Ok ipnet => networks ++ [ipnet]
       end.

(** One turn of the loop of [NetsetParser.parseBody]. *)
Definition netset_line (networks : list IPNet) (text : string) : list IPNet :=
  let line := gostrings.TrimSpace text in
  if String.eqb line "" then networks
  else if gostrings.HasPrefix line "#" then networks
  else match parseIPOrCIDR line with
       | Err _ => networks
       | Ok ipnet => networks ++ [ipnet]
       end.

Definition parseBody (turn : list IPNet → string → list IPNet) (body : bufio.Reader)
    : result (list IPNet) :=
  let '(tokens, scan_err) := bufio.Scan body in
  let networks := foldl turn [] tokens in
  if scan_err then Err (Wrap "error reading feed" (New "scanner error"))
  else if (length networks =? 0)%nat then Err (New "no valid IPs found in feed")
  else Ok networks.

Definition PlainParser_parseBody : bufio.Reader → result (list IPNet) := parseBody plain_line.
Definition NetsetParser_parseBody : bufio.Reader → result (list IPNet) := parseBody netset_line.

Section Registry.
(** The state of the outside world and one round trip to it. *)
Context {Net : Type} (Do : Net → http.Request → http.Outcome * Net).

(** The [Parser] interface. *)
Record Parser := {
  Name : string;
  Parse : Net → config.FeedConfig → result (list IPNet) * Net;
  ValidateConfig : config.FeedConfig → option error
}.

(** The body shared by [PlainParser.Parse] and [NetsetParser.Parse]: a GET
    of the feed's URL with the feed's timeout (30s when it is empty or
    does not parse), then [parseBody] on a 200 response. *)
Definition fetch_and_parse (parseBody : bufio.Reader → result (list IPNet))
    (w : Net) (feedConfig : config.FeedConfig) : result (list IPNet) * Net :=
  let req := {| http.Method := "GET"; http.URL := config.FeedURL feedConfig;
                http.Body := http.NoBody;
                http.Header := [("User-Agent", "UniFi-Threat-Sync/1.0")];
                http.ClientTimeout := config.Timeout feedConfig |} in
  match Do w req with
  | (http.RequestError e, w) => (Err (Wrap "failed to create request" e), w)
  | (http.DoError e, w) => (Err (Wrap "failed to fetch feed" e), w)
  | (http.Got resp, w) =>
      if negb (http.StatusCode resp =? http.StatusOK)%Z
      then (Err (New "unexpected status code"), w)
      else (parseBody (http.RespBody resp), w)
  end.

Definition url_required (feedConfig : config.FeedConfig) : option error :=
  if String.eqb (config.FeedURL feedConfig) "" then Some (New "url is required") else None.

Definition PlainParser : Parser :=
  {| Name := "plain"; Parse := fetch_and_parse PlainParser_parseBody;
     ValidateConfig := url_required |}.

Definition NetsetParser : Parser :=
  {| Name := "netset"; Parse := fetch_and_parse NetsetParser_parseBody;
     ValidateConfig := url_required |}.

(** The registry, a package-level map in the source, is passed around. *)
Definition Register (p : Parser) (registry : gmap string Parser) : gmap string Parser :=
  <[Name p := p]> registry.

Definition Get (registry : gmap string Parser) (name : string) : result Parser :=
  match registry !! name with
  | None => Err (New ("unknown parser: " +:+ name))
  | Some p => Ok p
  end.

Definition List (registry : gmap string Parser) : list string :=
  (map_to_list registry).*1.

(** The registry after the [init] functions of the two parser files. *)
Definition registry0 : gmap string Parser :=
  Register PlainParser (Register NetsetParser ∅).
End Registry.

End parser.

(** ** Package [sort] *)

(** [sort.Slice] and [sort.Strings] order a slice in place; the sort is not
    stable.  They are modelled by a merge sort; [Slice_unique] and
    [Strings_unique] below show that on the inputs this program sorts every
    ordered rearrangement is the same list, so that the choice of the
    algorithm does not matter. *)
Module sort.

Definition Slice {A} (less : A → A → bool) (x : list A) : list A :=
  @merge_sort A (λ a b, less b a = false) (λ a b, decide (less b a = false)) x.

Definition Strings (x : list string) : list string :=
  Slice String.ltb x.

(** The [less] function that compares by a string key, and what [Slice]
    establishes for it: no element is less than one before it. *)
Definition less_key {A} (key : A → string) (a b : A) : bool := String.ltb (key a) (key b).
Definition ordered {A} (key : A → string) : relation A := λ a b, less_key key b a = false.

End sort.

(** ** Package [normalizer] *)

Module normalizer.
Import net.

(** [Normalize]: the map [seen] is a [gmap]; ranging over a Go map visits
    its entries in an unspecified order, here the order of [map_to_list]
    (see [Normalize_any_order]). *)
Definition seen_of (networks : list IPNet) : gmap string IPNet :=
  foldl (λ seen network, <[IPNet_String network := network]> seen) ∅ networks.

Definition Normalize (networks : list IPNet) : list IPNet :=
  if (length networks =? 0)%nat then networks
  else
    let seen := seen_of networks in
    let result := (map_to_list seen).*2 in
    sort.Slice (λ a b, String.ltb (IPNet_String a) (IPNet_String b)) result.

(** [Contains] *)
Definition Contains (networks : list IPNet) (target : IPNet) : bool :=
  let targetStr := IPNet_String target in
  existsb (λ network, String.eqb (IPNet_String network) targetStr) networks.

(** [ToStrings] *)
Definition ToStrings (networks : list IPNet) : list string :=
  IPNet_String <$> networks.

(** [Merge] *)
Definition Merge (lists : list (list IPNet)) : list IPNet :=
  Normalize (concat lists).

(** One turn of the loop of [FromStrings]. *)
Definition from_string (result : list IPNet) (s : string) : list IPNet :=
  match ParseCIDR s with
  | Some (_, ipnet) => result ++ [ipnet]
  | None =>
      let ip := ParseIP s in
      if (length ip =? 0)%nat then result
      else
        let mask :=
          if negb (length (To4 ip) =? 0)%nat then CIDRMask 32 32 else CIDRMask 128 128 in
        result ++ [{| IP := ip; Mask := mask |}]
  end.

(** [FromStrings] *)
Definition FromStrings (strs : list string) : list IPNet * option error :=
  (foldl from_string [] strs, None).

End normalizer.

(** ** Package [unifi]: the controller client *)

Module unifi.
Import http.

Record Client := {
  cfg : config.UniFiConfig;
  loggedIn : bool
}.

Definition baseURL (c : Client) : string := config.URL (cfg c).

Definition set_loggedIn (c : Client) (b : bool) : Client :=
  {| cfg := cfg c; loggedIn := b |}.

Definition json_header : list (string * string) := [("Content-Type", "application/json")].

(** [NewClient]; making the cookie jar does not fail. *)
Definition NewClient (cfg : config.UniFiConfig) : result Client :=
  Ok {| cfg := cfg; loggedIn := false |}.

Section Client.
Context {Net : Type} (Do : Net → Request → Outcome * Net).

(** [Client.Login] *)
Definition Login (c : Client) (w : Net) : option error * Client * Net :=
  let req := {| Method := "POST"; URL := baseURL c +:+ "/api/auth/login";
                Body := LoginBody (config.Username (cfg c)) (config.Password (cfg c)) true;
                Header := json_header; ClientTimeout := "30s" |} in
  match Do w req with
  | (RequestError e, w) => (Some (Wrap "failed to create login request" e), c, w)
  | (DoError e, w) => (Some (Wrap "login request failed" e), c, w)
  | (Got resp, w) =>
      if negb (StatusCode resp =? StatusOK)%Z
      then (Some (New "login failed with status"), c, w)
      else (None, set_loggedIn c true, w)
  end.

(** [Client.ensureLoggedIn] *)
Definition ensureLoggedIn (c : Client) (w : Net) : option error * Client * Net :=
  if loggedIn c then (None, c, w) else Login c w.

Definition firewallgroup_url (c : Client) : string :=
  baseURL c +:+ "/proxy/network/api/s/" +:+ config.Site (cfg c) +:+ "/rest/firewallgroup".

(** [Client.GetFirewallGroup] *)
Definition GetFirewallGroup (c : Client) (w : Net) (name : string)
    : result FirewallGroup * Client * Net :=
  match ensureLoggedIn c w with
  | (Some err, c, w) => (Err err, c, w)
  | (None, c, w) =>
      let req := {| Method := "GET"; URL := firewallgroup_url c; Body := NoBody;
                    Header := []; ClientTimeout := "30s" |} in
      match Do w req with
      | (RequestError e, w) => (Err (Wrap "failed to create request" e), c, w)
      | (DoError e, w) => (Err (Wrap "request failed" e), c, w)
      | (Got resp, w) =>
          if negb (StatusCode resp =? StatusOK)%Z
          then (Err (New "unexpected status"), c, w)
          else match Data resp with
               | None => (Err (Wrap "failed to decode response" (New "json")), c, w)
               | Some data =>
                   match list_find (λ group, GroupName group = name) data with
                   | Some (_, group) => (Ok group, c, w)
                   | None => (Err (New ("group not found: " +:+ name)), c, w)
                   end
               end
      end
  end.

(** [Client.CreateFirewallGroup] *)
Definition CreateFirewallGroup (c : Client) (w : Net) (name : string) (members : list string)
    : result FirewallGroup * Client * Net :=
  match ensureLoggedIn c w with
  | (Some err, c, w) => (Err err, c, w)
  | (None, c, w) =>
      let group := {| ID := ""; GroupName := name; GroupType := "address-group";
                      Members := members |} in
      let req := {| Method := "POST"; URL := firewallgroup_url c; Body := GroupBody group;
                    Header := json_header; ClientTimeout := "30s" |} in
      match Do w req with
      | (RequestError e, w) => (Err (Wrap "failed to create request" e), c, w)
      | (DoError e, w) => (Err (Wrap "request failed" e), c, w)
      | (Got resp, w) =>
          if negb (StatusCode resp =? StatusOK)%Z && negb (StatusCode resp =? StatusCreated)%Z
          then (Err (New "unexpected status"), c, w)
          else match Data resp with
               | None => (Err (Wrap "failed to decode response" (New "json")), c, w)
               | Some [] => (Err (New "no group returned in response"), c, w)
               | Some (g :: _) => (Ok g, c, w)
               end
      end
  end.

(** [Client.UpdateFirewallGroup] *)
Definition UpdateFirewallGroup (c : Client) (w : Net) (groupID : string) (members : list string)
    : option error * Client * Net :=
  match ensureLoggedIn c w with
  | (Some err, c, w) => (Some err, c, w)
  | (None, c, w) =>
      let req := {| Method := "PUT"; URL := firewallgroup_url c +:+ "/" +:+ groupID;
                    Body := UpdateBody members;
                    Header := json_header; ClientTimeout := "30s" |} in
      match Do w req with
      | (RequestError e, w) => (Some (Wrap "failed to create request" e), c, w)
      | (DoError e, w) => (Some (Wrap "request failed" e), c, w)
      | (Got resp, w) =>
          if negb (StatusCode resp =? StatusOK)%Z
          then (Some (New "unexpected status"), c, w)
          else (None, c, w)
      end
  end.
(** [Client.Logout] *)
Definition Logout (c : Client) (w : Net) : option error * Client * Net :=
  if negb (loggedIn c) then (None, c, w)
  else
    let req := {| Method := "POST"; URL := baseURL c +:+ "/api/auth/logout"; Body := NoBody;
                  Header := []; ClientTimeout := "30s" |} in
    match Do w req with
    | (RequestError e, w) => (Some (Wrap "failed to create logout request" e), c, w)
    | (DoError e, w) => (Some (Wrap "logout request failed" e), c, w)
    | (Got _, w) => (None, set_loggedIn c false, w)
    end.
End Client.

(** What a call leaves of the session: the client afterwards has the
    configuration of the client [c] the call is made on; it is [c] itself
    when [c] is logged in; and it is logged in when the call succeeds. *)
Definition keeps_session {A Net : Type} (ok : A → bool) (c : Client)
    (out : A * Client * Net) : Prop :=
  cfg out.1.2 = cfg c
  ∧ (loggedIn c = true → out.1.2 = c)
  ∧ (ok out.1.1 = true → loggedIn out.1.2 = true).

Definition is_nil (err : option error) : bool :=
  match err with None => true | Some _ => false end.

End unifi.

(** ** Package [sync]: the orchestrator *)

Module sync.
Import net.

(** The [HealthRecorder] interface. *)
Class HealthRecorder (H : Type) := {
  RecordSync : H → H;
  RecordError : H → H
}.

(** [HealthServer] of package [http] implements it; the time of the last
    sync is left out.  The two counters are [atomic.Int64]s, whose [Add]
    wraps around at 64 bits. *)
Record HealthServer := {
  ready : bool;
  syncCount : Z;
  errorCount : Z
}.

Definition int64_add (x delta : Z) : Z := (x + delta + 2 ^ 63) mod 2 ^ 64 - 2 ^ 63.

#[global] Instance HealthServer_recorder : HealthRecorder HealthServer := {|
  RecordSync hs :=
    {| ready := true; syncCount := int64_add (syncCount hs) 1; errorCount := errorCount hs |};
  RecordError hs :=
    {| ready := ready hs; syncCount := syncCount hs;
       errorCount := int64_add (errorCount hs) 1 |}
|}.

(** The calls [Run] makes on its collaborators, in order. *)
Inductive Call :=
  | GetGroup (name : string)
  | CreateGroup (name : string) (members : list string)
  | UpdateGroup (id : string) (members : list string)
  | RecordSyncCall.

#[global] Instance Call_eq_dec : EqDecision Call.
Proof. solve_decision. Defined.

Definition is_remote (c : Call) : bool :=
  match c with RecordSyncCall => false | _ => true end.

Definition is_write (c : Call) : bool :=
  match c with CreateGroup _ _ | UpdateGroup _ _ => true | _ => false end.

(** [Syncer.calculateHash] does not read the receiver. *)
Definition combine (strs : list string) : string :=
  foldl (λ combined str, combined +:+ str +:+ String "010" "") "" strs.

Definition calculateHash (networks : list IPNet) : string :=
  let strs := sort.Strings (normalizer.ToStrings networks) in
  hex.EncodeToString (sha256.Sum256 (bytes_of_string (combine strs))).

Section Syncer.
Context {Net : Type} (Do : Net → http.Request → http.Outcome * Net).
Context {H : Type} `{!HealthRecorder H}.
Context (registry : gmap string (@parser.Parser Net)).

Record Syncer := {
  config : config.Config;
  unifiClient : unifi.Client;
  lastHash : string;
  healthRecorder : option H
}.

(** [New] *)
Definition New (cfg : config.Config) (unifiClient : unifi.Client) : Syncer :=
  {| config := cfg; unifiClient := unifiClient; lastHash := ""; healthRecorder := None |}.

(** [SetHealthRecorder] *)
Definition SetHealthRecorder (s : Syncer) (hr : H) : Syncer :=
  {| config := config s; unifiClient := unifiClient s; lastHash := lastHash s;
     healthRecorder := Some hr |}.

(** One turn of the loop of [fetchAllFeeds]. *)
Definition fetch_feed (acc : list IPNet * Net) (feedConfig : config.FeedConfig)
    : list IPNet * Net :=
  let '(allNetworks, w) := acc in
  match parser.Get registry (config.Parser feedConfig) with
  | Err _ => (allNetworks, w)
  | Ok p =>
      match parser.Parse p w feedConfig with
      | (Err _, w) => (allNetworks, w)
      | (Ok networks, w) => (allNetworks ++ networks, w)
      end
  end.

(** [Syncer.fetchAllFeeds] *)
Definition fetchAllFeeds (s : Syncer) (w : Net) : list IPNet * option error * Net :=
  let enabledFeeds := config.GetEnabled (config.Feeds (config s)) in
  let '(allNetworks, w) := foldl fetch_feed ([], w) enabledFeeds in
  (allNetworks, None, w).

Definition with_client (s : Syncer) (c : unifi.Client) : Syncer :=
  {| config := config s; unifiClient := c; lastHash := lastHash s;
     healthRecorder := healthRecorder s |}.

(** The end of a successful [Run]: the hash is stored and the recorder,
    when there is one, is told. *)
Definition finish (s : Syncer) (currentHash : string) : Syncer * list Call :=
  ({| config := config s; unifiClient := unifiClient s; lastHash := currentHash;
      healthRecorder := RecordSync <$> healthRecorder s |},
   match healthRecorder s with Some _ => [RecordSyncCall] | None => [] end).

(** What a call of [Run] leaves behind: the error returned ([None] for
    nil), the syncer and the world afterwards, and the calls made on the
    controller client and the health recorder, in order. *)
Record Cycle := {
  returned : option error;
  after : Syncer;
  world : Net;
  calls : list Call
}.

(** [Syncer.Run] *)
Definition Run (s : Syncer) (w : Net) : Cycle :=
  let '(allNetworks, err, w) := fetchAllFeeds s w in
  match err with
  | Some err =>
      {| returned := Some (Wrap "failed to fetch feeds" err); after := s; world := w;
         calls := [] |}
  | None =>
      let normalized := normalizer.Normalize allNetworks in
      let currentHash := calculateHash normalized in
      if String.eqb currentHash (lastHash s)
      then {| returned := None; after := s; world := w; calls := [] |}
      else
        let members := normalizer.ToStrings normalized in
        let name := config.GroupName (config.UniFi (config s)) in
        match unifi.GetFirewallGroup Do (unifiClient s) w name with
        | (Err _, c, w) =>
            match unifi.CreateFirewallGroup Do c w name members with
            | (Err err, c, w) =>
                {| returned := Some (Wrap "failed to create firewall group" err);
                   after := with_client s c; world := w;
                   calls := [GetGroup name; CreateGroup name members] |}
            | (Ok _, c, w) =>
                let '(s', recorded) := finish (with_client s c) currentHash in
                {| returned := None; after := s'; world := w;
                   calls := [GetGroup name; CreateGroup name members] ++ recorded |}
            end
        | (Ok group, c, w) =>
            match unifi.UpdateFirewallGroup Do c w (http.ID group) members with
            | (Some err, c, w) =>
                {| returned := Some (Wrap "failed to update firewall group" err);
                   after := with_client s c; world := w;
                   calls := [GetGroup name; UpdateGroup (http.ID group) members] |}
            | (None, c, w) =>
                let '(s', recorded) := finish (with_client s c) currentHash in
                {| returned := None; after := s'; world := w;
                   calls := [GetGroup name; UpdateGroup (http.ID group) members] ++ recorded |}
            end
        end
  end.

(** The entries a cycle fetches, their fingerprint and the members it would
    send. *)
Definition fetched (s : Syncer) (w : Net) : list IPNet := (fetchAllFeeds s w).1.1.
Definition fingerprint (s : Syncer) (w : Net) : string :=
  calculateHash (normalizer.Normalize (fetched s w)).
Definition members_of (s : Syncer) (w : Net) : list string :=
  normalizer.ToStrings (normalizer.Normalize (fetched s w)).
Definition group_name (s : Syncer) : string := config.GroupName (config.UniFi (config s)).

(** Every feed of the list fails, by an unknown parser or by an error of its
    parser, when they are fetched in order from the world [w]. *)
Fixpoint all_feeds_fail (feeds : list config.FeedConfig) (w : Net) : Prop :=
  match feeds with
  | [] => True
  | feedConfig :: feeds =>
      match parser.Get registry (config.Parser feedConfig) with
      | Err _ => all_feeds_fail feeds w
      | Ok p =>
          match parser.Parse p w feedConfig with
          | (Err _, w) => all_feeds_fail feeds w
          | (Ok _, _) => False
          end
      end
  end.
(** The shapes a cycle can take: it ends at the decision; it reconciles the
    group; or the create or update fails. *)
Inductive Run_shape (s : Syncer) (w : Net) (r : Cycle) : Prop :=
  | shape_unchanged :
      fingerprint s w = lastHash s →
      returned r = None → after r = s → calls r = [] →
      Run_shape s w r
  | shape_synced (write : Call) :
      fingerprint s w ≠ lastHash s →
      (write = CreateGroup (group_name s) (members_of s w)
       ∨ ∃ id, write = UpdateGroup id (members_of s w)) →
      returned r = None →
      lastHash (after r) = fingerprint s w →
      config (after r) = config s →
      healthRecorder (after r) = RecordSync <$> healthRecorder s →
      calls r = [GetGroup (group_name s); write]
                ++ match healthRecorder s with Some _ => [RecordSyncCall] | None => [] end →
      Run_shape s w r
  | shape_failed (write : Call) (cause : error) :
      fingerprint s w ≠ lastHash s →
      (write = CreateGroup (group_name s) (members_of s w)
         ∧ returned r = Some (Wrap "failed to create firewall group" cause)
       ∨ ∃ id, write = UpdateGroup id (members_of s w)
         ∧ returned r = Some (Wrap "failed to update firewall group" cause)) →
      lastHash (after r) = lastHash s →
      config (after r) = config s →
      healthRecorder (after r) = healthRecorder s →
      calls r = [GetGroup (group_name s); write] →
      Run_shape s w r.

(** The cycle makes exactly one call among [CreateFirewallGroup] and
    [UpdateFirewallGroup], with the canonical strings of the normalized
    entries it fetched as members, and these are strictly increasing. *)
Definition one_write_with_members (s : Syncer) (w : Net) : Prop :=
  let members := normalizer.ToStrings (normalizer.Normalize (fetched s w)) in
  ∃ write,
    filter (λ c, is_write c = true) (calls (Run s w)) = [write]
    ∧ (write = CreateGroup (group_name s) members ∨ ∃ id, write = UpdateGroup id members)
    ∧ StronglySorted strorder.lt members.

End Syncer.

Arguments Syncer H : clear implicits.
Arguments Cycle Net H : clear implicits.

End sync.

(** ** A world that keeps the requests *)

(** Any world, together with the requests sent to it so far, oldest first. *)
Module recorded.
Import http.

Section recorded.
Context {Net : Type} (send : Net → Request → Outcome * Net).

Definition Do (w : Net * list Request) (req : Request) : Outcome * (Net * list Request) :=
  let '(o, w') := send w.1 req in (o, (w', w.2 ++ [req])).
End recorded.

(** The requests of the parsers and of the controller client. *)
Definition feed_request (feedConfig : config.FeedConfig) : Request :=
  {| Method := "GET"; URL := config.FeedURL feedConfig; Body := NoBody;
     Header := [("User-Agent", "UniFi-Threat-Sync/1.0")];
     ClientTimeout := config.Timeout feedConfig |}.

Definition login_request (c : unifi.Client) : Request :=
  {| Method := "POST"; URL := unifi.baseURL c +:+ "/api/auth/login";
     Body := LoginBody (config.Username (unifi.cfg c)) (config.Password (unifi.cfg c)) true;
     Header := unifi.json_header; ClientTimeout := "30s" |}.

Definition logout_request (c : unifi.Client) : Request :=
  {| Method := "POST"; URL := unifi.baseURL c +:+ "/api/auth/logout"; Body := NoBody;
     Header := []; ClientTimeout := "30s" |}.

Definition is_login (req : Request) : bool :=
  match Body req with LoginBody _ _ _ => true | _ => false end.

Definition groups_request (c : unifi.Client) : Request :=
  {| Method := "GET"; URL := unifi.firewallgroup_url c; Body := NoBody; Header := [];
     ClientTimeout := "30s" |}.

Definition create_request (c : unifi.Client) (name : string) (members : list string)
    : Request :=
  {| Method := "POST"; URL := unifi.firewallgroup_url c;
     Body := GroupBody {| ID := ""; GroupName := name; GroupType := "address-group";
                          Members := members |};
     Header := unifi.json_header; ClientTimeout := "30s" |}.

Definition update_request (c : unifi.Client) (groupID : string) (members : list string)
    : Request :=
  {| Method := "PUT"; URL := unifi.firewallgroup_url c +:+ "/" +:+ groupID;
     Body := UpdateBody members; Header := unifi.json_header; ClientTimeout := "30s" |}.

(** Whether the controller answers a request with the status 200. *)
Definition answers_ok {Net : Type} (send : Net → Request → Outcome * Net) (w : Net)
    (req : Request) : bool :=
  match (send w req).1 with
  | Got resp => (StatusCode resp =? StatusOK)%Z
  | _ => false
  end.

End recorded.

(** ** Package [main] and the health server *)

Module main.
Import sync.

(** [NewHealthServer]: not ready, nothing counted. *)
Definition NewHealthServer : HealthServer :=
  {| ready := false; syncCount := 0; errorCount := 0 |}.

(** The status code with which [handleReady] answers. *)
Definition handleReady (hs : HealthServer) (method : string) : Z :=
  if negb (String.eqb method "GET") then 405
  else if negb (ready hs) then 503 else 200.

Section main.
Context {Net : Type} (Do : Net → http.Request → http.Outcome * Net).
Context (registry : gmap string (@parser.Parser Net)).

(** The syncer [main] makes: the health server, when it is enabled, is the
    recorder of the syncer. *)
Definition start (cfg : config.File) (unifiClient : unifi.Client) : Syncer HealthServer :=
  let syncer := New (config.Core cfg) unifiClient in
  if config.HealthEnabled (config.Health cfg)
  then SetHealthRecorder syncer NewHealthServer
  else syncer.

(** One sync of [main], the initial one or one of the ticker: [Run], and
    [RecordError] on the health server, if there is one, when [Run] returns
    an error. *)
Definition sync_once (s : Syncer HealthServer) (w : Net) : Syncer HealthServer * Net :=
  let r := Run Do registry s w in
  match returned r with
  | Some _ =>
      ({| config := config (after r); unifiClient := unifiClient (after r);
          lastHash := lastHash (after r);
          healthRecorder := RecordError <$> healthRecorder (after r) |}, world r)
  | None => (after r, world r)
  end.

(** The first [n] syncs of the loop. *)
Fixpoint syncs (n : nat) (s : Syncer HealthServer) (w : Net) : Syncer HealthServer * Net :=
  match n with
  | O => (s, w)
  | S n => let '(s, w) := sync_once s w in syncs n s w
  end.
End main.

(** What the syncs of [main] keep true of the syncer and of the health
    server that is its recorder, after at most [n] of them: the server is
    ready exactly when the syncer holds a fingerprint; and as long as [n]
    is below 2^63, so that no counter has wrapped around, the two counters
    count syncs and the server is ready exactly when a sync was recorded. *)
Definition health_invariant (n : nat) (s : Syncer HealthServer) : Prop :=
  ∃ hs,
    healthRecorder s = Some hs
    ∧ (ready hs = true ↔ lastHash s ≠ "")
    ∧ ((Z.of_nat n < 2 ^ 63)%Z →
       (0 ≤ syncCount hs ∧ 0 ≤ errorCount hs
        ∧ syncCount hs + errorCount hs ≤ Z.of_nat n)%Z
       ∧ (ready hs = true ↔ 0 < syncCount hs)%Z).

End main.

(** ** A scripted world *)

(** A world given by the outcomes of its round trips, in order; once they
    are used up, connections fail. *)
Module scenario.
Import http.

Definition Do (w : list Outcome) (req : Request) : Outcome * list Outcome :=
  match w with
  | [] => (DoError (New "connection refused"), [])
  | o :: w => (o, w)
  end.

Definition nl : string := String "010" "".

Definition text (status : Z) (body : string) : Outcome :=
  Got {| StatusCode := status;
         RespBody := {| bufio.content := body; bufio.read_error := false |};
         Data := None |}.

Definition json (status : Z) (data : list FirewallGroup) : Outcome :=
  Got {| StatusCode := status;
         RespBody := {| bufio.content := ""; bufio.read_error := false |};
         Data := Some data |}.

Definition cfg : config.Config :=
  {| config.UniFi :=
       {| config.URL := "https://unifi.example"; config.Site := "default";
          config.Username := "admin"; config.Password := "secret";
          config.GroupName := "uts-block-list"; config.Ruleset := "WAN_OUT";
          config.RuleIndex := 2000 |};
     config.Feeds :=
       [ {| config.Name := "blocklist"; config.FeedURL := "https://feeds.example/list.txt";
            config.Parser := "plain"; config.Enabled := true; config.Timeout := "30s" |} ] |}.

Definition registry : gmap string (@parser.Parser (list Outcome)) := parser.registry0 Do.

(** [main] logs the client in before it makes the syncer and sets the
    health server as its recorder. *)
Definition client : unifi.Client := {| unifi.cfg := config.UniFi cfg; unifi.loggedIn := true |}.

Definition health : sync.HealthServer :=
  {| sync.ready := false; sync.syncCount := 0; sync.errorCount := 0 |}.

Definition syncer : sync.Syncer sync.HealthServer :=
  sync.SetHealthRecorder (sync.New cfg client) health.

Definition group (members : list string) : FirewallGroup :=
  {| ID := "64f0"; GroupName := "uts-block-list"; GroupType := "address-group";
     Members := members |}.

Definition feedA : string := "10.0.0.0/8" +:+ nl +:+ "192.168.1.1" +:+ nl.
Definition feedB : string := "203.0.113.5" +:+ nl.

Abbreviation Run := (sync.Run (H := sync.HealthServer) Do registry).

(** A first cycle: the feed is fetched, the controller has no group of the
    name, the group is created; and the syncer after it. *)
Definition first_cycle : list Outcome :=
  [text 200 feedA; json 200 []; json 201 [group ["10.0.0.0/8"; "192.168.1.1/32"]]].
Definition synced : sync.Syncer sync.HealthServer := sync.after (Run syncer first_cycle).

(** The same entries as [feedA], in another order, with a comment and a
    repetition. *)
Definition feedA' : string :=
  "# updated" +:+ nl +:+ "192.168.1.1/32" +:+ nl +:+ "10.0.0.0/8" +:+ nl +:+ " 10.0.0.0/8" +:+ nl.

(** Cycles after it: the same entries; other entries and an update that
    works; other entries and an update that fails; a feed that fails. *)
Definition same_entries : list Outcome := [text 200 feedA'].
Definition changed_entries : list Outcome :=
  [text 200 feedB; json 200 [group ["10.0.0.0/8"; "192.168.1.1/32"]]; text 200 "{}"].
Definition failing_update : list Outcome :=
  [text 200 feedB; json 200 [group ["10.0.0.0/8"; "192.168.1.1/32"]]; text 502 "Bad Gateway"].

(** The syncer after the cycle in which the update fails. *)
Definition failed : sync.Syncer sync.HealthServer := sync.after (Run synced failing_update).

Definition failing_feed : list Outcome :=
  [text 503 "Service Unavailable"; json 200 [group ["10.0.0.0/8"; "192.168.1.1/32"]];
   text 200 "{}"].

(** A cycle in which the controller answers the request for the groups with
    a status 500 and then accepts the creation of a group. *)
Definition failing_read : list Outcome :=
  [text 200 feedA; text 500 "Internal Server Error";
   json 201 [group ["10.0.0.0/8"; "192.168.1.1/32"]]].

End scenario.

(** * Properties *)

(** ** Go's order on strings is a strict total order *)

Module strorder_facts.
Import strorder.

Lemma ascii_compare_refl (c : ascii) : Ascii.compare c c = Eq.
Proof. unfold Ascii.compare. apply N.compare_refl. Qed.

Lemma compare_refl (s : string) : String.compare s s = Eq.
Proof. induction s as [|c s IH]; simpl; [done|]. by rewrite ascii_compare_refl. Qed.

Lemma ascii_compare_eq (c d : ascii) : Ascii.compare c d = Eq → c = d.
Proof.
  unfold Ascii.compare. intros H%N.compare_eq.
  rewrite <- (ascii_N_embedding c), <- (ascii_N_embedding d). by rewrite H.
Qed.

Lemma ascii_compare_lt_trans (c d e : ascii) :
  Ascii.compare c d = Lt → Ascii.compare d e = Lt → Ascii.compare c e = Lt.
Proof. unfold Ascii.compare. rewrite !N.compare_lt_iff. lia. Qed.

Lemma compare_lt_trans (s t u : string) :
  String.compare s t = Lt → String.compare t u = Lt → String.compare s u = Lt.
Proof.
  revert t u. induction s as [|c s IH]; intros [|d t] [|e u]; simpl; try done.
  destruct (Ascii.compare c d) eqn:Hcd; try done;
    destruct (Ascii.compare d e) eqn:Hde; try done; intros H1 H2.
  - apply ascii_compare_eq in Hcd as ->. apply ascii_compare_eq in Hde as ->.
    rewrite ascii_compare_refl. eauto.
  - apply ascii_compare_eq in Hcd as ->. by rewrite Hde.
  - apply ascii_compare_eq in Hde as <-. by rewrite Hcd.
  - by rewrite (ascii_compare_lt_trans c d e).
Qed.

Lemma ltb_lt (s t : string) : String.ltb s t = true ↔ String.compare s t = Lt.
Proof. unfold String.ltb. destruct (String.compare s t); naive_solver. Qed.

Lemma lt_irrefl (s : string) : ¬ lt s s.
Proof. unfold lt. rewrite ltb_lt, compare_refl. done. Qed.

Lemma lt_trans (s t u : string) : lt s t → lt t u → lt s u.
Proof. unfold lt. rewrite !ltb_lt. apply compare_lt_trans. Qed.

Lemma lt_asym (s t : string) : lt s t → lt t s → False.
Proof. intros H1 H2. exact (lt_irrefl s (lt_trans _ _ _ H1 H2)). Qed.

Lemma lt_le (s t : string) : lt s t → le s t.
Proof.
  intros H. unfold le. destruct (String.ltb t s) eqn:E; [|done].
  destruct (lt_asym s t H E).
Qed.

Lemma le_cases (s t : string) : le s t → lt s t ∨ s = t.
Proof.
  unfold le, lt. rewrite ltb_lt. unfold String.ltb.
  rewrite String.compare_antisym.
  destruct (String.compare s t) eqn:E; simpl; try done; intros _.
  - right. by apply String.compare_eq_iff.
  - by left.
Qed.

Lemma le_refl (s : string) : le s s.
Proof. unfold le. destruct (String.ltb s s) eqn:E; [|done]. destruct (lt_irrefl s E). Qed.

Lemma le_trans (s t u : string) : le s t → le t u → le s u.
Proof.
  intros [H1| ->]%le_cases [H2| ->]%le_cases;
    eauto using lt_le, lt_trans, le_refl.
Qed.

Lemma le_total (s t : string) : le s t ∨ le t s.
Proof.
  unfold le. destruct (String.ltb t s) eqn:E; [|by left].
  right. apply (lt_le t s E).
Qed.

Lemma le_antisym (s t : string) : le s t → le t s → s = t.
Proof.
  intros [H1| ->]%le_cases H2; [|done].
  unfold le in H2. unfold lt in H1. congruence.
Qed.

End strorder_facts.

(** ** The digest on known inputs *)

Example sha256_abc :
  hex.EncodeToString (sha256.Sum256 (bytes_of_string "abc"))
  = "ba7816bf8f01cfea414140de5dae2223b00361a396177a9cb410ff61f20015ad".
Proof. vm_compute. reflexivity. Qed.

Example sha256_two_blocks :
  hex.EncodeToString (sha256.Sum256 (replicate 70 97%N))
  = "6bd5e5034855a11241f0dee8fc72850ffd9955b28347a86428b5fa19119f6ad0".
Proof. vm_compute. reflexivity. Qed.


(** ** The model of package [net] on known inputs *)

Example IPNet_String_v4 :
  net.IPNet_String {| net.IP := [10; 1; 0; 0]%N; net.Mask := net.CIDRMask 16 32 |}
  = "10.1.0.0/16".
Proof. vm_compute. reflexivity. Qed.

Example IP_String_v6_compressed :
  net.IP_String (net.ParseIP "2001:DB8::1") = "2001:db8::1"
  ∧ net.IP_String (net.ParseIP "1:0:0:2:0:0:0:3") = "1:0:0:2::3"
  ∧ net.IP_String (net.ParseIP "::ffff:1.2.3.4") = "1.2.3.4".
Proof. vm_compute. repeat split. Qed.

Example ParseCIDR_clears_host_bits :
  parser.canonical_of "fe80::1234/10" = Some "fe80::/10"
  ∧ parser.canonical_of "10.1.2.3/8" = Some "10.0.0.0/8"
  ∧ parser.canonical_of "::ffff:1.2.3.4/96" = Some "0.0.0.0/0".
Proof. vm_compute. repeat split. Qed.

Example ParseIP_rejects :
  net.ParseIP "010.0.0.1" = [] ∧ net.ParseIP "1.2.3" = [] ∧ net.ParseIP "1.2.3.4.5" = []
  ∧ net.ParseIP "1.2.3.256" = [] ∧ net.ParseIP "1::2::3" = []
  ∧ net.ParseIP "fe80::1%eth0" = [] ∧ net.ParseIP "1:2:3:4:5:6:7:8:9" = []
  ∧ parser.canonical_of "10.0.0.0/33" = None.
Proof. vm_compute. repeat split. Qed.

(** ** Sorting by a string key *)

Section sort_facts.
Context {A : Type} (key : A → string).
Local Abbreviation less_key := (sort.less_key key).
Local Abbreviation ordered := (sort.ordered key).

#[local] Instance ordered_total : Total ordered.
Proof. intros a b. apply (strorder_facts.le_total (key a) (key b)). Qed.

#[local] Instance ordered_trans : Transitive ordered.
Proof. intros a b c. apply (strorder_facts.le_trans (key a) (key b) (key c)). Qed.

Lemma Slice_Permutation (x : list A) : sort.Slice less_key x ≡ₚ x.
Proof. apply merge_sort_Permutation. Qed.

Lemma Slice_ordered (x : list A) : StronglySorted ordered (sort.Slice less_key x).
Proof. apply (StronglySorted_merge_sort ordered). Qed.

(** An ordered list without two equal keys has strictly increasing keys. *)
Lemma ordered_NoDup_strict (x : list A) :
  StronglySorted ordered x → NoDup (key <$> x) →
  StronglySorted strorder.lt (key <$> x).
Proof.
  induction 1 as [|a x Hx IH Ha]; csimpl; [constructor|].
  rewrite NoDup_cons. intros [Hnotin Hnd]. constructor; [auto|].
  rewrite Forall_fmap. rewrite Forall_forall in Ha |- *. intros b Hb.
  destruct (strorder_facts.le_cases _ _ (Ha b Hb)) as [?|Heq]; [done|].
  destruct Hnotin. rewrite Heq. apply list_elem_of_fmap. eauto.
Qed.

Lemma Slice_strict (x : list A) :
  NoDup (key <$> x) → StronglySorted strorder.lt (key <$> sort.Slice less_key x).
Proof.
  intros Hnd. apply ordered_NoDup_strict; [apply Slice_ordered|].
  by rewrite Slice_Permutation.
Qed.

(** When no two elements have the same key, the ordered rearrangement of a
    list is unique: any sort, started from any order of the elements,
    ends with the list [sort.Slice] stands for. *)
Lemma Slice_unique (x y : list A) :
  NoDup (key <$> x) → y ≡ₚ x → StronglySorted ordered y →
  y = sort.Slice less_key x.
Proof.
  intros Hnd Hperm Hy.
  apply (StronglySorted_unique_strong ordered); [|done|apply Slice_ordered|].
  - intros a b Ha Hb Hab Hba.
    assert (key a = key b) as Hk by (by apply strorder_facts.le_antisym).
    rewrite Hperm in Ha. rewrite Slice_Permutation in Hb.
    apply list_elem_of_lookup in Ha as [i Hi]. apply list_elem_of_lookup in Hb as [j Hj].
    assert (i = j) as ->.
    { apply (NoDup_lookup (key <$> x) i j (key a)); [done|..];
        rewrite list_lookup_fmap; [by rewrite Hi|by rewrite Hj, Hk]. }
    congruence.
  - by rewrite Hperm, Slice_Permutation.
Qed.
End sort_facts.

Lemma StronglySorted_lookup_lt {A} (R : relation A) (l : list A) i j a b :
  StronglySorted R l → (i < j)%nat → l !! i = Some a → l !! j = Some b → R a b.
Proof.
  intros Hl. revert i j. induction Hl as [|x l Hl IH Hx]; intros i j Hij Ha Hb; [done|].
  destruct j as [|j]; [lia|]. simpl in Hb. destruct i as [|i]; simpl in Ha.
  - injection Ha as ->. rewrite Forall_forall in Hx.
    apply Hx. by eapply list_elem_of_lookup_2.
  - apply (IH i j); [lia|done..].
Qed.

(** Strictly increasing lists of strings with the same elements are equal. *)
Lemma strict_sorted_eq (l k : list string) :
  StronglySorted strorder.lt l → StronglySorted strorder.lt k →
  (∀ s, s ∈ l ↔ s ∈ k) → l = k.
Proof.
  intros Hl Hk Hiff.
  assert (∀ l, StronglySorted strorder.lt l → NoDup l) as Hnd.
  { induction 1 as [|a x Hx IH Ha]; constructor; [|done].
    intros Hin. rewrite Forall_forall in Ha. exact (strorder_facts.lt_irrefl a (Ha a Hin)). }
  apply (StronglySorted_unique_strong strorder.lt); [|done|done|].
  - intros a b _ _ Hab Hba. destruct (strorder_facts.lt_asym a b Hab Hba).
  - apply NoDup_Permutation; auto.
Qed.

(** [sort.Strings] leaves a strictly increasing list as it is. *)
Lemma Strings_sorted_id (l : list string) :
  StronglySorted strorder.lt l → sort.Strings l = l.
Proof.
  intros Hl. symmetry. apply strict_sorted_eq; [done| |].
  - unfold sort.Strings. rewrite <- (list_fmap_id (sort.Slice _ _)).
    apply (Slice_strict id). rewrite list_fmap_id.
    clear -Hl. induction Hl as [|a x Hx IH Ha]; constructor; [|done].
    intros Hin. rewrite Forall_forall in Ha. exact (strorder_facts.lt_irrefl a (Ha a Hin)).
  - intros s. unfold sort.Strings. by rewrite (Slice_Permutation id).
Qed.

(** Two lists of strings with the same elements, however ordered and
    repeated, are not told apart once sorted when they are rearrangements of
    each other. *)
Lemma Strings_Permutation (l k : list string) :
  l ≡ₚ k → sort.Strings l = sort.Strings k.
Proof.
  intros Hperm. unfold sort.Strings.
  apply (StronglySorted_unique_strong (sort.ordered id)).
  - intros a b _ _ Hab Hba. by apply strorder_facts.le_antisym.
  - apply (Slice_ordered id).
  - apply (Slice_ordered id).
  - by rewrite !(Slice_Permutation id).
Qed.

(** ** The normalizer *)

Section normalizer_facts.
Import net normalizer.

Lemma seen_of_foldl (networks : list IPNet) (seen : gmap string IPNet) k v :
  foldl (λ seen network, <[IPNet_String network := network]> seen) seen networks !! k = Some v →
  (IPNet_String v = k ∧ v ∈ networks) ∨ seen !! k = Some v.
Proof.
  revert seen. induction networks as [|n networks IH]; intros seen; simpl; [auto|].
  intros [[? ?]|Hk]%IH; [left; split; [done|by right]|].
  destruct (decide (IPNet_String n = k)) as [<-|Hne].
  - rewrite lookup_insert_eq in Hk. injection Hk as <-. left. split; [done|by left].
  - rewrite lookup_insert_ne in Hk by done. by right.
Qed.

Lemma seen_of_lookup (networks : list IPNet) k v :
  seen_of networks !! k = Some v → IPNet_String v = k ∧ v ∈ networks.
Proof. intros [?|Hk]%seen_of_foldl; [done|]. by rewrite lookup_empty in Hk. Qed.

Lemma seen_of_foldl_key (networks : list IPNet) (seen : gmap string IPNet) k :
  is_Some (foldl (λ seen network, <[IPNet_String network := network]> seen) seen networks !! k)
  ↔ k ∈ ToStrings networks ∨ is_Some (seen !! k).
Proof.
  revert seen. induction networks as [|n networks IH]; intros seen; simpl.
  - split; [auto|]. intros [Hk|?]; [|done]. by apply elem_of_nil in Hk.
  - rewrite IH. unfold ToStrings. csimpl. rewrite elem_of_cons.
    destruct (decide (IPNet_String n = k)) as [<-|Hne].
    + rewrite lookup_insert_eq. split; [auto|]. intros _. right. by eexists.
    + rewrite lookup_insert_ne by done.
      split; [intros [?|?]; auto|]. intros [[?|?]|?]; auto. congruence.
Qed.

Lemma seen_of_key (networks : list IPNet) k :
  is_Some (seen_of networks !! k) ↔ k ∈ ToStrings networks.
Proof.
  unfold seen_of. rewrite seen_of_foldl_key, lookup_empty.
  split; [intros [?|[? ?]]; done|auto].
Qed.

(** The values of the map carry their keys. *)
Lemma seen_of_values_keys (networks : list IPNet) :
  ToStrings (map_to_list (seen_of networks)).*2 = (map_to_list (seen_of networks)).*1.
Proof.
  unfold ToStrings. rewrite <- list_fmap_compose.
  apply list_fmap_ext. intros i [k v] Hi. simpl.
  apply list_elem_of_lookup_2, elem_of_map_to_list in Hi.
  by apply seen_of_lookup in Hi as [? _].
Qed.

Lemma seen_of_values_NoDup (networks : list IPNet) :
  NoDup (IPNet_String <$> (map_to_list (seen_of networks)).*2).
Proof.
  fold (ToStrings (map_to_list (seen_of networks)).*2).
  rewrite seen_of_values_keys. apply NoDup_fst_map_to_list.
Qed.

Lemma Normalize_nil : Normalize [] = [].
Proof. reflexivity. Qed.

Lemma Normalize_cons n networks :
  Normalize (n :: networks)
  = sort.Slice (sort.less_key IPNet_String) (map_to_list (seen_of (n :: networks))).*2.
Proof. reflexivity. Qed.

(** The canonical strings of the output are strictly increasing. *)
Lemma ToStrings_Normalize_strict (networks : list IPNet) :
  StronglySorted strorder.lt (ToStrings (Normalize networks)).
Proof.
  destruct networks as [|n networks]; [constructor|].
  rewrite Normalize_cons. apply (Slice_strict IPNet_String), seen_of_values_NoDup.
Qed.

(** The canonical strings of the output are those of the input. *)
Lemma ToStrings_Normalize_elem (networks : list IPNet) s :
  s ∈ ToStrings (Normalize networks) ↔ s ∈ ToStrings networks.
Proof.
  destruct networks as [|n networks]; [done|].
  rewrite Normalize_cons. unfold ToStrings at 1.
  rewrite (Slice_Permutation IPNet_String).
  fold (ToStrings (map_to_list (seen_of (n :: networks))).*2).
  rewrite seen_of_values_keys, <- seen_of_key.
  rewrite list_elem_of_fmap. split.
  - intros [[k v] [-> Hkv]]. apply elem_of_map_to_list in Hkv. by exists v.
  - intros [v Hv]. exists (s, v). split; [done|]. by apply elem_of_map_to_list.
Qed.

(** The entries of the output are entries of the input. *)
Lemma Normalize_elem (networks : list IPNet) n :
  n ∈ Normalize networks → n ∈ networks.
Proof.
  destruct networks as [|n0 networks]; [done|].
  rewrite Normalize_cons, (Slice_Permutation IPNet_String).
  intros [[k v] [-> Hkv]]%list_elem_of_fmap. apply elem_of_map_to_list in Hkv.
  by apply seen_of_lookup in Hkv as [_ ?].
Qed.

(** Go ranges over the map [seen] in an order that is not specified, and
    [sort.Slice] is some sort: whatever the order [result] of the values
    and whatever ordered rearrangement [out] of it the sort produces,
    [out] is the list [Normalize] computes. *)
Lemma Normalize_any_order (networks result out : list IPNet) :
  networks ≠ [] →
  result ≡ₚ (map_to_list (seen_of networks)).*2 →
  out ≡ₚ result →
  StronglySorted (sort.ordered IPNet_String) out →
  out = Normalize networks.
Proof.
  intros Hne Hres Hout Hsorted. destruct networks as [|n networks]; [done|].
  rewrite Normalize_cons. apply (Slice_unique IPNet_String); [|by rewrite Hout|done].
  apply seen_of_values_NoDup.
Qed.

(** The canonical strings of the output depend on the set of canonical
    strings of the input only. *)
Lemma ToStrings_Normalize_ext (x y : list IPNet) :
  (∀ s, s ∈ ToStrings x ↔ s ∈ ToStrings y) →
  ToStrings (Normalize x) = ToStrings (Normalize y).
Proof.
  intros Hxy. apply strict_sorted_eq; try apply ToStrings_Normalize_strict.
  intros s. by rewrite !ToStrings_Normalize_elem.
Qed.

Lemma ToStrings_Normalize_Permutation (x y : list IPNet) :
  x ≡ₚ y → ToStrings (Normalize x) = ToStrings (Normalize y).
Proof.
  intros Hxy. apply ToStrings_Normalize_ext. intros s.
  unfold ToStrings. by rewrite Hxy.
Qed.
End normalizer_facts.

(** C8. For every finite sequence of network entries the output of
    [Normalize] has no two entries, at different positions, with the same
    canonical string; its canonical strings are strictly increasing from
    left to right (so it is sorted ascending by canonical string); and the
    empty input gives the empty output ([Normalize] has no error result). *)
Theorem Normalize_dedup_sorted (networks : list net.IPNet) :
  (∀ i j a b,
     normalizer.Normalize networks !! i = Some a →
     normalizer.Normalize networks !! j = Some b →
     net.IPNet_String a = net.IPNet_String b → i = j)
  ∧ (∀ i j a b,
       (i < j)%nat →
       normalizer.Normalize networks !! i = Some a →
       normalizer.Normalize networks !! j = Some b →
       String.ltb (net.IPNet_String a) (net.IPNet_String b) = true)
  ∧ Sorted strorder.le (normalizer.ToStrings (normalizer.Normalize networks))
  ∧ normalizer.Normalize [] = [].
Proof.
  pose proof (ToStrings_Normalize_strict networks) as Hstrict.
  assert (∀ i j a b, (i < j)%nat →
            normalizer.Normalize networks !! i = Some a →
            normalizer.Normalize networks !! j = Some b →
            strorder.lt (net.IPNet_String a) (net.IPNet_String b)) as Hlt.
  { intros i j a b Hij Ha Hb.
    apply (StronglySorted_lookup_lt strorder.lt _ i j _ _ Hstrict Hij).
    - unfold normalizer.ToStrings. by rewrite list_lookup_fmap, Ha.
    - unfold normalizer.ToStrings. by rewrite list_lookup_fmap, Hb. }
  split; [|split; [|split]].
  - intros i j a b Ha Hb Heq.
    destruct (Nat.lt_trichotomy i j) as [Hij|[?|Hji]]; [|done|].
    + pose proof (Hlt i j a b Hij Ha Hb) as H. rewrite Heq in H.
      destruct (strorder_facts.lt_irrefl _ H).
    + pose proof (Hlt j i b a Hji Hb Ha) as H. rewrite Heq in H.
      destruct (strorder_facts.lt_irrefl _ H).
  - exact Hlt.
  - apply StronglySorted_Sorted.
    eapply StronglySorted_fmap with (f := id) in Hstrict.
    + by rewrite list_fmap_id in Hstrict.
    + intros x y. apply strorder_facts.lt_le.
  - reflexivity.
Qed.

(** ** The sync cycle *)

Section Run_facts.
Import sync.
Context {Net : Type} (Do : Net → http.Request → http.Outcome * Net).
Context {H : Type} `{!HealthRecorder H}.
Context (registry : gmap string (@parser.Parser Net)).

Local Abbreviation Run := (sync.Run Do registry).
Local Abbreviation fetchAllFeeds := (sync.fetchAllFeeds registry (H := H)).
Local Abbreviation fetched := (sync.fetched registry (H := H)).
Local Abbreviation fingerprint := (sync.fingerprint registry (H := H)).
Local Abbreviation members_of := (sync.members_of registry (H := H)).
Local Abbreviation one_write_with_members := (sync.one_write_with_members Do registry).
Local Abbreviation Run_shape := (sync.Run_shape registry).

Lemma fetchAllFeeds_nil_error (s : Syncer H) (w : Net) : (fetchAllFeeds s w).1.2 = None.
Proof. unfold sync.fetchAllFeeds. by destruct (foldl _ _ _). Qed.

Lemma fetchAllFeeds_eq (s : Syncer H) (w : Net) :
  fetchAllFeeds s w = (fetched s w, None, (fetchAllFeeds s w).2).
Proof. unfold sync.fetched, sync.fetchAllFeeds. by destruct (foldl _ _ _). Qed.

(** The fetch stage reads the configuration of the syncer only. *)
Lemma fetched_config (s s' : Syncer H) (w : Net) :
  config s' = config s → fetched s' w = fetched s w.
Proof. unfold sync.fetched, sync.fetchAllFeeds. by intros ->. Qed.

Lemma foldl_fetch_feed_fail (feeds : list config.FeedConfig) (acc : list net.IPNet) (w : Net) :
  all_feeds_fail registry feeds w →
  (foldl (fetch_feed registry) (acc, w) feeds).1 = acc.
Proof.
  revert w. induction feeds as [|f feeds IH]; intros w; simpl; [done|].
  destruct (parser.Get registry (config.Parser f)) as [p|e]; [|by apply IH].
  destruct (parser.Parse p w f) as [[networks|e] w']; [done|by apply IH].
Qed.

Lemma fetched_all_fail (s : Syncer H) (w : Net) :
  all_feeds_fail registry (config.GetEnabled (config.Feeds (config s))) w →
  fetched s w = [].
Proof.
  intros Hfail. unfold sync.fetched, sync.fetchAllFeeds.
  pose proof (foldl_fetch_feed_fail _ [] w Hfail) as Hfold.
  by destruct (foldl _ _ _).
Qed.

(** The fingerprint is a function of the canonical strings. *)
Lemma calculateHash_ToStrings (a b : list net.IPNet) :
  normalizer.ToStrings a = normalizer.ToStrings b → calculateHash a = calculateHash b.
Proof. unfold calculateHash. by intros ->. Qed.

Lemma Run_shape_holds (s : Syncer H) (w : Net) : Run_shape s w (Run s w).
Proof.
  unfold sync.Run. rewrite fetchAllFeeds_eq.
  fold (fingerprint s w). fold (members_of s w). fold (group_name s).
  destruct (String.eqb_spec (fingerprint s w) (lastHash s)) as [Heq|Hne].
  { by apply sync.shape_unchanged. }
  destruct (unifi.GetFirewallGroup _ _ _ _) as [[[group|e] c] w1].
  - destruct (unifi.UpdateFirewallGroup _ _ _ _ _) as [[[e|] c'] w2].
    + apply (sync.shape_failed _ _ _ _ (UpdateGroup (http.ID group) (members_of s w)) e);
        [done|right; by eexists|done..].
    + apply (sync.shape_synced _ _ _ _ (UpdateGroup (http.ID group) (members_of s w)));
        [done|right; by eexists|simpl..]; try done.
      all: by destruct (healthRecorder s).
  - destruct (unifi.CreateFirewallGroup _ _ _ _ _) as [[[group|e'] c'] w2].
    + apply (sync.shape_synced _ _ _ _ (CreateGroup (group_name s) (members_of s w)));
        [done|by left|simpl..]; try done.
      all: by destruct (healthRecorder s).
    + apply (sync.shape_failed _ _ _ _ (CreateGroup (group_name s) (members_of s w)) e');
        [done|by left|done..].
Qed.

(** After a cycle without error the stored hash is the fingerprint of what
    was fetched. *)
Lemma Run_ok_lastHash (s : Syncer H) (w : Net) :
  returned (Run s w) = None →
  lastHash (after (Run s w)) = fingerprint s w ∧ config (after (Run s w)) = config s.
Proof.
  intros Hret. destruct (Run_shape_holds s w) as [Heq _ Hs _|? | ? ? ? Hor]; [| done |].
  - by rewrite Hs.
  - destruct Hor as [[_ Hr]|[? [_ Hr]]]; congruence.
Qed.

(** From here on the cycle is used through [Run_shape_holds] only. *)
#[local] Opaque sync.Run sync.calculateHash sync.fetchAllFeeds normalizer.Normalize.

Lemma one_write (name : string) (write : Call) (recorded : option H) :
  is_write write = true →
  filter (λ c, is_write c = true)
         ([GetGroup name; write] ++ match recorded with Some _ => [RecordSyncCall] | None => [] end)
  = [write].
Proof.
  intros Hw. rewrite filter_app, filter_cons_False, filter_cons_True by done.
  by destruct recorded.
Qed.

Lemma is_write_cases (name : string) (members : list string) (write : Call) :
  write = CreateGroup name members ∨ (∃ id, write = UpdateGroup id members) →
  is_write write = true.
Proof. by intros [->|[id ->]]. Qed.

(** C2. [fetchAllFeeds] returns a nil error on every input.  When every
    enabled feed fails (unknown parser or error of the parser) the cycle goes
    on with no entry: the fingerprint is the one of the empty set, and if it
    differs from [lastHash] the cycle asks for the group and then creates or
    updates it with the empty list of members; the only errors [Run] can
    return are those of that create or update. *)
Theorem fetch_failures_sync_empty_set (s : Syncer H) (w : Net) :
  (fetchAllFeeds s w).1.2 = None
  ∧ (all_feeds_fail registry (config.GetEnabled (config.Feeds (config s))) w →
     fetched s w = []
     ∧ fingerprint s w = calculateHash (normalizer.Normalize [])
     ∧ members_of s w = []
     ∧ (fingerprint s w ≠ lastHash s →
        ∃ write,
          (write = CreateGroup (group_name s) [] ∨ ∃ id, write = UpdateGroup id [])
          ∧ take 2 (calls (Run s w)) = [GetGroup (group_name s); write]
          ∧ filter (λ c, is_write c = true) (calls (Run s w)) = [write]
          ∧ (returned (Run s w) = None
               ∧ lastHash (after (Run s w)) = calculateHash (normalizer.Normalize [])
             ∨ ∃ cause,
                 returned (Run s w) = Some (Wrap "failed to create firewall group" cause)
                 ∨ returned (Run s w) = Some (Wrap "failed to update firewall group" cause)))).
Proof.
  split; [apply fetchAllFeeds_nil_error|]. intros Hfail.
  pose proof (fetched_all_fail s w Hfail) as Hnone.
  assert (members_of s w = []) as Hmem.
  { unfold sync.members_of. rewrite Hnone. reflexivity. }
  assert (fingerprint s w = calculateHash (normalizer.Normalize [])) as Hfp.
  { unfold sync.fingerprint. rewrite Hnone. exact eq_refl. }
  split; [exact Hnone|]. split; [exact Hfp|]. split; [exact Hmem|]. intros Hne.
  destruct (Run_shape_holds s w) as [Heq|write _ Hw Hret Hlast _ _ Hcalls
                                    |write cause _ Hw _ _ _ Hcalls].
  - destruct (Hne Heq).
  - exists write. rewrite Hmem in Hw. split; [exact Hw|]. rewrite Hcalls.
    split; [reflexivity|]. split; [eapply one_write, is_write_cases, Hw|].
    left. split; [exact Hret|]. rewrite Hlast. exact Hfp.
  - exists write. rewrite Hmem in Hw. rewrite Hcalls. split.
    { destruct Hw as [[-> _]|[id [-> _]]]; [by left|right; by exists id]. }
    split; [reflexivity|]. split.
    + apply (one_write _ _ None). destruct Hw as [[-> _]|[id [-> _]]]; reflexivity.
    + right. exists cause. destruct Hw as [[_ ->]|[id [_ ->]]]; [by left|by right].
Qed.

(** C3, as the code has it.  A cycle that returns no error with a health
    recorder set tells the recorder exactly when it has reconciled the
    group: when the fingerprint differs from [lastHash], [RecordSync] is
    called once, after the write; when the fingerprint equals [lastHash] the
    cycle ends at the decision with no call at all, and the recorder is left
    as it was. *)
Theorem RecordSync_after_reconcile_only (s : Syncer H) (w : Net) (h : H) :
  healthRecorder s = Some h →
  returned (Run s w) = None →
  (fingerprint s w ≠ lastHash s →
     (∃ write, calls (Run s w) = [GetGroup (group_name s); write; RecordSyncCall]
               ∧ is_write write = true)
     ∧ healthRecorder (after (Run s w)) = Some (RecordSync h))
  ∧ (fingerprint s w = lastHash s →
     calls (Run s w) = [] ∧ healthRecorder (after (Run s w)) = Some h).
Proof.
  intros Hh Hret.
  destruct (Run_shape_holds s w) as [Heq _ Hs Hcalls|write Hne Hw _ _ _ Hrec Hcalls
                                    |write cause _ Hor]; [| |].
  - split; [done|]. intros _. by rewrite Hs.
  - split; [|done]. intros _. rewrite Hrec, Hcalls, Hh. split; [|done].
    exists write. split; [done|]. by eapply is_write_cases.
  - destruct Hor as [[_ Hr]|[? [_ Hr]]]; congruence.
Qed.



(** C6. When the fingerprint of what a cycle fetches differs from
    [lastHash], the cycle makes exactly one call among
    [CreateFirewallGroup] and [UpdateFirewallGroup]; its members are the
    canonical strings of the normalized entries of that fetch, in order,
    which are strictly increasing (sorted, without duplicates).  This is
    the case of the second of two consecutive calls of [Run] when the first
    returned no error and the fingerprint of what the second fetches differs
    from the fingerprint of what the first fetched. *)
Theorem Run_changed_one_write (s : Syncer H) (w : Net) :
  (fingerprint s w ≠ lastHash s → one_write_with_members s w)
  ∧ (∀ s0 w0,
       returned (Run s0 w0) = None → s = after (Run s0 w0) →
       fingerprint s w ≠ fingerprint s0 w0 →
       one_write_with_members s w).
Proof.
  assert (fingerprint s w ≠ lastHash s → one_write_with_members s w) as Hone.
  { intros Hne. unfold sync.one_write_with_members.
    destruct (Run_shape_holds s w) as [Heq|write _ Hw _ _ _ _ Hcalls
                                      |write cause _ Hw _ _ _ Hcalls]; [done|..].
    - exists write. rewrite Hcalls. split; [|split; [exact Hw|]].
      + by eapply one_write, is_write_cases.
      + apply ToStrings_Normalize_strict.
    - exists write. rewrite Hcalls. split; [|split].
      + apply (one_write _ _ None). destruct Hw as [[-> _]|[id [-> _]]]; reflexivity.
      + destruct Hw as [[-> _]|[id [-> _]]]; [by left|right; by eexists].
      + apply ToStrings_Normalize_strict. }
  split; [exact Hone|]. intros s0 w0 Hret -> Hdiff. apply Hone.
  destruct (Run_ok_lastHash s0 w0 Hret) as [Hlast _]. by rewrite Hlast.
Qed.
End Run_facts.

(** The cycle on the scripted world: the first cycle creates the group and
    stores the fingerprint. *)
Example first_cycle_runs :
  scenario.Run scenario.syncer scenario.first_cycle
  = {| sync.returned := None;
       sync.after :=
         {| sync.config := scenario.cfg; sync.unifiClient := scenario.client;
            sync.lastHash := "edd356649fa1e98d13b86636cd9ac38f529c43b5393d51207785d82a8b7a3c01";
            sync.healthRecorder :=
              Some {| sync.ready := true; sync.syncCount := 1; sync.errorCount := 0 |} |};
       sync.world := [];
       sync.calls := [sync.GetGroup "uts-block-list";
                      sync.CreateGroup "uts-block-list" ["10.0.0.0/8"; "192.168.1.1/32"];
                      sync.RecordSyncCall] |}.
Proof. vm_compute. reflexivity. Qed.

(** The fingerprint of the empty set is the SHA-256 digest of the empty
    text; it is not the initial [lastHash], the empty string. *)
Example fingerprint_of_empty_set :
  sync.calculateHash (normalizer.Normalize [])
  = "e3b0c44298fc1c149afbf4c8996fb92427ae41e4649b934ca495991b7852b855".
Proof. vm_compute. reflexivity. Qed.

(** C9. The fingerprint of the normalized entries does not depend on the
    order of the input: for a rearrangement [x'] of [x],
    [calculateHash (Normalize x') = calculateHash (Normalize x)]. *)
Theorem fingerprint_order_independent (x x' : list net.IPNet) :
  x' ≡ₚ x →
  sync.calculateHash (normalizer.Normalize x') = sync.calculateHash (normalizer.Normalize x).
Proof.
  intros Hperm. apply calculateHash_ToStrings. by apply ToStrings_Normalize_Permutation.
Qed.

Lemma fingerprint_order_independent_witness :
  let a := {| net.IP := [10; 0; 0; 0]%N; net.Mask := [255; 0; 0; 0]%N |} in
  let b := {| net.IP := [192; 168; 1; 1]%N; net.Mask := [255; 255; 255; 255]%N |} in
  [b; a; b] ≡ₚ [a; b; b]
  ∧ sync.calculateHash (normalizer.Normalize [b; a; b])
    = sync.calculateHash (normalizer.Normalize [a; b; b]).
Proof.
  intros a b.
  assert ([b; a; b] ≡ₚ [a; b; b]) as Hperm by apply perm_swap.
  split; [exact Hperm|]. exact (fingerprint_order_independent _ _ Hperm).
Defined.

Lemma fetch_failures_sync_empty_set_witness :
  sync.all_feeds_fail scenario.registry
    (config.GetEnabled (config.Feeds (sync.config scenario.syncer))) scenario.failing_feed
  ∧ sync.fingerprint scenario.registry scenario.syncer scenario.failing_feed
    ≠ sync.lastHash scenario.syncer
  ∧ sync.fetched scenario.registry scenario.syncer scenario.failing_feed = []
  ∧ ∃ write,
      (write = sync.CreateGroup (sync.group_name scenario.syncer) []
       ∨ (∃ id, write = sync.UpdateGroup id []))
      ∧ filter (λ c, sync.is_write c = true)
          (sync.calls (scenario.Run scenario.syncer scenario.failing_feed)) = [write].
Proof.
  assert (sync.all_feeds_fail scenario.registry
            (config.GetEnabled (config.Feeds (sync.config scenario.syncer)))
            scenario.failing_feed) as Hfail
    by (vm_compute; exact I).
  assert (sync.fingerprint scenario.registry scenario.syncer scenario.failing_feed
          ≠ sync.lastHash scenario.syncer) as Hne
    by (vm_compute; discriminate).
  pose proof (fetch_failures_sync_empty_set scenario.Do scenario.registry scenario.syncer
                scenario.failing_feed) as [_ Hall].
  pose proof (Hall Hfail) as (Hnone & _ & _ & Hsync).
  pose proof (Hsync Hne) as (write & Hw & _ & Hfilter & _).
  split; [exact Hfail|]. split; [exact Hne|]. split; [exact Hnone|].
  exists write. split; [exact Hw|exact Hfilter].
Defined.

(** With every feed failing, the group of the scenario is emptied. *)
Example failing_feed_empties_group :
  sync.calls (scenario.Run scenario.syncer scenario.failing_feed)
  = [sync.GetGroup "uts-block-list"; sync.UpdateGroup "64f0" []; sync.RecordSyncCall].
Proof. vm_compute. reflexivity. Qed.

(** C3 as stated fails: the second of these two cycles returns no error
    with the health server set as recorder, and ends at the decision
    without [RecordSync]; the counter of the health server stays at 1. *)
Lemma Run_unchanged_skips_RecordSync :
  sync.returned (scenario.Run scenario.synced scenario.same_entries) = None
  ∧ sync.healthRecorder scenario.synced
    = Some {| sync.ready := true; sync.syncCount := 1; sync.errorCount := 0 |}
  ∧ (sync.RecordSyncCall ∉ sync.calls (scenario.Run scenario.synced scenario.same_entries))
  ∧ sync.healthRecorder (sync.after (scenario.Run scenario.synced scenario.same_entries))
    = sync.healthRecorder scenario.synced.
Proof.
  vm_compute. split; [reflexivity|]. split; [reflexivity|]. split; [|reflexivity].
  apply not_elem_of_nil.
Qed.

Lemma RecordSync_after_reconcile_only_witness :
  sync.healthRecorder scenario.syncer = Some scenario.health
  ∧ sync.returned (scenario.Run scenario.syncer scenario.first_cycle) = None
  ∧ sync.fingerprint scenario.registry scenario.syncer scenario.first_cycle
    ≠ sync.lastHash scenario.syncer
  ∧ (∃ write, sync.calls (scenario.Run scenario.syncer scenario.first_cycle)
              = [sync.GetGroup (sync.group_name scenario.syncer); write; sync.RecordSyncCall]
              ∧ sync.is_write write = true)
  ∧ sync.healthRecorder (sync.after (scenario.Run scenario.syncer scenario.first_cycle))
    = Some (sync.RecordSync scenario.health).
Proof.
  assert (sync.healthRecorder scenario.syncer = Some scenario.health) as Hh
    by (vm_compute; reflexivity).
  assert (sync.returned (scenario.Run scenario.syncer scenario.first_cycle) = None) as Hret
    by (vm_compute; reflexivity).
  assert (sync.fingerprint scenario.registry scenario.syncer scenario.first_cycle
          ≠ sync.lastHash scenario.syncer) as Hne
    by (vm_compute; discriminate).
  pose proof (RecordSync_after_reconcile_only scenario.Do scenario.registry scenario.syncer
                scenario.first_cycle scenario.health Hh Hret) as [Hchanged _].
  pose proof (Hchanged Hne) as [Hcalls Hrec].
  split; [exact Hh|]. split; [exact Hret|]. split; [exact Hne|].
  split; [exact Hcalls|exact Hrec].
Defined.



Lemma Run_changed_one_write_witness :
  sync.returned (scenario.Run scenario.syncer scenario.first_cycle) = None
  ∧ sync.fingerprint scenario.registry scenario.synced scenario.changed_entries
    ≠ sync.fingerprint scenario.registry scenario.syncer scenario.first_cycle
  ∧ sync.one_write_with_members scenario.Do scenario.registry scenario.synced
      scenario.changed_entries.
Proof.
  assert (sync.returned (scenario.Run scenario.syncer scenario.first_cycle) = None) as Hret
    by (vm_compute; reflexivity).
  assert (sync.fingerprint scenario.registry scenario.synced scenario.changed_entries
          ≠ sync.fingerprint scenario.registry scenario.syncer scenario.first_cycle) as Hdiff
    by (vm_compute; discriminate).
  split; [exact Hret|]. split; [exact Hdiff|].
  pose proof (Run_changed_one_write scenario.Do scenario.registry scenario.synced
                scenario.changed_entries) as [_ Htwo].
  exact (Htwo scenario.syncer scenario.first_cycle Hret eq_refl Hdiff).
Defined.

(** C6 as stated fails when the first of the two calls fails.  After the
    first cycle the fingerprint of [feedA] is stored.  The next call fetches
    [feedB] and its update fails, so that the stored fingerprint stays; the
    call after it fetches the entries of [feedA] again: the content has
    changed between these two calls, and the second makes no call at all,
    where the claim asks for exactly one create or update. *)
Lemma Run_changed_back_no_write :
  sync.returned (scenario.Run scenario.synced scenario.failing_update)
  = Some (Wrap "failed to update firewall group" (New "unexpected status"))
  ∧ sync.members_of scenario.registry scenario.synced scenario.failing_update
    = ["203.0.113.5/32"]
  ∧ sync.members_of scenario.registry scenario.failed scenario.same_entries
    = ["10.0.0.0/8"; "192.168.1.1/32"]
  ∧ sync.returned (scenario.Run scenario.failed scenario.same_entries) = None
  ∧ sync.calls (scenario.Run scenario.failed scenario.same_entries) = []
  ∧ ¬ sync.one_write_with_members scenario.Do scenario.registry scenario.failed
        scenario.same_entries.
Proof.
  assert (sync.calls (scenario.Run scenario.failed scenario.same_entries) = []) as Hcalls
    by (vm_compute; reflexivity).
  split; [vm_compute; reflexivity|]. split; [vm_compute; reflexivity|].
  split; [vm_compute; reflexivity|]. split; [vm_compute; reflexivity|].
  split; [exact Hcalls|].
  unfold sync.one_write_with_members. intros (write & Hwrite & _).
  rewrite Hcalls in Hwrite. discriminate Hwrite.
Qed.

(** The second cycle of that scenario updates the group with the one new
    member. *)
Example changed_cycle_runs :
  sync.calls (scenario.Run scenario.synced scenario.changed_entries)
  = [sync.GetGroup "uts-block-list"; sync.UpdateGroup "64f0" ["203.0.113.5/32"];
     sync.RecordSyncCall].
Proof. vm_compute. reflexivity. Qed.

(** C1 on the code: the controller answers the request for the groups with
    status 500, so [GetFirewallGroup] returns an error that is not "group
    not found"; [Run] goes on to create a group, stores the fingerprint,
    tells the recorder and returns no error. *)
Theorem Run_read_failure_creates_group :
  (unifi.GetFirewallGroup scenario.Do scenario.client
     [scenario.text 500 "Internal Server Error"] "uts-block-list").1.1
  = Err (New "unexpected status")
  ∧ sync.returned (scenario.Run scenario.syncer scenario.failing_read) = None
  ∧ sync.calls (scenario.Run scenario.syncer scenario.failing_read)
    = [sync.GetGroup "uts-block-list";
       sync.CreateGroup "uts-block-list" ["10.0.0.0/8"; "192.168.1.1/32"];
       sync.RecordSyncCall]
  ∧ sync.lastHash (sync.after (scenario.Run scenario.syncer scenario.failing_read))
    = "edd356649fa1e98d13b86636cd9ac38f529c43b5393d51207785d82a8b7a3c01".
Proof. vm_compute. repeat split. Qed.

(** ** The plain-text parser *)

(** A line that is blank, that starts with a comment marker or that does
    not parse leaves the list of networks as it is. *)
Lemma plain_line_skips (networks : list net.IPNet) (text : string) :
  let line := gostrings.TrimSpace text in
  line = "" ∨ gostrings.HasPrefix line "#" = true ∨ gostrings.HasPrefix line ";" = true
  ∨ gostrings.HasPrefix line "//" = true ∨ is_Ok (parser.parseIPOrCIDR line) = false →
  parser.plain_line networks text = networks.
Proof.
  intros line Hline. unfold parser.plain_line. change (gostrings.TrimSpace text) with line.
  clearbody line. destruct Hline as [->|[Hp|[Hp|[Hp|Herr]]]].
  - reflexivity.
  - rewrite Hp. by destruct (String.eqb line "").
  - rewrite Hp. destruct (String.eqb line ""); [done|].
    by destruct (gostrings.HasPrefix line "#").
  - rewrite Hp. destruct (String.eqb line ""); [done|].
    by destruct (gostrings.HasPrefix line "#"), (gostrings.HasPrefix line ";").
  - destruct (String.eqb line ""); [done|].
    destruct (gostrings.HasPrefix line "#" || gostrings.HasPrefix line ";" || _); [done|].
    by destruct (parser.parseIPOrCIDR line).
Qed.

(** C10. The body ["# comment\n\n10.0.0.0/8\n;ignored\n192.168.1.1\n"] read
    by [PlainParser.parseBody] gives exactly two entries, whose canonical
    strings are [10.0.0.0/8] and [192.168.1.1/32], in that order; a body
    with the third comment marker and a line that is no address gives the
    one entry of its one valid line; and in general a line that is blank,
    starts with [#], [;] or [//], or does not parse, adds nothing and is no
    error. *)
Theorem plain_parser_example :
  (let entries :=
     [ {| net.IP := [10; 0; 0; 0]%N; net.Mask := [255; 0; 0; 0]%N |};
       {| net.IP := [0; 0; 0; 0; 0; 0; 0; 0; 0; 0; 255; 255; 192; 168; 1; 1]%N;
          net.Mask := [255; 255; 255; 255]%N |} ] in
   parser.PlainParser_parseBody
     {| bufio.content :=
          "# comment" +:+ scenario.nl +:+ scenario.nl +:+ "10.0.0.0/8" +:+ scenario.nl
          +:+ ";ignored" +:+ scenario.nl +:+ "192.168.1.1" +:+ scenario.nl;
        bufio.read_error := false |}
   = Ok entries
   ∧ normalizer.ToStrings entries = ["10.0.0.0/8"; "192.168.1.1/32"])
  ∧ (let entries :=
       [ {| net.IP := [32; 1; 13; 184; 0; 0; 0; 0; 0; 0; 0; 0; 0; 0; 0; 0]%N;
            net.Mask := [255; 255; 255; 255; 0; 0; 0; 0; 0; 0; 0; 0; 0; 0; 0; 0]%N |} ] in
     parser.PlainParser_parseBody
       {| bufio.content :=
            "// header" +:+ scenario.nl +:+ "not-an-address" +:+ scenario.nl
            +:+ "  2001:DB8::/32  " +:+ scenario.nl;
          bufio.read_error := false |}
     = Ok entries
     ∧ normalizer.ToStrings entries = ["2001:db8::/32"])
  ∧ ∀ networks text,
      let line := gostrings.TrimSpace text in
      line = "" ∨ gostrings.HasPrefix line "#" = true ∨ gostrings.HasPrefix line ";" = true
      ∨ gostrings.HasPrefix line "//" = true ∨ is_Ok (parser.parseIPOrCIDR line) = false →
      parser.plain_line networks text = networks.
Proof.
  split; [|split].
  - vm_compute. split; reflexivity.
  - vm_compute. split; reflexivity.
  - apply plain_line_skips.
Qed.

(** ** The addresses the parsers of [net/netip] return *)

Section parse_bytes.
Import net.
Local Open Scope N_scope.

Lemma parseIPv4Fields_bytes s first prevDot val digLen pos fields out :
  parseIPv4Fields s first prevDot val digLen pos fields = Some out →
  val ≤ 255 → length fields = pos → (pos ≤ 3)%nat → Forall is_byte fields →
  length out = 4%nat ∧ Forall is_byte out.
Proof.
  revert first prevDot val digLen pos fields.
  induction s as [|c rest IH]; intros first prevDot val digLen pos fields; simpl.
  - destruct (pos <? 3)%nat eqn:Hpos; [done|]. apply Nat.ltb_ge in Hpos.
    intros [= <-] Hval Hlen Hle Hbytes. split.
    + rewrite length_app. simpl. lia.
    + apply Forall_app. split; [done|]. apply Forall_singleton. unfold is_byte. lia.
  - destruct (is_digit c).
    + destruct ((digLen =? 1)%nat && (val =? 0)); [done|].
      destruct (255 <? val * 10 + (N_of_ascii c - 48)) eqn:Hbig; [done|].
      apply N.ltb_ge in Hbig. intros Hout _ Hlen Hle Hbytes.
      by apply (IH _ _ _ _ _ _ Hout).
    + destruct (Ascii.eqb c "."); [|done].
      destruct (first || String.eqb rest "" || prevDot); [done|].
      destruct (pos =? 3)%nat eqn:Hpos; [done|]. apply Nat.eqb_neq in Hpos.
      intros Hout Hval Hlen Hle Hbytes. apply (IH _ _ _ _ _ _ Hout); [lia| |lia|].
      * rewrite length_app. simpl. lia.
      * apply Forall_app. split; [done|]. apply Forall_singleton. unfold is_byte. lia.
Qed.

Lemma parseIPv4_ok s a : parseIPv4 s = Some a → Addr_ok a.
Proof.
  unfold parseIPv4. destruct (parseIPv4Fields _ _ _ _ _ _ _) as [fields|] eqn:Hf; [|done].
  intros [= <-]. simpl.
  apply (parseIPv4Fields_bytes _ _ _ _ _ _ _ _ Hf); [lia|done|lia|constructor].
Qed.

Lemma hex_group_bound s off acc off' acc' rest :
  hex_group s off acc = Some (off', acc', rest) → acc ≤ 0xffff → acc' ≤ 0xffff.
Proof.
  revert off acc. induction s as [|c s IH]; intros off acc; simpl.
  - by intros [= _ <- _].
  - destruct (hex_val c) as [d|]; [|by intros [= _ <- _]].
    destruct (3 <? off)%nat; [done|].
    destruct (0xffff <? acc * 16 + d) eqn:Hbig; [done|]. apply N.ltb_ge in Hbig.
    intros Hg _. by apply (IH _ _ Hg).
Qed.

Lemma shiftr_8_byte acc : acc ≤ 0xffff → is_byte (N.shiftr acc 8).
Proof.
  intros Hacc. unfold is_byte. rewrite N.shiftr_div_pow2.
  apply N.Div0.div_lt_upper_bound. change (2 ^ 8) with 256. lia.
Qed.

Lemma land_ff_byte acc : is_byte (N.land acc 0xff).
Proof.
  unfold is_byte. pose proof (N.land_le_r acc 0xff). lia.
Qed.

Lemma parseIPv6_loop_bytes fuel s ip ell s' ip' ell' :
  parseIPv6_loop fuel s ip ell = Some (s', ip', ell') →
  Forall is_byte ip → (∃ k, length ip = 2 * k)%nat → (length ip ≤ 16)%nat →
  (∀ e, ell = Some e → e ≤ length ip)%nat →
  Forall is_byte ip' ∧ (length ip' ≤ 16)%nat ∧ (∀ e, ell' = Some e → e ≤ length ip')%nat.
Proof.
  revert s ip ell. induction fuel as [|fuel IH]; intros s ip ell; cbn [parseIPv6_loop].
  { intros [= <- <- <-]. auto. }
  destruct (16 <=? length ip)%nat eqn:Hfull.
  { intros [= <- <- <-]. auto. }
  apply Nat.leb_gt in Hfull.
  destruct (hex_group s 0 0) as [[[off acc] rest]|] eqn:Hg; [|done].
  cbn [mbind option_bind].
  assert (acc ≤ 0xffff) as Hacc by (by apply (hex_group_bound _ _ _ _ _ _ Hg)).
  destruct (off =? 0)%nat; [done|].
  destruct (gostrings.HasPrefix rest ".").
  { destruct (bool_decide (ell = None) && negb (length ip =? 12)%nat); [done|].
    destruct (16 <? length ip + 4)%nat eqn:Hroom; [done|]. apply Nat.ltb_ge in Hroom.
    destruct (parseIPv4Fields s true false 0 0%nat 0%nat []) as [fields|] eqn:Hf; [|done].
    cbn [mbind option_bind]. intros [= <- <- <-] Hbytes _ _ Hell.
    assert (length fields = 4%nat ∧ Forall is_byte fields) as [Hlen Hfb].
    { apply (parseIPv4Fields_bytes _ _ _ _ _ _ _ _ Hf); [lia|done|lia|constructor]. }
    rewrite length_app, Hlen. split; [by apply Forall_app|]. split; [lia|].
    intros e He. specialize (Hell e He). lia. }
  intros Hloop Hbytes [k Hk] Hle Hell.
  set (ip2 := ip ++ [N.shiftr acc 8; N.land acc 255]) in *.
  assert (Forall is_byte ip2) as Hbytes2.
  { apply Forall_app. split; [done|]. repeat constructor.
    - by apply shiftr_8_byte.
    - apply land_ff_byte. }
  assert (length ip2 = length ip + 2)%nat as Hlen2.
  { unfold ip2. rewrite length_app. simpl. lia. }
  assert (∀ e, ell = Some e → e ≤ length ip2)%nat as Hell2.
  { intros e He. specialize (Hell e He). lia. }
  destruct rest as [|c rest1].
  { injection Hloop as <- <- <-. split; [done|]. split; [lia|done]. }
  destruct (Ascii.eqb c ":"); [|done]. cbn [negb] in Hloop.
  destruct rest1 as [|c1 rest2]; [done|].
  assert (∀ r e, parseIPv6_loop fuel r ip2 e = Some (s', ip', ell') →
                 (∀ e', e = Some e' → e' ≤ length ip2)%nat →
                 Forall is_byte ip' ∧ (length ip' ≤ 16)%nat
                 ∧ (∀ e, ell' = Some e → e ≤ length ip')%nat) as Hnext.
  { intros r e Hr He. apply (IH _ _ _ Hr); [done| |lia|done].
    exists (S k). lia. }
  destruct (Ascii.eqb c1 ":").
  - destruct (bool_decide (ell = None)); [|done].
    destruct (String.eqb rest2 "").
    + injection Hloop as <- <- <-. split; [done|]. split; [lia|].
      intros e [= <-]. lia.
    + apply (Hnext _ _ Hloop). intros e [= <-]. lia.
  - by apply (Hnext _ _ Hloop).
Qed.

Lemma parseIPv6_ok s a : parseIPv6 s = Some a → Addr_ok a.
Proof.
  unfold parseIPv6.
  destruct (match gostrings.Cut s "%" with
            | Some (s0, zone) => if String.eqb zone "" then None else Some (s0, zone)
            | None => Some (s, "")
            end) as [[s0 zone]|]; [|done].
  cbn [mbind option_bind].
  assert (∃ ell0 s1,
            match s0 with
            | String c (String c' s') =>
                if Ascii.eqb c ":" && Ascii.eqb c' ":" then (Some 0%nat, s') else (None, s0)
            | _ => (None, s0)
            end = (ell0, s1) ∧ (∀ e, ell0 = Some e → e ≤ 0)%nat) as (ell0 & s1 & -> & Hell0).
  { destruct s0 as [|c [|c' s']]; [by eexists _, _..|].
    destruct (Ascii.eqb c ":" && Ascii.eqb c' ":"); eexists _, _; split; try done.
    intros e [= <-]. lia. }
  destruct (bool_decide (ell0 = Some 0%nat) && String.eqb s1 "").
  { intros [= <-]. simpl. split; [done|]. repeat constructor. }
  destruct (parseIPv6_loop 9 s1 [] ell0) as [[[s2 ip] ell]|] eqn:Hloop; [|done].
  cbn [mbind option_bind].
  destruct (parseIPv6_loop_bytes _ _ _ _ _ _ _ Hloop) as (Hbytes & Hlen & Hell).
  { constructor. } { by exists 0%nat. } { simpl. lia. } { simpl. exact Hell0. }
  destruct (negb (String.eqb s2 "")); [done|].
  destruct (length ip <? 16)%nat eqn:Hshort.
  - apply Nat.ltb_lt in Hshort. destruct ell as [e|]; [|done]. cbn [mbind option_bind].
    intros [= <-]. simpl. specialize (Hell e eq_refl). split.
    + rewrite !length_app, length_take, length_replicate, length_drop. lia.
    + rewrite !Forall_app. split; [by apply Forall_take|]. split; [|by apply Forall_drop].
      apply Forall_replicate. unfold is_byte. lia.
  - apply Nat.ltb_ge in Hshort. destruct ell; [done|].
    intros [= <-]. simpl. split; [lia|done].
Qed.

Lemma ParseAddr_scan_ok s rest a : ParseAddr_scan s rest = Some a → Addr_ok a.
Proof.
  induction rest as [|c rest IH]; simpl; [done|].
  destruct (Ascii.eqb c "."); [apply parseIPv4_ok|].
  destruct (Ascii.eqb c ":"); [apply parseIPv6_ok|].
  by destruct (Ascii.eqb c "%").
Qed.

Lemma ParseAddr_ok s a : ParseAddr s = Some a → Addr_ok a.
Proof. apply ParseAddr_scan_ok. Qed.

Lemma As16_ok a : Addr_ok a → length (As16 a) = 16%nat ∧ Forall is_byte (As16 a).
Proof.
  destruct a as [b|b z]; simpl; [|done]. intros [Hlen Hb].
  rewrite Hlen. split; [done|]. repeat constructor; try done; unfold is_byte; lia.
Qed.

Lemma parseIP_ok s ip : parseIP s = Some ip → length ip = 16%nat ∧ Forall is_byte ip.
Proof.
  unfold parseIP. destruct (ParseAddr s) as [a|] eqn:Ha; [|done]. cbn [mbind option_bind].
  destruct (negb _); [done|]. intros [= <-]. by apply As16_ok, (ParseAddr_ok s).
Qed.
End parse_bytes.

(** ** Masks *)

Section mask_facts.
Import net.
Local Open Scope N_scope.

Lemma mask_byte_low z : (z ≤ 0)%Z → mask_byte z = 0.
Proof.
  intros Hz. unfold mask_byte. destruct (8 <=? z)%Z eqn:E; [lia|].
  destruct z as [|p|p]; [done|lia|done].
Qed.

Lemma mask_byte_high z : (8 ≤ z)%Z → mask_byte z = 0xff.
Proof. intros Hz. unfold mask_byte. destruct (8 <=? z)%Z eqn:E; [done|lia]. Qed.

Lemma mask_byte_cases z :
  (z ≤ 0 ∨ z = 1 ∨ z = 2 ∨ z = 3 ∨ z = 4 ∨ z = 5 ∨ z = 6 ∨ z = 7 ∨ 8 ≤ z)%Z.
Proof. lia. Qed.

Ltac mask_cases z :=
  destruct (mask_byte_cases z) as [?|[?|[?|[?|[?|[?|[?|[?|?]]]]]]]];
  [rewrite (mask_byte_low z) by lia
  |subst z..
  |rewrite (mask_byte_high z) by lia].

Lemma mask_byte_is_byte z : is_byte (mask_byte z).
Proof. unfold is_byte. mask_cases z; done. Qed.

(** The masks of shorter prefixes are contained in those of longer ones. *)
Lemma mask_byte_nested z1 z2 :
  (z1 ≤ z2)%Z → N.land (mask_byte z1) (mask_byte z2) = mask_byte z1.
Proof. intros Hle. mask_cases z1; mask_cases z2; try reflexivity; lia. Qed.

Lemma bit_at_is_byte r : is_byte (bit_at r).
Proof.
  unfold is_byte, bit_at. rewrite N.shiftr_div_pow2.
  pose proof (N.Div0.div_le_upper_bound 128 (2 ^ Z.to_N r) 128) as Hle.
  pose proof (N.pow_nonzero 2 (Z.to_N r)) as Hpow.
  assert (128 / 2 ^ Z.to_N r ≤ 128); [|lia].
  apply Hle. nia.
Qed.

Lemma bit_at_cases r : (0 ≤ r < 8)%Z →
  (r = 0 ∨ r = 1 ∨ r = 2 ∨ r = 3 ∨ r = 4 ∨ r = 5 ∨ r = 6 ∨ r = 7)%Z.
Proof. lia. Qed.

Ltac bit_cases r H :=
  destruct (bit_at_cases r H) as [?|[?|[?|[?|[?|[?|[?|?]]]]]]]; subst r.

Lemma bit_at_nonzero r : (0 ≤ r < 8)%Z → bit_at r ≠ 0.
Proof. intros Hr. bit_cases r Hr; done. Qed.

(** The bit after a prefix is outside its mask, and inside the mask of
    every longer prefix. *)
Lemma bit_at_outside r z : (0 ≤ r < 8)%Z → (z ≤ r)%Z → N.land (bit_at r) (mask_byte z) = 0.
Proof.
  intros Hr Hz. bit_cases r Hr; mask_cases z; try reflexivity; lia.
Qed.

Lemma bit_at_inside r z : (0 ≤ r < 8)%Z → (r < z)%Z → N.land (bit_at r) (mask_byte z) = bit_at r.
Proof.
  intros Hr Hz. bit_cases r Hr; mask_cases z; try reflexivity; lia.
Qed.

Lemma CIDRMask_fill_length k n : length (CIDRMask_fill k n) = k.
Proof.
  revert n. induction k as [|k IH]; intros n; simpl; [done|].
  destruct (8 <=? n)%Z; simpl; by rewrite IH.
Qed.

Lemma CIDRMask_fill_lookup k n i :
  (i < k)%nat → CIDRMask_fill k n !! i = Some (mask_byte (n - 8 * Z.of_nat i)).
Proof.
  revert n i. induction k as [|k IH]; intros n i Hi; [lia|].
  cbn [CIDRMask_fill]. destruct i as [|i].
  - replace (n - 8 * Z.of_nat 0)%Z with n by lia. unfold mask_byte.
    by destruct (8 <=? n)%Z.
  - destruct (8 <=? n)%Z eqn:E; cbn [lookup list_lookup].
    + rewrite IH by lia. f_equal. f_equal. lia.
    + rewrite IH by lia. f_equal. apply Z.leb_gt in E.
      rewrite !mask_byte_low; [done|lia..].
Qed.

Lemma CIDRMask_fill_bytes k n : Forall is_byte (CIDRMask_fill k n).
Proof.
  apply Forall_lookup. intros i b Hi.
  assert (i < k)%nat as Hik.
  { apply lookup_lt_Some in Hi. by rewrite CIDRMask_fill_length in Hi. }
  rewrite CIDRMask_fill_lookup in Hi by done. injection Hi as <-.
  apply mask_byte_is_byte.
Qed.

Lemma CIDRMask_fill_drop j k n :
  (8 * Z.of_nat j ≤ n)%Z →
  drop j (CIDRMask_fill (j + k) n) = CIDRMask_fill k (n - 8 * Z.of_nat j).
Proof.
  revert n. induction j as [|j IH]; intros n Hn.
  - replace (n - 8 * Z.of_nat 0%nat)%Z with n by lia. done.
  - cbn [Nat.add CIDRMask_fill]. destruct (8 <=? n)%Z eqn:E; [|lia].
    cbn [drop]. rewrite IH by lia. f_equal. lia.
Qed.

Lemma CIDRMask_32 n : (0 ≤ n ≤ 32)%Z → CIDRMask n 32 = CIDRMask_fill 4 n.
Proof.
  intros Hn. unfold CIDRMask. cbn [Z.eqb Z.mul Pos.mul negb andb Pos.eqb].
  destruct (n <? 0)%Z eqn:E1; [lia|]. destruct (32 <? n)%Z eqn:E2; [lia|]. reflexivity.
Qed.

Lemma CIDRMask_128 n : (0 ≤ n ≤ 128)%Z → CIDRMask n 128 = CIDRMask_fill 16 n.
Proof.
  intros Hn. unfold CIDRMask. cbn [Z.eqb Z.mul Pos.mul negb andb Pos.eqb].
  destruct (n <? 0)%Z eqn:E1; [lia|]. destruct (128 <? n)%Z eqn:E2; [lia|]. reflexivity.
Qed.

(** Bytes of a masked address. *)
Lemma land_byte a b : is_byte a → is_byte (N.land a b).
Proof. unfold is_byte. pose proof (N.land_le_l a b). lia. Qed.

Lemma lxor_byte a b : is_byte a → is_byte b → is_byte (N.lxor a b).
Proof.
  unfold is_byte. intros Ha Hb.
  destruct (N.eq_dec (N.lxor a b) 0) as [->|Hne]; [lia|].
  change 256 with (2 ^ 8). apply N.log2_lt_pow2; [lia|].
  pose proof (N.log2_lxor a b) as Hlog.
  assert (N.log2 a < 8).
  { destruct (N.eq_dec a 0) as [->|?]; [done|]. apply N.log2_lt_pow2; [lia|done]. }
  assert (N.log2 b < 8).
  { destruct (N.eq_dec b 0) as [->|?]; [done|]. apply N.log2_lt_pow2; [lia|done]. }
  lia.
Qed.

Lemma zip_land_bytes ip m : Forall is_byte ip → Forall is_byte (zip_with N.land ip m).
Proof.
  intros Hip. revert m. induction Hip as [|a ip Ha Hip IH]; intros [|b m]; simpl;
    constructor; [by apply land_byte|apply IH].
Qed.

Lemma zip_land_idemp ip m :
  zip_with N.land (zip_with N.land ip m) m = zip_with N.land ip m.
Proof.
  revert m. induction ip as [|a ip IH]; intros [|b m]; simpl; [done..|].
  by rewrite IH, <- N.land_assoc, N.land_diag.
Qed.

Lemma zip_land_fill_lookup nn l i b :
  nn !! i = Some b →
  zip_with N.land nn (CIDRMask_fill (length nn) l) !! i
  = Some (N.land b (mask_byte (l - 8 * Z.of_nat i))).
Proof.
  intros Hb. rewrite lookup_zip_with, Hb. cbn [mbind option_bind].
  rewrite CIDRMask_fill_lookup by (by eapply lookup_lt_Some). done.
Qed.
End mask_facts.

(** ** A network is determined by its addresses *)

Section network_facts.
Import net.
Local Open Scope N_scope.

Lemma agree_refl nn m : agree nn m nn = true.
Proof. unfold agree. rewrite Nat.eqb_refl. by rewrite bool_decide_eq_true_2. Qed.

Lemma agree_true nn m ip :
  agree nn m ip = true ↔
  length ip = length nn ∧ zip_with N.land nn m = zip_with N.land ip m.
Proof.
  unfold agree. rewrite andb_true_iff, Nat.eqb_eq, bool_decide_eq_true. done.
Qed.

Lemma land_lxor_distr a b c : N.land (N.lxor a b) c = N.lxor (N.land a c) (N.land b c).
Proof.
  apply N.bits_inj. intros n. rewrite N.land_spec, !N.lxor_spec, !N.land_spec.
  by destruct (N.testbit a n), (N.testbit b n), (N.testbit c n).
Qed.

Lemma flip_index l k :
  (0 ≤ l < 8 * Z.of_nat k)%Z →
  (Z.to_nat (l / 8) < k)%nat ∧ (0 ≤ l mod 8 < 8)%Z
  ∧ (l - 8 * Z.of_nat (Z.to_nat (l / 8)) = l mod 8)%Z.
Proof.
  intros Hl. pose proof (Z.div_mod l 8 ltac:(lia)) as Hdm.
  pose proof (Z.mod_pos_bound l 8 ltac:(lia)) as Hmod.
  assert (0 ≤ l / 8)%Z as Hq by (apply Z.div_pos; lia).
  rewrite Z2Nat.id by done. split; [|split]; lia.
Qed.

(** An address with the bit after the prefix flipped is still in the
    network. *)
Lemma flip_bit_agree nn l :
  (0 ≤ l < 8 * Z.of_nat (length nn))%Z →
  agree nn (CIDRMask_fill (length nn) l) (flip_bit nn l) = true.
Proof.
  intros Hl. apply agree_true. unfold flip_bit.
  destruct (flip_index l (length nn) Hl) as (Hj & Hr & Hjr).
  set (j := Z.to_nat (l / 8)) in *. split; [by rewrite length_insert|].
  destruct (lookup_lt_is_Some_2 nn j Hj) as [b Hb].
  rewrite (list_lookup_total_correct nn j b Hb).
  apply list_eq. intros i. rewrite !lookup_zip_with.
  destruct (decide (i = j)) as [->|Hij].
  - rewrite list_lookup_insert_eq, Hb by done. cbn [mbind option_bind].
    rewrite CIDRMask_fill_lookup by done. cbn [mbind option_bind]. f_equal.
    rewrite land_lxor_distr, bit_at_outside, N.lxor_0_r; [done|lia|lia].
  - by rewrite list_lookup_insert_ne.
Qed.

(** It is outside every network of the same number with a longer prefix. *)
Lemma flip_bit_disagree nn l l' :
  (0 ≤ l < l')%Z → (l' ≤ 8 * Z.of_nat (length nn))%Z →
  agree nn (CIDRMask_fill (length nn) l') (flip_bit nn l) = false.
Proof.
  intros Hl Hl'. apply not_true_is_false. intros [_ Heq]%agree_true.
  destruct (flip_index l (length nn) ltac:(lia)) as (Hj & Hr & Hjr).
  unfold flip_bit in Heq. set (j := Z.to_nat (l / 8)) in *.
  destruct (lookup_lt_is_Some_2 nn j Hj) as [b Hb].
  rewrite (list_lookup_total_correct nn j b Hb) in Heq.
  apply (f_equal (λ x, x !! j)) in Heq. rewrite !lookup_zip_with in Heq.
  rewrite list_lookup_insert_eq, Hb in Heq by done. cbn [mbind option_bind] in Heq.
  rewrite CIDRMask_fill_lookup in Heq by done. cbn [mbind option_bind] in Heq.
  injection Heq as Heq.
  rewrite land_lxor_distr, bit_at_inside in Heq; [|lia|lia].
  apply (bit_at_nonzero (l mod 8)); [lia|].
  apply (f_equal (N.lxor (N.land b (mask_byte (l' - 8 * Z.of_nat j))))) in Heq.
  rewrite N.lxor_nilpotent, <- N.lxor_assoc, N.lxor_nilpotent, N.lxor_0_l in Heq.
  done.
Qed.

Lemma flip_bit_bytes nn l : Forall is_byte nn → (0 ≤ l)%Z → Forall is_byte (flip_bit nn l).
Proof.
  intros Hnn Hl. unfold flip_bit. set (j := Z.to_nat (l / 8)).
  destruct (decide (j < length nn)%nat) as [Hj|Hj].
  - apply Forall_insert; [done|]. apply lxor_byte; [|apply bit_at_is_byte].
    destruct (lookup_lt_is_Some_2 nn j Hj) as [b Hb].
    rewrite (list_lookup_total_correct nn j b Hb).
    by eapply (proj1 (Forall_lookup _ _) Hnn).
  - by rewrite list_insert_ge by lia.
Qed.

(** Two networks in canonical shape with the same addresses, the first with
    the shorter prefix: they are the same. *)
Lemma same_addresses_le nn1 l1 nn2 l2 :
  canonical_network nn1 l1 → canonical_network nn2 l2 →
  (∀ ip, Forall is_byte ip →
         agree nn1 (CIDRMask_fill (length nn1) l1) ip
         = agree nn2 (CIDRMask_fill (length nn2) l2) ip) →
  (l1 ≤ l2)%Z → nn1 = nn2 ∧ l1 = l2.
Proof.
  intros (Hl1 & Hb1 & Hm1) (Hl2 & Hb2 & Hm2) Hsame Hle.
  pose proof (Hsame nn1 Hb1) as H1. rewrite agree_refl in H1. symmetry in H1.
  apply agree_true in H1 as [Hlen H1]. rewrite Hm2 in H1.
  assert (nn1 = nn2) as <-.
  { apply list_eq. intros i. destruct (nn1 !! i) as [b|] eqn:Hb.
    - rewrite H1, <- Hlen. rewrite (zip_land_fill_lookup nn1 l2 i b Hb).
      pose proof (zip_land_fill_lookup nn1 l1 i b Hb) as Hb'. rewrite Hm1, Hb in Hb'.
      injection Hb' as Hb'. rewrite Hb' at 2.
      rewrite <- N.land_assoc, mask_byte_nested by lia. by rewrite <- Hb'.
    - symmetry. apply lookup_ge_None. apply lookup_ge_None in Hb. lia. }
  split; [done|]. destruct (decide (l1 = l2)) as [?|Hne]; [done|]. exfalso.
  pose proof (Hsame (flip_bit nn1 l1) (flip_bit_bytes nn1 l1 Hb1 (proj1 Hl1))) as Hflip.
  rewrite flip_bit_agree, flip_bit_disagree in Hflip by lia. done.
Qed.

Lemma same_addresses nn1 l1 nn2 l2 :
  canonical_network nn1 l1 → canonical_network nn2 l2 →
  (∀ ip, Forall is_byte ip →
         agree nn1 (CIDRMask_fill (length nn1) l1) ip
         = agree nn2 (CIDRMask_fill (length nn2) l2) ip) →
  nn1 = nn2 ∧ l1 = l2.
Proof.
  intros Hc1 Hc2 Hsame. destruct (Z.le_ge_cases l1 l2) as [Hle|Hle].
  - by apply same_addresses_le.
  - destruct (same_addresses_le nn2 l2 nn1 l1) as [-> ->]; [done..| |done|done].
    intros ip Hip. symmetry. by apply Hsame.
Qed.
End network_facts.

(** ** What the line-level parser returns *)

Section parser_facts.
Import net.
Local Open Scope N_scope.

Ltac len_simpl :=
  repeat (progress (repeat match goal with
                           | H : length _ = _ |- _ => rewrite H
                           end;
                    cbn [Nat.eqb IPv4len IPv6len andb negb mbind option_bind length])).

Lemma To4_len4 ip : length ip = 4%nat → To4 ip = ip.
Proof. intros Hlen. unfold To4. by rewrite Hlen. Qed.

(** The two cases of a 16-byte address: it is IPv4-mapped or it is not. *)
Lemma To4_len16 ip :
  length ip = 16%nat →
  To4 ip = []
  ∨ To4 ip = drop 12 ip ∧ ip !! 10%nat = Some 0xff ∧ ip !! 11%nat = Some 0xff.
Proof.
  intros Hlen. unfold To4. rewrite Hlen. cbn [Nat.eqb IPv4len IPv6len andb].
  destruct (isZeros (take 10 ip)); [|by left]. cbn [andb].
  destruct (lookup_lt_is_Some_2 ip 10) as [b10 Hb10]; [lia|].
  destruct (lookup_lt_is_Some_2 ip 11) as [b11 Hb11]; [lia|].
  rewrite (list_lookup_total_correct ip 10 b10 Hb10).
  rewrite (list_lookup_total_correct ip 11 b11 Hb11).
  destruct (b10 =? 255) eqn:E10; [|by left]. destruct (b11 =? 255) eqn:E11; [|by left].
  apply N.eqb_eq in E10 as ->. apply N.eqb_eq in E11 as ->. right. by rewrite Hb10, Hb11.
Qed.

Lemma To4_length ip : length ip = 16%nat → To4 ip ≠ [] → length (To4 ip) = 4%nat.
Proof.
  intros Hlen Hne. destruct (To4_len16 ip Hlen) as [?|[-> _]]; [done|].
  rewrite length_drop. lia.
Qed.

Lemma IP_Mask_v4 b m :
  length b = 4%nat → length m = 4%nat →
  IP_Mask (v4InV6Prefix ++ b) m = zip_with N.land b m.
Proof.
  intros Hb Hm.
  destruct b as [|b0 [|b1 [|b2 [|b3 [|]]]]]; try done.
  destruct m as [|m0 [|m1 [|m2 [|m3 [|]]]]]; try done.
Qed.

Lemma IP_Mask_v6 ip m :
  length ip = 16%nat → length m = 16%nat → IP_Mask ip m = zip_with N.land ip m.
Proof.
  intros Hip Hm. unfold IP_Mask. len_simpl. done.
Qed.

Lemma networkNumberAndMask_4 ip m :
  length ip = 4%nat → length m = 4%nat →
  networkNumberAndMask {| IP := ip; Mask := m |} = Some (ip, m).
Proof.
  intros Hip Hm. unfold networkNumberAndMask. cbn [IP Mask].
  rewrite (To4_len4 ip Hip). len_simpl. done.
Qed.

Lemma networkNumberAndMask_16 ip m :
  length ip = 16%nat → length m = 16%nat → To4 ip = [] →
  networkNumberAndMask {| IP := ip; Mask := m |} = Some (ip, m).
Proof.
  intros Hip Hm Hto4. unfold networkNumberAndMask. cbn [IP Mask].
  rewrite Hto4. len_simpl. done.
Qed.

Lemma networkNumberAndMask_mapped ip m :
  length ip = 16%nat → To4 ip ≠ [] →
  networkNumberAndMask {| IP := ip; Mask := m |}
  = if (length m =? 4)%nat then Some (To4 ip, m)
    else if (length m =? 16)%nat then Some (To4 ip, drop 12 m) else None.
Proof.
  intros Hip Hto4. unfold networkNumberAndMask. cbn [IP Mask].
  pose proof (To4_length ip Hip Hto4) as Hlen4. len_simpl. reflexivity.
Qed.

(** A byte that is all ones under a mask: the mask is all ones. *)
Lemma land_mask_ff b z : N.land b (mask_byte z) = 0xff → (8 ≤ z)%Z.
Proof.
  intros Hff. pose proof (N.land_le_r b (mask_byte z)) as Hle. rewrite Hff in Hle.
  destruct (Z.le_gt_cases 8 z) as [?|Hz]; [done|]. exfalso. revert Hle.
  destruct (mask_byte_cases z) as [?|[?|[?|[?|[?|[?|[?|[?|?]]]]]]]];
    [rewrite (mask_byte_low z) by lia|subst z..|lia]; by compute.
Qed.

Lemma canonical_masked b k n :
  length b = k → (0 ≤ n ≤ 8 * Z.of_nat k)%Z → Forall is_byte b →
  canonical_network (zip_with N.land b (CIDRMask_fill k n)) n
  ∧ length (zip_with N.land b (CIDRMask_fill k n)) = k.
Proof.
  intros Hb Hn Hbytes.
  assert (length (zip_with N.land b (CIDRMask_fill k n)) = k) as Hlen.
  { rewrite length_zip_with, CIDRMask_fill_length. lia. }
  split; [|done]. unfold canonical_network. rewrite Hlen.
  split; [done|]. split; [by apply zip_land_bytes|apply zip_land_idemp].
Qed.

Lemma CIDRMask_fill_drop_12 n :
  (96 ≤ n)%Z → drop 12 (CIDRMask_fill 16 n) = CIDRMask_fill 4 (n - 96).
Proof.
  intros Hn. pose proof (CIDRMask_fill_drop 12 4 n ltac:(lia)) as Hdrop.
  replace (n - 8 * Z.of_nat 12)%Z with (n - 96)%Z in Hdrop by lia. exact Hdrop.
Qed.

(** The network returned by [net.ParseCIDR]. *)
Lemma ParseCIDR_canonical s ip ipnet :
  ParseCIDR s = Some (ip, ipnet) →
  ∃ nn l, networkNumberAndMask ipnet = Some (nn, CIDRMask_fill (length nn) l)
          ∧ canonical_network nn l.
Proof.
  unfold ParseCIDR. destruct (gostrings.Cut s "/") as [[addr mask]|]; [|done].
  cbn [mbind option_bind].
  destruct (ParseAddr addr) as [a|] eqn:Ha; [|done]. cbn [mbind option_bind].
  apply ParseAddr_ok in Ha. destruct (negb (String.eqb (Zone a) "")); [done|].
  destruct (dtoi mask) as [[n i] ok].
  destruct (negb ok || negb (i =? String.length mask)%nat || (n <? 0)%Z
            || (BitLen a <? n)%Z) eqn:Hbad; [done|].
  assert (0 ≤ n ≤ BitLen a)%Z as Hn.
  { destruct (negb ok || negb (i =? String.length mask)%nat); [done|].
    cbn [orb] in Hbad. lia. }
  clear Hbad. intros [= _ <-]. destruct a as [b|b z]; cbn [BitLen As16] in *.
  - destruct Ha as [Hlen Hbytes]. rewrite CIDRMask_32 by done.
    rewrite IP_Mask_v4 by (done || apply CIDRMask_fill_length).
    destruct (canonical_masked b 4 n Hlen ltac:(lia) Hbytes) as [Hcan Hlen'].
    exists (zip_with N.land b (CIDRMask_fill 4 n)), n. rewrite Hlen'. split; [|done].
    apply networkNumberAndMask_4; [done|apply CIDRMask_fill_length].
  - destruct Ha as [Hlen Hbytes]. rewrite CIDRMask_128 by done.
    rewrite IP_Mask_v6 by (done || apply CIDRMask_fill_length).
    destruct (canonical_masked b 16 n Hlen ltac:(lia) Hbytes) as [Hcan Hlen'].
    set (ip16 := zip_with N.land b (CIDRMask_fill 16 n)) in *.
    destruct (To4_len16 ip16 Hlen') as [Hv6|(Hto4 & H10 & H11)].
    + exists ip16, n. rewrite Hlen'. split; [|done].
      apply networkNumberAndMask_16; [done|apply CIDRMask_fill_length|done].
    + assert (96 ≤ n)%Z as Hn96.
      { unfold ip16 in H11. rewrite lookup_zip_with in H11.
        destruct (b !! 11%nat) as [b11|]; [|done]. cbn [mbind option_bind] in H11.
        rewrite CIDRMask_fill_lookup in H11 by lia. cbn [mbind option_bind] in H11.
        injection H11 as H11. apply land_mask_ff in H11. lia. }
      assert (To4 ip16 ≠ []) as Hne.
      { rewrite Hto4. intros Hnil. apply (f_equal length) in Hnil.
        rewrite length_drop, Hlen' in Hnil. done. }
      rewrite (networkNumberAndMask_mapped ip16 _ Hlen' Hne), CIDRMask_fill_length.
      cbn [Nat.eqb]. rewrite Hto4.
      rewrite CIDRMask_fill_drop_12 by lia. unfold ip16.
      rewrite zip_with_drop, CIDRMask_fill_drop_12 by lia.
      assert (length (drop 12 b) = 4%nat) as Hlen4 by (rewrite length_drop; lia).
      destruct (canonical_masked (drop 12 b) 4 (n - 96)%Z Hlen4 ltac:(lia))
        as [Hcan4 Hlen4']; [by apply Forall_drop|].
      eexists _, _. rewrite Hlen4'. split; [reflexivity|done].
Qed.

(** An address with the mask of all ones. *)
Lemma canonical_host nn :
  Forall is_byte nn → canonical_network nn (8 * Z.of_nat (length nn)).
Proof.
  intros Hbytes. split; [lia|]. split; [done|].
  apply list_eq. intros i. destruct (nn !! i) as [b|] eqn:Hb.
  - rewrite (zip_land_fill_lookup nn _ i b Hb). f_equal.
    apply lookup_lt_Some in Hb as Hi.
    rewrite mask_byte_high by lia.
    rewrite Forall_lookup in Hbytes. specialize (Hbytes i b Hb). unfold is_byte in Hbytes.
    change 255 with (N.ones 8). rewrite N.land_ones. apply N.mod_small. exact Hbytes.
  - apply lookup_ge_None. apply lookup_ge_None in Hb.
    rewrite length_zip_with, CIDRMask_fill_length. lia.
Qed.

(** The shape of what [parseIPOrCIDR] returns: a network number of 4 or
    16 bytes whose bits after the prefix are zero, and the mask of the
    prefix. *)
Lemma parseIPOrCIDR_canonical s n :
  parser.parseIPOrCIDR s = Ok n →
  ∃ nn l, networkNumberAndMask n = Some (nn, CIDRMask_fill (length nn) l)
          ∧ canonical_network nn l.
Proof.
  unfold parser.parseIPOrCIDR. set (t := gostrings.TrimSpace s).
  destruct (gostrings.Contains t "/").
  - destruct (ParseCIDR t) as [[ip ipnet]|] eqn:Hcidr; [|done].
    intros [= <-]. by eapply ParseCIDR_canonical.
  - unfold ParseIP. destruct (parseIP t) as [ip|] eqn:Hip; [|done].
    change (default [] (Some ip)) with ip.
    apply parseIP_ok in Hip as [Hlen Hbytes]. rewrite Hlen. cbn [Nat.eqb].
    intros [= <-]. destruct (To4_len16 ip Hlen) as [Hv6|(Hto4 & _)].
    + rewrite Hv6. cbn [length Nat.eqb negb]. exists ip, (8 * Z.of_nat (length ip))%Z.
      split; [|by apply canonical_host].
      rewrite Hlen. apply networkNumberAndMask_16; done.
    + assert (To4 ip ≠ []) as Hne.
      { rewrite Hto4. intros Hnil. apply (f_equal length) in Hnil.
        rewrite length_drop, Hlen in Hnil. done. }
      rewrite (To4_length ip Hlen Hne). cbn [Nat.eqb negb].
      rewrite (networkNumberAndMask_mapped ip _ Hlen Hne).
      exists (To4 ip), (8 * Z.of_nat (length (To4 ip)))%Z. split.
      * by rewrite (To4_length ip Hlen Hne).
      * apply canonical_host. rewrite Hto4. by apply Forall_drop.
Qed.
End parser_facts.

(** ** Canonical strings *)

(** Networks returned by the line-level parser that have the same
    addresses have the same network number and mask. *)
Lemma same_addresses_same_number (s1 s2 : string) (n1 n2 : net.IPNet) :
  parser.parseIPOrCIDR s1 = Ok n1 → parser.parseIPOrCIDR s2 = Ok n2 →
  (∀ ip, Forall net.is_byte ip → net.in_network n1 ip = net.in_network n2 ip) →
  net.networkNumberAndMask n1 = net.networkNumberAndMask n2.
Proof.
  intros (nn1 & l1 & Hn1 & Hc1)%parseIPOrCIDR_canonical
         (nn2 & l2 & Hn2 & Hc2)%parseIPOrCIDR_canonical Hsame.
  unfold net.in_network in Hsame. rewrite Hn1, Hn2 in Hsame.
  destruct (same_addresses nn1 l1 nn2 l2 Hc1 Hc2 Hsame) as [-> ->].
  by rewrite Hn1, Hn2.
Qed.

(** A bare address: the mask is the one of the full prefix length of its
    family, where an IPv4-mapped address is of the IPv4 family. *)
Lemma bare_address_string (s : string) (n : net.IPNet) :
  parser.parseIPOrCIDR s = Ok n →
  gostrings.Contains (gostrings.TrimSpace s) "/" = false →
  let ip := net.ParseIP (gostrings.TrimSpace s) in
  (net.To4 ip = [] → net.IPNet_String n = net.IP_String ip +:+ "/128")
  ∧ (net.To4 ip ≠ [] → net.IPNet_String n = net.IP_String (net.To4 ip) +:+ "/32").
Proof.
  unfold parser.parseIPOrCIDR. intros Hparse Hbare. rewrite Hbare in Hparse.
  unfold net.ParseIP in *. destruct (net.parseIP (gostrings.TrimSpace s)) as [ip|] eqn:Hip;
    [|done].
  change (default [] (Some ip)) with ip in *. cbv zeta.
  apply parseIP_ok in Hip as [Hlen Hbytes]. rewrite Hlen in Hparse.
  cbn [Nat.eqb] in Hparse. injection Hparse as <-. split.
  - intros Hv6. rewrite Hv6. cbn [length Nat.eqb negb]. unfold net.IPNet_String.
    rewrite (networkNumberAndMask_16 ip (net.CIDRMask 128 128) Hlen eq_refl Hv6). reflexivity.
  - intros Hv4. pose proof (To4_length ip Hlen Hv4) as Hlen4. rewrite Hlen4.
    cbn [Nat.eqb negb]. unfold net.IPNet_String.
    rewrite (networkNumberAndMask_mapped ip (net.CIDRMask 32 32) Hlen Hv4). reflexivity.
Qed.

(** C7, as the code has it.  Two texts accepted by [parseIPOrCIDR] whose
    networks have the same addresses have the same canonical string, byte
    for byte, whatever their formatting; ["203.0.113.5"] has the canonical
    string ["203.0.113.5/32"]; and a bare address has the prefix length of
    its family: [/128] when it is not an IPv4 address for Go ([To4] is nil),
    and [/32], after the address in dotted form, when it is one, which
    includes the IPv4-mapped addresses written in IPv6 notation. *)
Theorem canonical_string_of_network :
  (∀ s1 s2 n1 n2,
     parser.parseIPOrCIDR s1 = Ok n1 → parser.parseIPOrCIDR s2 = Ok n2 →
     (∀ ip, Forall net.is_byte ip → net.in_network n1 ip = net.in_network n2 ip) →
     net.IPNet_String n1 = net.IPNet_String n2)
  ∧ parser.canonical_of "203.0.113.5" = Some "203.0.113.5/32"
  ∧ parser.canonical_of "2001:DB8:0:0:0:0:0:1" = Some "2001:db8::1/128"
  ∧ (∀ s n,
       parser.parseIPOrCIDR s = Ok n →
       gostrings.Contains (gostrings.TrimSpace s) "/" = false →
       let ip := net.ParseIP (gostrings.TrimSpace s) in
       (net.To4 ip = [] → net.IPNet_String n = net.IP_String ip +:+ "/128")
       ∧ (net.To4 ip ≠ [] → net.IPNet_String n = net.IP_String (net.To4 ip) +:+ "/32")).
Proof.
  split; [|split; [|split]].
  - intros s1 s2 n1 n2 H1 H2 Hsame. unfold net.IPNet_String.
    by rewrite (same_addresses_same_number s1 s2 n1 n2 H1 H2 Hsame).
  - vm_compute. reflexivity.
  - vm_compute. reflexivity.
  - apply bare_address_string.
Qed.

Lemma canonical_string_of_network_witness :
  let n1 := {| net.IP := [0; 0; 0; 0; 0; 0; 0; 0; 0; 0; 255; 255; 192; 168; 1; 1]%N;
               net.Mask := [255; 255; 255; 255]%N |} in
  let n2 := {| net.IP := [192; 168; 1; 1]%N; net.Mask := [255; 255; 255; 255]%N |} in
  parser.parseIPOrCIDR "::ffff:192.168.1.1" = Ok n1
  ∧ parser.parseIPOrCIDR " 192.168.1.1/32 " = Ok n2
  ∧ (∀ ip, Forall net.is_byte ip → net.in_network n1 ip = net.in_network n2 ip)
  ∧ net.IPNet_String n1 = net.IPNet_String n2.
Proof.
  intros n1 n2.
  assert (parser.parseIPOrCIDR "::ffff:192.168.1.1" = Ok n1) as H1
    by (vm_compute; reflexivity).
  assert (parser.parseIPOrCIDR " 192.168.1.1/32 " = Ok n2) as H2
    by (vm_compute; reflexivity).
  assert (∀ ip, Forall net.is_byte ip → net.in_network n1 ip = net.in_network n2 ip) as Hsame
    by (intros ip _; reflexivity).
  split; [exact H1|]. split; [exact H2|]. split; [exact Hsame|].
  exact (proj1 canonical_string_of_network _ _ n1 n2 H1 H2 Hsame).
Defined.

(** C7 as stated fails on the bare IPv6 address: the text
    ["::ffff:1.2.3.4"] has no slash and is parsed by the IPv6 parser, to
    sixteen bytes; its canonical string is ["1.2.3.4/32"], not one with
    [/128]. *)
Lemma mapped_address_is_slash_32 :
  gostrings.Contains "::ffff:1.2.3.4" "/" = false
  ∧ net.ParseAddr "::ffff:1.2.3.4"
    = Some (net.Addr6 [0; 0; 0; 0; 0; 0; 0; 0; 0; 0; 255; 255; 1; 2; 3; 4]%N "")
  ∧ parser.canonical_of "::ffff:1.2.3.4" = Some "1.2.3.4/32".
Proof. vm_compute. repeat split. Qed.
(** * The rest of the packages *)

(** ** Package [normalizer]: what [Normalize] keeps *)

Section normalizer_more.
Import net normalizer.

Lemma strict_sorted_NoDup (l : list string) : StronglySorted strorder.lt l → NoDup l.
Proof.
  induction 1 as [|a x Hx IH Ha]; constructor; [|done].
  intros Hin. rewrite Forall_forall in Ha.
  by apply (strorder_facts.lt_irrefl a), Ha.
Qed.

(** The entry the map holds for a key is the last one of the list with that
    key, or the one it held before when the list has none. *)
Lemma seen_of_foldl_last (networks : list IPNet) (seen : gmap string IPNet) k v :
  foldl (λ seen network, <[IPNet_String network := network]> seen) seen networks !! k = Some v
  ↔ (∃ l1 l2, networks = l1 ++ v :: l2 ∧ IPNet_String v = k ∧ k ∉ ToStrings l2)
    ∨ (seen !! k = Some v ∧ k ∉ ToStrings networks).
Proof.
  revert seen. induction networks as [|n networks IH]; intros seen; simpl.
  - split.
    + intros Hk. right. split; [done|]. apply not_elem_of_nil.
    + intros [(l1 & l2 & Hnil & _)|[Hk _]]; [|done]. by destruct l1.
  - rewrite IH. unfold ToStrings. csimpl. split.
    + intros [(l1 & l2 & -> & Hv & Hk)|[Hk Hnotin]].
      * left. by exists (n :: l1), l2.
      * destruct (decide (IPNet_String n = k)) as [Heq|Hne].
        -- rewrite <- Heq, lookup_insert_eq in Hk. injection Hk as ->.
           left. by exists [], networks.
        -- rewrite lookup_insert_ne in Hk by done. right. split; [done|].
           rewrite not_elem_of_cons. auto.
    + intros [(l1 & l2 & Heq & Hv & Hk)|[Hk Hnotin]].
      * destruct l1 as [|a l1]; simpl in Heq; injection Heq as -> ->.
        -- right. split; [|done]. by rewrite <- Hv, lookup_insert_eq.
        -- left. by exists l1, l2.
      * apply not_elem_of_cons in Hnotin as [Hne Hnotin]. right. split; [|done].
        by rewrite lookup_insert_ne.
Qed.

(** On a list whose canonical strings are distinct the map holds the list's
    entries and nothing else. *)
Lemma seen_of_values_distinct (y : list IPNet) :
  NoDup (ToStrings y) → (map_to_list (seen_of y)).*2 ≡ₚ y.
Proof.
  intros Hnd. apply NoDup_Permutation.
  - eapply NoDup_fmap_1, seen_of_values_NoDup.
  - by eapply NoDup_fmap_1.
  - intros v. split.
    + intros [[k v'] [-> Hkv]]%list_elem_of_fmap. apply elem_of_map_to_list in Hkv.
      by apply seen_of_lookup in Hkv as [_ ?].
    + intros Hv.
      destruct (proj2 (seen_of_key y (IPNet_String v))) as [v' Hv'].
      { unfold ToStrings. by apply list_elem_of_fmap_2. }
      pose proof Hv' as [Hkey Hin]%seen_of_lookup.
      assert (v' = v) as ->.
      { apply list_elem_of_lookup in Hin as [i Hi]. apply list_elem_of_lookup in Hv as [j Hj].
        assert (i = j) as ->; [|congruence].
        apply (NoDup_lookup (ToStrings y) i j (IPNet_String v)); [done| |];
          unfold ToStrings; rewrite list_lookup_fmap.
        - by rewrite Hi, <- Hkey.
        - by rewrite Hj. }
      apply list_elem_of_fmap. exists (IPNet_String v, v). split; [done|].
      by apply elem_of_map_to_list.
Qed.

Lemma Normalize_ordered (networks : list IPNet) :
  StronglySorted (sort.ordered IPNet_String) (Normalize networks).
Proof.
  destruct networks as [|n networks]; [constructor|].
  rewrite Normalize_cons. apply (Slice_ordered IPNet_String).
Qed.

Lemma Contains_spec (networks : list IPNet) (target : IPNet) :
  Contains networks target = true ↔ IPNet_String target ∈ ToStrings networks.
Proof.
  unfold Contains, ToStrings. rewrite existsb_exists, list_elem_of_fmap.
  split.
  - intros (n & Hin & Heq%String.eqb_eq). exists n. split; [done|]. by apply list_elem_of_In.
  - intros (n & Heq & Hin). exists n. split; [by apply list_elem_of_In|].
    by apply String.eqb_eq.
Qed.

Lemma ToStrings_concat (lists : list (list IPNet)) s :
  s ∈ ToStrings (concat lists) ↔ ∃ l, l ∈ lists ∧ s ∈ ToStrings l.
Proof.
  unfold ToStrings. induction lists as [|l0 lists IH]; simpl.
  - split; [by intros ?%elem_of_nil|]. by intros (l & ?%elem_of_nil & _).
  - rewrite fmap_app, elem_of_app, IH. split.
    + intros [Hs|(l & Hl & Hs)].
      * exists l0. split; [left|done].
      * exists l. split; [by right|done].
    + intros (l & [->|Hl]%elem_of_cons & Hs); [by left|]. right. by exists l.
Qed.
End normalizer_more.

(** X1.  Normalizing twice is normalizing once: [Normalize] returns its
    argument unchanged when that is already an output of [Normalize]. *)
Theorem Normalize_idempotent (networks : list net.IPNet) :
  normalizer.Normalize (normalizer.Normalize networks) = normalizer.Normalize networks.
Proof.
  destruct (normalizer.Normalize networks) as [|n y] eqn:Hy; [done|].
  rewrite Normalize_cons. symmetry. apply (Slice_unique net.IPNet_String).
  - apply seen_of_values_NoDup.
  - symmetry. apply seen_of_values_distinct. rewrite <- Hy.
    apply strict_sorted_NoDup, ToStrings_Normalize_strict.
  - rewrite <- Hy. apply Normalize_ordered.
Qed.

(** X2.  Of the entries that share a canonical string [Normalize] keeps the
    one that comes last in its argument, and only that one: an entry is in
    the output exactly when no later entry of the input has its string. *)
Theorem Normalize_keeps_last (networks : list net.IPNet) (n : net.IPNet) :
  n ∈ normalizer.Normalize networks
  ↔ ∃ before after,
      networks = before ++ n :: after
      ∧ net.IPNet_String n ∉ normalizer.ToStrings after.
Proof.
  destruct networks as [|n0 networks].
  - split; [by intros ?%elem_of_nil|]. intros (l1 & l2 & Hnil & _). by destruct l1.
  - rewrite Normalize_cons, (Slice_Permutation net.IPNet_String). split.
    + intros [[k v] [-> Hkv]]%list_elem_of_fmap. apply elem_of_map_to_list in Hkv.
      apply seen_of_foldl_last in Hkv as [(l1 & l2 & Heq & <- & Hk)|[Hk _]].
      * by exists l1, l2.
      * by rewrite lookup_empty in Hk.
    + intros (l1 & l2 & Heq & Hk).
      apply list_elem_of_fmap. exists (net.IPNet_String n, n). split; [done|].
      apply elem_of_map_to_list, seen_of_foldl_last. left. by exists l1, l2.
Qed.

(** X3.  [Contains] gives the same answer on a list and on its normal form:
    normalizing loses no network and adds none, networks being compared by
    their canonical strings as [Contains] does. *)
Theorem Contains_Normalize (networks : list net.IPNet) (target : net.IPNet) :
  normalizer.Contains (normalizer.Normalize networks) target
  = normalizer.Contains networks target.
Proof.
  apply eq_true_iff_eq. rewrite !Contains_spec. apply ToStrings_Normalize_elem.
Qed.

(** X4.  [Normalize] never returns more entries than it is given, and it
    returns as many exactly when the canonical strings of the input are
    pairwise distinct. *)
Theorem Normalize_length (networks : list net.IPNet) :
  (length (normalizer.Normalize networks) ≤ length networks)%nat
  ∧ (length (normalizer.Normalize networks) = length networks
     ↔ NoDup (normalizer.ToStrings networks)).
Proof.
  assert (normalizer.ToStrings (normalizer.Normalize networks)
          ⊆+ normalizer.ToStrings networks) as Hsub.
  { apply NoDup_submseteq.
    - apply strict_sorted_NoDup, ToStrings_Normalize_strict.
    - intros s. by rewrite ToStrings_Normalize_elem. }
  unfold normalizer.ToStrings in Hsub.
  pose proof (submseteq_length _ _ Hsub) as Hlen. rewrite !length_fmap in Hlen.
  split; [done|]. split.
  - intros Heq. unfold normalizer.ToStrings.
    rewrite <- (submseteq_length_Permutation _ _ Hsub).
    + apply strict_sorted_NoDup, ToStrings_Normalize_strict.
    + rewrite !length_fmap. lia.
  - intros Hnd. rewrite <- (length_fmap net.IPNet_String), <- (length_fmap net.IPNet_String networks).
    apply Permutation_length, NoDup_Permutation; [|done|].
    + apply strict_sorted_NoDup, ToStrings_Normalize_strict.
    + intros s. apply ToStrings_Normalize_elem.
Qed.

(** X5.  The canonical strings of [Merge] are those of the lists it is
    given, each once and in increasing order. *)
Theorem Merge_strings (lists : list (list net.IPNet)) :
  StronglySorted strorder.lt (normalizer.ToStrings (normalizer.Merge lists))
  ∧ ∀ s, s ∈ normalizer.ToStrings (normalizer.Merge lists)
         ↔ ∃ l, l ∈ lists ∧ s ∈ normalizer.ToStrings l.
Proof.
  split; [apply ToStrings_Normalize_strict|].
  intros s. unfold normalizer.Merge. by rewrite ToStrings_Normalize_elem, ToStrings_concat.
Qed.

(** X6.  The canonical strings [Merge] returns do not depend on the order
    in which the lists are given, nor on whether they were normalized
    before. *)
Theorem Merge_order_and_normal_forms (lists lists' : list (list net.IPNet)) :
  lists ≡ₚ lists' →
  normalizer.ToStrings (normalizer.Merge lists')
  = normalizer.ToStrings (normalizer.Merge lists)
  ∧ normalizer.ToStrings (normalizer.Merge (normalizer.Normalize <$> lists'))
    = normalizer.ToStrings (normalizer.Merge lists).
Proof.
  intros Hperm. split; apply ToStrings_Normalize_ext; intros s; rewrite !ToStrings_concat.
  - by setoid_rewrite Hperm.
  - split.
    + intros (l & (l0 & -> & Hl0)%list_elem_of_fmap & Hs).
      exists l0. rewrite Hperm. split; [done|]. by apply ToStrings_Normalize_elem.
    + intros (l & Hl & Hs). exists (normalizer.Normalize l). split.
      * apply list_elem_of_fmap_2. by rewrite <- Hperm.
      * by apply ToStrings_Normalize_elem.
Qed.

Lemma Merge_order_and_normal_forms_witness :
  let a := {| net.IP := [10; 0; 0; 0]%N; net.Mask := [255; 0; 0; 0]%N |} in
  let b := {| net.IP := [192; 168; 1; 1]%N; net.Mask := [255; 255; 255; 255]%N |} in
  [[b; a]; [a]] ≡ₚ [[a]; [b; a]]
  ∧ normalizer.ToStrings (normalizer.Merge [[a]; [b; a]])
    = normalizer.ToStrings (normalizer.Merge [[b; a]; [a]])
  ∧ normalizer.ToStrings (normalizer.Merge (normalizer.Normalize <$> [[a]; [b; a]]))
    = normalizer.ToStrings (normalizer.Merge [[b; a]; [a]]).
Proof.
  intros a b.
  assert ([[b; a]; [a]] ≡ₚ [[a]; [b; a]]) as Hperm by apply perm_swap.
  split; [exact Hperm|]. exact (Merge_order_and_normal_forms _ _ Hperm).
Defined.

(** ** Packages [net] and [parser]: texts that are no address *)

Section slash_facts.
Import net.

Local Abbreviation has_slash s := (gostrings.Contains s "/").

Lemma is_digit_not_slash c : is_digit c = true → Ascii.eqb "/" c = false.
Proof. destruct (Ascii.eqb_spec "/" c) as [<-|]; [by vm_compute|done]. Qed.

Lemma hex_val_not_slash c d : hex_val c = Some d → Ascii.eqb "/" c = false.
Proof. destruct (Ascii.eqb_spec "/" c) as [<-|]; [by vm_compute|done]. Qed.

Lemma parseIPv4Fields_no_slash s first prevDot val digLen pos fields out :
  parseIPv4Fields s first prevDot val digLen pos fields = Some out → has_slash s = false.
Proof.
  revert first prevDot val digLen pos fields.
  induction s as [|c rest IH]; intros first prevDot val digLen pos fields; [done|].
  cbn [parseIPv4Fields gostrings.Contains].
  destruct (is_digit c) eqn:Hd.
  - rewrite (is_digit_not_slash c Hd). repeat case_match; try done. apply IH.
  - destruct (Ascii.eqb_spec c ".") as [->|]; [|done].
    repeat case_match; try done. apply IH.
Qed.

Lemma hex_group_slash s off acc off' acc' rest :
  hex_group s off acc = Some (off', acc', rest) → has_slash s = has_slash rest.
Proof.
  revert off acc. induction s as [|c s IH]; intros off acc; cbn [hex_group].
  - by intros [= <- <- <-].
  - destruct (hex_val c) as [d|] eqn:Hc; [|by intros [= <- <- <-]].
    repeat case_match; try done. intros Hg. cbn [gostrings.Contains].
    rewrite (hex_val_not_slash c d Hc). by apply IH in Hg.
Qed.

Lemma parseIPv6_loop_slash fuel s ip ell s' ip' ell' :
  parseIPv6_loop fuel s ip ell = Some (s', ip', ell') →
  has_slash s = true → has_slash s' = true.
Proof.
  revert s ip ell. induction fuel as [|fuel IH]; intros s ip ell; cbn [parseIPv6_loop].
  { by intros [= <- <- <-]. }
  destruct (16 <=? length ip)%nat; [by intros [= <- <- <-]|].
  destruct (hex_group s 0 0) as [[[off acc] rest]|] eqn:Hg; [|done].
  cbn [mbind option_bind]. rewrite (hex_group_slash _ _ _ _ _ _ Hg).
  destruct (off =? 0)%nat; [done|].
  destruct (gostrings.HasPrefix rest ".").
  { repeat case_match; try done.
    destruct (parseIPv4Fields s true false 0 0%nat 0%nat []) as [fields|] eqn:Hf; [|done].
    apply parseIPv4Fields_no_slash in Hf.
    rewrite <- (hex_group_slash _ _ _ _ _ _ Hg). congruence. }
  destruct rest as [|c rest1]; [by intros [= <- <- <-]|].
  destruct (Ascii.eqb_spec c ":") as [->|]; [|done]. cbn [negb gostrings.Contains orb Ascii.eqb].
  destruct rest1 as [|c1 rest2]; [done|].
  destruct (Ascii.eqb_spec c1 ":") as [->|]; [|by apply IH].
  destruct (bool_decide (ell = None)); [|done].
  destruct (String.eqb rest2 "") eqn:He.
  - apply String.eqb_eq in He as ->. by intros [= <- <- <-].
  - intros Hloop Hs. by apply (IH _ _ _ Hloop).
Qed.

Lemma Cut_Contains s sep :
  gostrings.Contains s sep = bool_decide (is_Some (gostrings.Cut s sep)).
Proof.
  induction s as [|d s IH]; [done|]. cbn [gostrings.Contains gostrings.Cut].
  destruct (Ascii.eqb sep d); [done|]. rewrite IH. simpl.
  by destruct (gostrings.Cut s sep) as [[? ?]|].
Qed.

(** A text with a slash that [parseIPv6] accepts has a zone. *)
Lemma parseIPv6_slash s a : parseIPv6 s = Some a → has_slash s = true → Zone a ≠ "".
Proof.
  unfold parseIPv6. intros Hp Hs.
  destruct (gostrings.Cut s "%") as [[s0 zone]|] eqn:Hcut.
  - destruct (String.eqb zone "") eqn:Hz; [done|]. apply String.eqb_neq in Hz.
    cbn [mbind option_bind] in Hp.
    destruct (match s0 with
              | String c (String c' s') =>
                  if Ascii.eqb c ":" && Ascii.eqb c' ":" then (Some 0%nat, s') else (None, s0)
              | _ => (None, s0)
              end) as [ell0 s1].
    destruct (bool_decide (ell0 = Some 0%nat) && String.eqb s1 ""); [by injection Hp as <-|].
    destruct (parseIPv6_loop 9 s1 [] ell0) as [[[s2 ip] ell]|]; [|done].
    cbn [mbind option_bind] in Hp.
    destruct (negb (String.eqb s2 "")); [done|].
    destruct (length ip <? 16)%nat.
    + destruct ell as [e|]; [|done]. by injection Hp as <-.
    + destruct ell; [done|]. by injection Hp as <-.
  - cbn [mbind option_bind] in Hp. exfalso.
    assert (∃ ell0 s1,
              match s with
              | String c (String c' s') =>
                  if Ascii.eqb c ":" && Ascii.eqb c' ":" then (Some 0%nat, s') else (None, s)
              | _ => (None, s)
              end = (ell0, s1) ∧ has_slash s1 = true) as (ell0 & s1 & Heq & Hs1).
    { destruct s as [|c [|c' s']]; [done|by exists None, (String c "")|].
      destruct (Ascii.eqb_spec c ":") as [->|]; [|by exists None, (String c (String c' s'))].
      destruct (Ascii.eqb_spec c' ":") as [->|]; [|by exists None, (String ":" (String c' s'))].
      by exists (Some 0%nat), s'. }
    rewrite Heq in Hp.
    destruct (bool_decide (ell0 = Some 0%nat) && String.eqb s1 "") eqn:He.
    { apply andb_true_iff in He as [_ ->%String.eqb_eq]. done. }
    destruct (parseIPv6_loop 9 s1 [] ell0) as [[[s2 ip] ell]|] eqn:Hloop; [|done].
    cbn [mbind option_bind] in Hp.
    apply (parseIPv6_loop_slash _ _ _ _ _ _ _ Hloop) in Hs1.
    destruct (String.eqb s2 "") eqn:H2; [|done].
    apply String.eqb_eq in H2 as ->. done.
Qed.

Lemma ParseAddr_scan_slash s rest a :
  ParseAddr_scan s rest = Some a → has_slash s = true → Zone a ≠ "".
Proof.
  induction rest as [|c rest IH]; simpl; [done|].
  destruct (Ascii.eqb c ".").
  { unfold parseIPv4.
    destruct (parseIPv4Fields s true false 0 0%nat 0%nat []) as [fields|] eqn:Hf; [|done].
    apply parseIPv4Fields_no_slash in Hf. congruence. }
  destruct (Ascii.eqb c ":"); [apply parseIPv6_slash|].
  by destruct (Ascii.eqb c "%").
Qed.

(** [net.ParseIP] accepts no text with a slash. *)
Lemma ParseIP_slash s : has_slash s = true → ParseIP s = [].
Proof.
  intros Hs. unfold ParseIP, parseIP.
  destruct (ParseAddr s) as [a|] eqn:Ha; [|done]. cbn [mbind option_bind].
  apply ParseAddr_scan_slash in Ha; [|done].
  by destruct (String.eqb_spec (Zone a) "").
Qed.

(** [net.ParseCIDR] accepts no text without one. *)
Lemma ParseCIDR_no_slash s : has_slash s = false → ParseCIDR s = None.
Proof.
  rewrite Cut_Contains. unfold ParseCIDR.
  destruct (gostrings.Cut s "/") as [[? ?]|]; [|done].
  intros Hs. apply bool_decide_eq_false in Hs. by destruct Hs.
Qed.
End slash_facts.

Lemma from_string_network_of (result : list net.IPNet) (s : string) :
  normalizer.from_string result (gostrings.TrimSpace s)
  = result ++ option_list (parser.network_of s).
Proof.
  unfold normalizer.from_string, parser.network_of, parser.parseIPOrCIDR.
  destruct (gostrings.Contains (gostrings.TrimSpace s) "/") eqn:Hs.
  - destruct (net.ParseCIDR (gostrings.TrimSpace s)) as [[? ipnet]|]; [done|].
    rewrite (ParseIP_slash _ Hs). simpl. by rewrite app_nil_r.
  - rewrite (ParseCIDR_no_slash _ Hs).
    destruct (length (net.ParseIP (gostrings.TrimSpace s)) =? 0)%nat; [|done].
    simpl. by rewrite app_nil_r.
Qed.

(** X7.  [parseIPOrCIDR] accepts a text exactly when the text without its
    surrounding white space is a valid address or a valid CIDR block, and no
    text is both: looking for a slash to choose between [net.ParseCIDR] and
    [net.ParseIP] rejects nothing that the other function would accept. *)
Theorem parseIPOrCIDR_accepts (s : string) :
  is_Ok (parser.parseIPOrCIDR s)
  = (parser.isValidIP (gostrings.TrimSpace s) || parser.isValidCIDR (gostrings.TrimSpace s))
  ∧ ∀ t, parser.isValidIP t && parser.isValidCIDR t = false.
Proof.
  split.
  - unfold parser.parseIPOrCIDR, parser.isValidIP, parser.isValidCIDR.
    destruct (gostrings.Contains (gostrings.TrimSpace s) "/") eqn:Hs.
    + rewrite (ParseIP_slash _ Hs). simpl.
      by destruct (net.ParseCIDR (gostrings.TrimSpace s)) as [[? ?]|].
    + rewrite (ParseCIDR_no_slash _ Hs). simpl.
      rewrite orb_false_r.
      by destruct (length (net.ParseIP (gostrings.TrimSpace s)) =? 0)%nat.
  - intros t. unfold parser.isValidIP, parser.isValidCIDR.
    destruct (gostrings.Contains t "/") eqn:Ht.
    + by rewrite (ParseIP_slash _ Ht).
    + rewrite (ParseCIDR_no_slash _ Ht). apply andb_false_r.
Qed.

(** X8.  [FromStrings] never returns an error: it drops the texts that do
    not parse, and for texts without surrounding white space it returns, in
    order, the networks that [parseIPOrCIDR] gives for them, although it
    tries [net.ParseCIDR] before it looks at the text. *)
Theorem FromStrings_parses_like_feeds (strs : list string) :
  normalizer.FromStrings (gostrings.TrimSpace <$> strs)
  = (omap parser.network_of strs, None).
Proof.
  unfold normalizer.FromStrings. f_equal.
  assert (∀ result,
            foldl normalizer.from_string result (gostrings.TrimSpace <$> strs)
            = result ++ omap parser.network_of strs) as Hfold; [|apply Hfold].
  induction strs as [|s strs IH]; intros result; csimpl.
  - by rewrite app_nil_r.
  - rewrite IH, from_string_network_of, <- app_assoc.
    by destruct (parser.network_of s).
Qed.

(** ** Package [parser]: the two line formats *)

Section trim_facts.
Import gostrings.

Lemma strip_prefix_head r b l : b ∉ r → r ≠ [] → strip_prefix r (b :: l) = None.
Proof.
  intros Hb Hr. destruct r as [|a r]; [done|]. unfold strip_prefix. simpl.
  apply not_elem_of_cons in Hb as [Hne _].
  rewrite bool_decide_eq_false_2; [done|]. intros [= ? _]. done.
Qed.

Lemma strip_prefix_snoc r x b :
  b ∉ r → r ≠ [] → strip_prefix r (x ++ [b]) = (λ y, y ++ [b]) <$> strip_prefix r x.
Proof.
  intros Hb Hr. unfold strip_prefix.
  destruct (decide (length r ≤ length x)%nat) as [Hle|Hgt].
  - rewrite take_app_le, drop_app_le by done.
    by destruct (bool_decide (take (length r) x = r)).
  - rewrite (take_ge x), (take_ge (x ++ [b])) by (rewrite ?length_app; simpl; lia).
    rewrite !bool_decide_eq_false_2; [done| |].
    + intros <-. lia.
    + intros <-. apply Hb, elem_of_app. right. by left.
Qed.

Lemma trim_left_head fuel runes b l :
  Forall (λ r, (b ∉ r) ∧ r ≠ []) runes → trim_left fuel runes (b :: l) = b :: l.
Proof.
  intros Hrunes. destruct fuel as [|fuel]; [done|]. cbn [trim_left].
  assert (omap (λ r, strip_prefix r (b :: l)) runes = []) as ->; [|done].
  induction Hrunes as [|r runes [Hb Hr] _ IH]; [done|]. csimpl.
  rewrite (strip_prefix_head r b l Hb Hr). exact IH.
Qed.

Lemma head_strip_snoc runes x b :
  Forall (λ r, (b ∉ r) ∧ r ≠ []) runes →
  head (omap (λ r, strip_prefix r (x ++ [b])) runes)
  = (λ y, y ++ [b]) <$> head (omap (λ r, strip_prefix r x) runes).
Proof.
  induction 1 as [|r runes [Hb Hr] _ IH]; [done|]. csimpl.
  rewrite (strip_prefix_snoc r x b Hb Hr).
  destruct (strip_prefix r x); [done|]. exact IH.
Qed.

Lemma trim_left_snoc fuel runes x b :
  Forall (λ r, (b ∉ r) ∧ r ≠ []) runes →
  trim_left fuel runes (x ++ [b]) = trim_left fuel runes x ++ [b].
Proof.
  intros Hrunes. revert x. induction fuel as [|fuel IH]; intros x; [done|]. cbn [trim_left].
  rewrite (head_strip_snoc runes x b Hrunes).
  destruct (head (omap (λ r, strip_prefix r x) runes)); simpl; [apply IH|done].
Qed.

Lemma trim_right_head b l : no_space_byte b → ∃ l', trim_right (b :: l) = b :: l'.
Proof.
  intros Hb. unfold trim_right. rewrite reverse_cons, trim_left_snoc.
  - rewrite reverse_app, reverse_singleton. eexists. reflexivity.
  - rewrite Forall_fmap. eapply Forall_impl; [exact Hb|].
    intros r [Hin Hr]. split.
    + intros Hrev. apply Hin. by apply elem_of_reverse.
    + intros Hrev. apply Hr. by rewrite <- (reverse_involutive r), Hrev.
Qed.

Lemma bytes_of_string_cons c s :
  bytes_of_string (String c s) = N_of_ascii c :: bytes_of_string s.
Proof. reflexivity. Qed.

Lemma string_of_bytes_cons b l :
  string_of_bytes (b :: l) = String (ascii_of_N b) (string_of_bytes l).
Proof. reflexivity. Qed.

Lemma TrimSpace_eq s :
  TrimSpace s
  = string_of_bytes (trim_right (trim_left (length (bytes_of_string s)) space_runes
                                           (bytes_of_string s))).
Proof. reflexivity. Qed.

(** [TrimSpace] keeps the first byte of a text when that byte is part of no
    space rune. *)
Lemma TrimSpace_first c s :
  no_space_byte (N_of_ascii c) → ∃ s', TrimSpace (String c s) = String c s'.
Proof.
  intros Hc. rewrite TrimSpace_eq, bytes_of_string_cons, trim_left_head by exact Hc.
  destruct (trim_right_head (N_of_ascii c) (bytes_of_string s) Hc) as [l' ->].
  rewrite string_of_bytes_cons, ascii_N_embedding. eexists. reflexivity.
Qed.

Lemma semicolon_no_space : no_space_byte (N_of_ascii ";").
Proof. unfold no_space_byte. apply (bool_decide_unpack _). vm_compute. exact I. Qed.

Lemma hash_no_space : no_space_byte (N_of_ascii "#").
Proof. unfold no_space_byte. apply (bool_decide_unpack _). vm_compute. exact I. Qed.

Lemma slash_no_space : no_space_byte (N_of_ascii "/").
Proof. unfold no_space_byte. apply (bool_decide_unpack _). vm_compute. exact I. Qed.
End trim_facts.

Section comment_lines.
Import net.

(** No address starts with a semicolon or a hash sign. *)
Lemma ParseAddr_scan_comment c s rest :
  c = ";"%char ∨ c = "#"%char → ParseAddr_scan (String c s) rest = None.
Proof.
  intros [-> | ->].
  all: induction rest as [|c rest IH]; simpl; [done|].
  all: destruct (Ascii.eqb c "."); [done|].
  all: destruct (Ascii.eqb c ":"); [|by destruct (Ascii.eqb c "%")].
  all: unfold parseIPv6; cbn [gostrings.Cut].
  1: change (Ascii.eqb "%" ";") with false. 2: change (Ascii.eqb "%" "#") with false.
  all: cbv iota.
  all: destruct (gostrings.Cut s "%") as [[before zone]|]; cbn [mbind option_bind];
    [|by destruct s].
  all: destruct (String.eqb zone ""); [done|]; cbn [mbind option_bind].
  all: by destruct before.
Qed.

Lemma ParseAddr_comment c s : c = ";"%char ∨ c = "#"%char → ParseAddr (String c s) = None.
Proof. apply ParseAddr_scan_comment. Qed.

(** A line that starts with a semicolon, a hash sign or a slash is no
    entry. *)
Lemma parseIPOrCIDR_comment c s :
  c = ";"%char ∨ c = "#"%char ∨ c = "/"%char → parser.network_of (String c s) = None.
Proof.
  intros Hc. unfold parser.network_of, parser.parseIPOrCIDR.
  destruct (TrimSpace_first c s) as [s' ->].
  { destruct Hc as [->|[->| ->]];
      [apply semicolon_no_space|apply hash_no_space|apply slash_no_space]. }
  assert (c = "/"%char ∨ (c = ";"%char ∨ c = "#"%char)) as [->|Hc'] by tauto; [done|].
  destruct (gostrings.Contains (String c s') "/").
  - unfold ParseCIDR. cbn [gostrings.Cut].
    assert (Ascii.eqb "/" c = false) as -> by (by destruct Hc' as [-> | ->]).
    destruct (gostrings.Cut s' "/") as [[before mask]|]; cbn [mbind option_bind]; [|done].
    by rewrite ParseAddr_comment.
  - unfold ParseIP, parseIP. by rewrite ParseAddr_comment.
Qed.

(** A turn of either loop adds the entry the line parses to, if any: the
    tests for empty lines and comments change nothing. *)
Lemma plain_line_network_of (networks : list IPNet) (text : string) :
  parser.plain_line networks text
  = networks ++ option_list (parser.network_of (gostrings.TrimSpace text)).
Proof.
  unfold parser.plain_line.
  destruct (String.eqb_spec (gostrings.TrimSpace text) "") as [->|_].
  { by rewrite app_nil_r. }
  destruct (gostrings.HasPrefix (gostrings.TrimSpace text) "#"
            || (gostrings.HasPrefix (gostrings.TrimSpace text) ";"
                || gostrings.HasPrefix (gostrings.TrimSpace text) "//")) eqn:Hcomment.
  - rewrite orb_assoc in Hcomment. rewrite Hcomment.
    assert (parser.network_of (gostrings.TrimSpace text) = None) as ->.
    { destruct (gostrings.TrimSpace text) as [|c line]; [done|].
      apply parseIPOrCIDR_comment. unfold gostrings.HasPrefix in Hcomment. cbn [String.prefix] in Hcomment.
      destruct (ascii_dec "#" c) as [<-|]; [tauto|].
      destruct (ascii_dec ";" c) as [<-|]; [tauto|].
      destruct (ascii_dec "/" c) as [<-|]; [tauto|]. done. }
    by rewrite app_nil_r.
  - rewrite orb_assoc in Hcomment. rewrite Hcomment.
    unfold parser.network_of. by destruct (parser.parseIPOrCIDR _); rewrite ?app_nil_r.
Qed.

Lemma netset_line_network_of (networks : list IPNet) (text : string) :
  parser.netset_line networks text
  = networks ++ option_list (parser.network_of (gostrings.TrimSpace text)).
Proof.
  unfold parser.netset_line.
  destruct (String.eqb_spec (gostrings.TrimSpace text) "") as [->|_].
  { by rewrite app_nil_r. }
  destruct (gostrings.HasPrefix (gostrings.TrimSpace text) "#") eqn:Hcomment.
  - assert (parser.network_of (gostrings.TrimSpace text) = None) as ->.
    { destruct (gostrings.TrimSpace text) as [|c line]; [done|].
      apply parseIPOrCIDR_comment. unfold gostrings.HasPrefix in Hcomment. cbn [String.prefix] in Hcomment.
      destruct (ascii_dec "#" c) as [<-|]; [tauto|]. done. }
    by rewrite app_nil_r.
  - unfold parser.network_of. by destruct (parser.parseIPOrCIDR _); rewrite ?app_nil_r.
Qed.

Lemma foldl_network_of (turn : list IPNet → string → list IPNet) (tokens : list string) :
  (∀ networks text,
     turn networks text
     = networks ++ option_list (parser.network_of (gostrings.TrimSpace text))) →
  ∀ networks,
    foldl turn networks tokens
    = networks ++ omap (λ text, parser.network_of (gostrings.TrimSpace text)) tokens.
Proof.
  intros Hturn. induction tokens as [|t tokens IH]; intros networks; csimpl.
  - by rewrite app_nil_r.
  - rewrite IH, Hturn, <- app_assoc.
    by destruct (parser.network_of (gostrings.TrimSpace t)).
Qed.
End comment_lines.

(** X9.  The two parsers read every feed alike: a line that starts with a
    semicolon or with two slashes, which only [PlainParser.parseBody] skips
    as a comment, is no address and no CIDR block, so that
    [NetsetParser.parseBody] drops it as an invalid line.  The two [Parse]
    methods thus return the same result for every feed and every answer of
    the network. *)
Theorem plain_and_netset_agree {Net : Type} (Do : Net → http.Request → http.Outcome * Net)
    (body : bufio.Reader) (w : Net) (feedConfig : config.FeedConfig) :
  parser.PlainParser_parseBody body = parser.NetsetParser_parseBody body
  ∧ parser.Parse (parser.PlainParser Do) w feedConfig
    = parser.Parse (parser.NetsetParser Do) w feedConfig.
Proof.
  assert (∀ body, parser.PlainParser_parseBody body = parser.NetsetParser_parseBody body)
    as Hbody.
  { clear. intros body.
    unfold parser.PlainParser_parseBody, parser.NetsetParser_parseBody, parser.parseBody.
    destruct (bufio.Scan body) as [tokens scan_err].
    by rewrite (foldl_network_of _ _ plain_line_network_of),
               (foldl_network_of _ _ netset_line_network_of). }
  split; [apply Hbody|]. simpl. unfold parser.fetch_and_parse.
  destruct (Do w _) as [[e|e|resp] w']; try done.
  by rewrite Hbody.
Qed.

(** X11.  [parseBody], of either parser, returns entries exactly when the
    reading of the body ended without error and at least one line parses;
    the entries are then what the lines of the body, without their
    surrounding white space, parse to, in the order of the lines.  Empty
    lines and comments need no case of their own in this: they parse to
    nothing. *)
Theorem parseBody_entries (body : bufio.Reader) (networks : list net.IPNet) :
  let entries :=
    omap (λ text, parser.network_of (gostrings.TrimSpace text)) (bufio.Scan body).1 in
  (parser.PlainParser_parseBody body = Ok networks
   ↔ (bufio.Scan body).2 = false ∧ networks ≠ [] ∧ networks = entries)
  ∧ (parser.NetsetParser_parseBody body = Ok networks
     ↔ (bufio.Scan body).2 = false ∧ networks ≠ [] ∧ networks = entries).
Proof.
  assert (∀ turn,
            (∀ networks text,
               turn networks text
               = networks ++ option_list (parser.network_of (gostrings.TrimSpace text))) →
            parser.parseBody turn body = Ok networks
            ↔ (bufio.Scan body).2 = false ∧ networks ≠ []
              ∧ networks = omap (λ text, parser.network_of (gostrings.TrimSpace text))
                             (bufio.Scan body).1) as Hturn.
  { intros turn Hturn. unfold parser.parseBody.
    destruct (bufio.Scan body) as [tokens scan_err]. cbn [fst snd].
    rewrite (foldl_network_of _ _ Hturn). cbn [app].
    destruct scan_err.
    { split; [done|]. by intros [? _]. }
    destruct (omap _ tokens) as [|n entries] eqn:Hentries; cbn [length Nat.eqb].
    - split; [done|]. intros (_ & Hne & ->). done.
    - split.
      + intros [= <-]. done.
      + by intros (_ & _ & ->). }
  split.
  - apply Hturn, plain_line_network_of.
  - apply Hturn, netset_line_network_of.
Qed.

(** ** Package [parser]: what the entries of a feed look like *)

Section entry_facts.
Import net.
Local Open Scope N_scope.

Lemma isZeros_fill k : isZeros (CIDRMask_fill k 0) = true.
Proof. induction k as [|k IH]; [done|]. simpl. exact IH. Qed.

(** A mask of [l] ones followed by zeros has the simple length [l]. *)
Lemma simpleMaskLength_fill k l :
  (0 ≤ l ≤ 8 * Z.of_nat k)%Z → simpleMaskLength (CIDRMask_fill k l) = l.
Proof.
  revert l. induction k as [|k IH]; intros l Hl.
  - simpl. lia.
  - cbn [CIDRMask_fill]. destruct (8 <=? l)%Z eqn:Hfull.
    + cbn [simpleMaskLength]. change (255 =? 255) with true. cbv iota.
      rewrite IH by lia. destruct (l - 8)%Z as [|p|p] eqn:Hp; lia.
    + assert (l = 0 ∨ l = 1 ∨ l = 2 ∨ l = 3 ∨ l = 4 ∨ l = 5 ∨ l = 6 ∨ l = 7)%Z
        as Hcases by lia.
      cbn [simpleMaskLength].
      destruct Hcases as [->|[->|[->|[->|[->|[->|[->| ->]]]]]]];
        cbn; by rewrite isZeros_fill.
Qed.

Lemma To4_length_cases ip : length (To4 ip) = 0%nat ∨ length (To4 ip) = 4%nat.
Proof.
  unfold To4. destruct (length ip =? IPv4len)%nat eqn:H4.
  - right. by apply Nat.eqb_eq in H4.
  - destruct (length ip =? IPv6len)%nat eqn:H6; [|by left].
    apply Nat.eqb_eq in H6. destruct (_ && _); [|by left].
    right. rewrite length_drop, H6. done.
Qed.

Lemma networkNumberAndMask_length n nn m :
  networkNumberAndMask n = Some (nn, m) → length nn = 4%nat ∨ length nn = 16%nat.
Proof.
  unfold networkNumberAndMask.
  destruct (To4_length_cases (IP n)) as [Hlen|Hlen]; rewrite Hlen; cbn [Nat.eqb negb].
  - destruct (length (IP n) =? IPv6len)%nat eqn:H6; [|done]. apply Nat.eqb_eq in H6.
    cbn [negb mbind option_bind]. repeat case_match; try done; intros [= <- _]; by right.
  - cbn [mbind option_bind]. repeat case_match; try done; intros [= <- _]; by left.
Qed.
End entry_facts.

(** X10.  A network that [parseIPOrCIDR] returns prints as an address, a
    slash and a decimal prefix length, never as [<nil>] or with a mask in
    hexadecimal: its network number has 4 or 16 bytes, its prefix is not
    longer than the number, and the bits of the number after the prefix are
    zero. *)
Theorem parsed_network_string (s : string) (n : net.IPNet) :
  parser.parseIPOrCIDR s = Ok n →
  ∃ nn l,
    (length nn = 4 ∨ length nn = 16)%nat
    ∧ net.canonical_network nn l
    ∧ net.IPNet_String n = net.IP_String nn +:+ "/" +:+ net.uitoa (Z.to_N l).
Proof.
  intros (nn & l & Hn & Hc)%parseIPOrCIDR_canonical. exists nn, l.
  split; [by eapply networkNumberAndMask_length|]. split; [done|].
  unfold net.IPNet_String. rewrite Hn.
  destruct Hc as (Hl & _). rewrite simpleMaskLength_fill by done.
  destruct (l =? -1)%Z eqn:Hneg; [lia|done].
Qed.

Lemma parsed_network_string_witness :
  let n := {| net.IP := [10; 0; 0; 0]%N; net.Mask := [255; 0; 0; 0]%N |} in
  parser.parseIPOrCIDR " 10.1.2.3/8 " = Ok n
  ∧ ∃ nn l,
      (length nn = 4 ∨ length nn = 16)%nat
      ∧ net.canonical_network nn l
      ∧ net.IPNet_String n = net.IP_String nn +:+ "/" +:+ net.uitoa (Z.to_N l).
Proof.
  intros n.
  assert (parser.parseIPOrCIDR " 10.1.2.3/8 " = Ok n) as Hparse by (vm_compute; reflexivity).
  split; [exact Hparse|]. exact (parsed_network_string _ _ Hparse).
Defined.

(** ** Package [parser]: the registry *)

(** X12.  [Get] returns the parser last registered under the name, and the
    parsers of the other names are as before; registering under a name
    that is taken replaces the parser.  [List] names exactly the names for
    which [Get] succeeds, each once. *)
Theorem Register_Get {Net : Type} (p : @parser.Parser Net)
    (registry : gmap string parser.Parser) :
  (∀ name, parser.Get (parser.Register p registry) name
           = if decide (name = parser.Name p) then Ok p else parser.Get registry name)
  ∧ (∀ q, parser.Name q = parser.Name p →
          parser.Register p (parser.Register q registry) = parser.Register p registry)
  ∧ NoDup (parser.List registry)
  ∧ (∀ name, name ∈ parser.List registry ↔ is_Ok (parser.Get registry name) = true).
Proof.
  unfold parser.Get, parser.Register, parser.List. repeat split.
  - intros name. destruct (decide (name = parser.Name p)) as [->|Hne].
    + by rewrite lookup_insert_eq.
    + by rewrite lookup_insert_ne.
  - intros q ->. apply insert_insert_eq.
  - apply NoDup_fst_map_to_list.
  - intros [[k q] [-> Hkq]]%list_elem_of_fmap. apply elem_of_map_to_list in Hkq.
    simpl. by rewrite Hkq.
  - destruct (registry !! name) as [q|] eqn:Hq; [|done]. intros _.
    apply list_elem_of_fmap. exists (name, q). split; [done|].
    by apply elem_of_map_to_list.
Qed.

(** ** Package [sync]: what a cycle sends *)

Section requests.
Context {Net : Type} (send : Net → http.Request → http.Outcome * Net).
Local Abbreviation Do := (recorded.Do send).
Local Abbreviation registry := (parser.registry0 Do).

(** The parsers the program starts with. *)
Lemma Get_registry0 (name : string) :
  parser.Get registry name
  = if decide (name = "plain") then Ok (parser.PlainParser Do)
    else if decide (name = "netset") then Ok (parser.NetsetParser Do)
    else Err (New ("unknown parser: " +:+ name)).
Proof.
  unfold parser.Get, parser.registry0, parser.Register. simpl.
  destruct (decide (name = "plain")) as [->|Hplain]; [by rewrite lookup_insert_eq|].
  rewrite lookup_insert_ne by done.
  destruct (decide (name = "netset")) as [->|Hnetset]; [by rewrite lookup_insert_eq|].
  by rewrite lookup_insert_ne, lookup_empty.
Qed.

Lemma fetch_and_parse_request parseBody (w : Net) (log : list http.Request)
    (feedConfig : config.FeedConfig) :
  (parser.fetch_and_parse Do parseBody (w, log) feedConfig).2.2
  = log ++ [recorded.feed_request feedConfig].
Proof.
  unfold parser.fetch_and_parse, recorded.Do. cbn [fst snd].
  fold (recorded.feed_request feedConfig).
  destruct (send w (recorded.feed_request feedConfig)) as [[e|e|resp] w']; try done.
  by destruct (negb _).
Qed.

Lemma fetch_feed_request (acc : list net.IPNet) (w : Net) (log : list http.Request)
    (feedConfig : config.FeedConfig) :
  (sync.fetch_feed registry (acc, (w, log)) feedConfig).2.2
  = log ++ if decide (config.Parser feedConfig = "plain" ∨ config.Parser feedConfig = "netset")
           then [recorded.feed_request feedConfig] else [].
Proof.
  unfold sync.fetch_feed. rewrite Get_registry0.
  assert (∀ parseBody,
            (let '(r, w') := parser.fetch_and_parse Do parseBody (w, log) feedConfig in
             match r with Err _ => (acc, w') | Ok networks => (acc ++ networks, w') end).2.2
            = log ++ [recorded.feed_request feedConfig]) as Hparse.
  { intros parseBody. pose proof (fetch_and_parse_request parseBody w log feedConfig) as Hreq.
    by destruct (parser.fetch_and_parse _ _ _ _) as [[networks|e] w']. }
  destruct (decide (config.Parser feedConfig = "plain")) as [Hplain|Hplain].
  { rewrite decide_True by auto. apply Hparse. }
  destruct (decide (config.Parser feedConfig = "netset")) as [Hnetset|Hnetset].
  { rewrite decide_True by auto. apply Hparse. }
  rewrite decide_False by tauto. simpl. by rewrite app_nil_r.
Qed.

Lemma foldl_fetch_feed_requests (feeds : list config.FeedConfig) (acc : list net.IPNet)
    (w : Net) (log : list http.Request) :
  (foldl (sync.fetch_feed registry) (acc, (w, log)) feeds).2.2
  = log ++ (recorded.feed_request
              <$> filter (λ feed, config.Parser feed = "plain" ∨ config.Parser feed = "netset")
                         feeds).
Proof.
  revert acc w log. induction feeds as [|feed feeds IH]; intros acc w log.
  { simpl. by rewrite app_nil_r. }
  cbn [foldl]. pose proof (fetch_feed_request acc w log feed) as Hfeed.
  destruct (sync.fetch_feed registry (acc, (w, log)) feed) as [acc' [w' log']].
  cbn [fst snd] in Hfeed. rewrite IH, Hfeed, <- app_assoc. f_equal.
  destruct (decide (config.Parser feed = "plain" ∨ config.Parser feed = "netset")).
  - by rewrite filter_cons_True.
  - by rewrite filter_cons_False.
Qed.
End requests.

(** X13.  With the two parsers the program registers, [fetchAllFeeds] sends
    one GET for each enabled feed whose parser is [plain] or [netset], to
    the URL of the feed and in the order of the configuration, and nothing
    else: a feed that is disabled, or whose parser has another name, causes
    no request, and no feed is asked twice. *)
Theorem fetchAllFeeds_requests {Net H : Type} (send : Net → http.Request → http.Outcome * Net)
    (s : sync.Syncer H) (w : Net) (log : list http.Request) :
  (sync.fetchAllFeeds (parser.registry0 (recorded.Do send)) s (w, log)).2.2
  = log ++ (recorded.feed_request
              <$> filter (λ feed, config.Parser feed = "plain" ∨ config.Parser feed = "netset")
                         (config.GetEnabled (config.Feeds (sync.config s)))).
Proof.
  unfold sync.fetchAllFeeds.
  pose proof (foldl_fetch_feed_requests send
                (config.GetEnabled (config.Feeds (sync.config s))) [] w log) as Hfold.
  by destruct (foldl _ _ _) as [acc [w' log']].
Qed.

(** ** Package [config] *)

Section config_facts.
Import config.

Lemma EnabledCount_foldl (f : list FeedConfig) (count : Z) :
  foldl (λ count feed, if Enabled feed then count + 1 else count)%Z count f
  = (count + Z.of_nat (length (GetEnabled f)))%Z.
Proof.
  revert count. induction f as [|feed f IH]; intros count; [simpl; lia|].
  cbn [foldl]. rewrite IH. unfold GetEnabled. destruct (Enabled feed) eqn:He.
  - rewrite filter_cons_True by done. simpl. lia.
  - rewrite filter_cons_False by (by rewrite He). done.
Qed.

(** The loop of [Validate] passes exactly when every enabled feed has a
    name, a parser and a URL with a scheme; it then counts the enabled
    feeds. *)
Lemma validate_feeds_passes (feeds : list FeedConfig) (i : nat) (count count' : Z) :
  validate_feeds i count feeds = inr count'
  ↔ Forall (λ feed, Name feed ≠ "" ∧ Parser feed ≠ "" ∧ has_scheme (FeedURL feed) = true)
           (GetEnabled feeds)
    ∧ count' = (count + EnabledCount feeds)%Z.
Proof.
  unfold EnabledCount, GetEnabled.
  revert i count. induction feeds as [|feed feeds IH]; intros i count.
  { simpl. split; [intros [= <-]; split; [constructor|lia]|]. intros [_ ->]. f_equal. lia. }
  cbn [validate_feeds foldl]. rewrite EnabledCount_foldl.
  destruct (Enabled feed) eqn:He; cbn [negb].
  - rewrite filter_cons_True by done. rewrite Forall_cons.
    destruct (String.eqb_spec (Name feed) "") as [Hname|Hname]; [split; [done|tauto]|].
    destruct (String.eqb_spec (FeedURL feed) "") as [Hurl|Hurl].
    { split; [done|]. rewrite Hurl. by intros [[(_ & _ & ?) _] _]. }
    destruct (String.eqb_spec (Parser feed) "") as [Hparser|Hparser]; [split; [done|tauto]|].
    destruct (has_scheme (FeedURL feed)) eqn:Hscheme; cbn [negb].
    + rewrite IH, EnabledCount_foldl. split.
      * intros [Hall ->]. split; [done|]. unfold GetEnabled. lia.
      * intros [[_ Hall] ->]. split; [done|]. unfold GetEnabled. lia.
    + split; [done|]. by intros [[(_ & _ & ?) _] _].
  - rewrite filter_cons_False by (by rewrite He).
    rewrite IH, EnabledCount_foldl. split; intros [Hall ->]; (split; [done|]);
      unfold GetEnabled; lia.
Qed.

Lemma has_scheme_nonempty (url : string) : has_scheme url = true → url ≠ "".
Proof. by intros Hs ->. Qed.
End config_facts.

(** X14.  [EnabledCount] is the length of what [GetEnabled] returns, and
    [GetEnabled] returns the enabled feeds, in their order, and only
    them. *)
Theorem EnabledCount_GetEnabled (f : list config.FeedConfig) :
  config.EnabledCount f = Z.of_nat (length (config.GetEnabled f))
  ∧ config.GetEnabled f `sublist_of` f
  ∧ ∀ feed, feed ∈ config.GetEnabled f ↔ feed ∈ f ∧ config.Enabled feed = true.
Proof.
  split; [|split].
  - unfold config.EnabledCount. rewrite EnabledCount_foldl. lia.
  - apply sublist_filter.
  - intros feed. unfold config.GetEnabled. rewrite list_elem_of_filter. tauto.
Qed.

(** What [Validate] asks for. *)
Lemma Validate_passes (c : config.File) :
  let u := config.UniFi (config.Core c) in
  let enabled := config.GetEnabled (config.Feeds (config.Core c)) in
  config.Validate c = None
  ↔ config.has_scheme (config.URL u) = true
    ∧ config.Username u ≠ "" ∧ config.Password u ≠ ""
    ∧ (config.Minute ≤ config.Interval (config.Sync c))%Z
    ∧ enabled ≠ []
    ∧ Forall (λ feed, config.Name feed ≠ "" ∧ config.Parser feed ≠ ""
                      ∧ config.has_scheme (config.FeedURL feed) = true) enabled.
Proof.
  intros u enabled. unfold config.Validate. fold u.
  destruct (String.eqb_spec (config.URL u) "") as [Hurl|Hurl].
  { split; [done|]. rewrite Hurl. by intros [? _]. }
  destruct (config.has_scheme (config.URL u)); cbn [negb]; [|split; [done|by intros [? _]]].
  destruct (String.eqb_spec (config.Username u) "") as [Huser|Huser]; [split; [done|tauto]|].
  destruct (String.eqb_spec (config.Password u) "") as [Hpass|Hpass]; [split; [done|tauto]|].
  destruct (config.Interval (config.Sync c) <? config.Minute)%Z eqn:Hint.
  { split; [done|]. intros (_ & _ & _ & ? & _). lia. }
  assert (enabled ≠ [] ↔ config.EnabledCount (config.Feeds (config.Core c)) ≠ 0%Z) as Hcount.
  { unfold config.EnabledCount. rewrite EnabledCount_foldl. fold enabled.
    destruct enabled; simpl; split; (done || lia). }
  destruct (length (config.Feeds (config.Core c)) =? 0)%nat eqn:Hlen.
  { split; [done|]. intros (_ & _ & _ & _ & Hne & _). exfalso. apply Hne.
    apply Nat.eqb_eq, nil_length_inv in Hlen. unfold enabled. by rewrite Hlen. }
  destruct (config.validate_feeds 0 0 (config.Feeds (config.Core c))) as [err|count] eqn:Hv.
  - split; [done|]. intros (_ & _ & _ & _ & _ & Hall). exfalso.
    assert (config.validate_feeds 0 0 (config.Feeds (config.Core c))
            = inr (0 + config.EnabledCount (config.Feeds (config.Core c)))%Z) as Hok
      by (by apply validate_feeds_passes).
    congruence.
  - apply validate_feeds_passes in Hv as [Hall ->]. fold enabled in Hall.
    destruct (Z.eqb_spec (0 + config.EnabledCount (config.Feeds (config.Core c))) 0)
      as [Hzero|Hpos].
    + split; [done|]. intros (_ & _ & _ & _ & Hne & _). apply Hcount in Hne. lia.
    + split; [|done]. intros _. repeat split; try done; [lia|]. apply Hcount. lia.
Qed.

(** X15.  [Validate] accepts a configuration exactly when the URL of the
    controller starts with [http://] or [https://], the user name and the
    password are not empty, the interval is at least a minute, at least one
    feed is enabled, and every enabled feed has a name, a parser name and a
    URL that starts with [http://] or [https://].  Disabled feeds are not
    looked at, and the name of a parser need not be a registered one. *)
Theorem Validate_accepts (c : config.File) :
  let u := config.UniFi (config.Core c) in
  let enabled := config.GetEnabled (config.Feeds (config.Core c)) in
  config.Validate c = None
  ↔ config.has_scheme (config.URL u) = true
    ∧ config.Username u ≠ "" ∧ config.Password u ≠ ""
    ∧ (config.Minute ≤ config.Interval (config.Sync c))%Z
    ∧ enabled ≠ []
    ∧ Forall (λ feed, config.Name feed ≠ "" ∧ config.Parser feed ≠ ""
                      ∧ config.has_scheme (config.FeedURL feed) = true) enabled.
Proof. apply Validate_passes. Qed.

Section defaults_facts.
Import config.

Lemma or_string_nonempty (s d : string) : d ≠ "" → or_string s d ≠ "".
Proof. intros Hd. unfold or_string. by destruct (String.eqb_spec s ""). Qed.

Lemma or_string_idemp (s d : string) : or_string (or_string s d) d = or_string s d.
Proof.
  unfold or_string. destruct (String.eqb_spec s "") as [->|Hs].
  - by destruct (String.eqb_spec d "").
  - by destruct (String.eqb_spec s "").
Qed.

Lemma or_int_nonzero (n d : Z) : d ≠ 0%Z → or_int n d ≠ 0%Z.
Proof. intros Hd. unfold or_int. by destruct (Z.eqb_spec n 0). Qed.

Lemma or_int_idemp (n d : Z) : or_int (or_int n d) d = or_int n d.
Proof.
  unfold or_int. destruct (Z.eqb_spec n 0) as [->|Hn].
  - by destruct (Z.eqb_spec d 0).
  - by destruct (Z.eqb_spec n 0).
Qed.

(** The enabled feeds after [setDefaults] are the enabled feeds before it,
    with their timeouts filled in. *)
Lemma GetEnabled_setDefaults (c : File) :
  GetEnabled (Feeds (Core (setDefaults c)))
  = (λ feed, {| Name := Name feed; FeedURL := FeedURL feed; Parser := Parser feed;
                Enabled := Enabled feed; Timeout := or_string (Timeout feed) "30s" |})
      <$> GetEnabled (Feeds (Core c)).
Proof.
  unfold setDefaults, GetEnabled. cbn [Core Feeds].
  induction (Feeds (Core c)) as [|feed feeds IH]; [done|]. rewrite fmap_cons.
  destruct (decide (Enabled feed = true)) as [He|He].
  - rewrite (filter_cons_True _ feed), filter_cons_True by done.
    rewrite fmap_cons. f_equal. exact IH.
  - rewrite (filter_cons_False _ feed), filter_cons_False by done. exact IH.
Qed.
End defaults_facts.

(** X16.  [setDefaults] fills the site, the group name, the rule set, the
    rule index, the interval, the port and the timeouts of the feeds when
    they are empty or zero, so that none of them is afterwards, and it
    changes nothing else: a value that is set stays, the credentials and
    the names, URLs and parsers of the feeds stay, and a feed that is not
    enabled stays disabled.  Applying it twice is applying it once. *)
Theorem setDefaults_fills (c : config.File) :
  let d := config.setDefaults c in
  let u := config.UniFi (config.Core c) in
  let u' := config.UniFi (config.Core d) in
  config.setDefaults d = d
  ∧ (config.Site u' ≠ "" ∧ config.GroupName u' ≠ "" ∧ config.Ruleset u' ≠ ""
     ∧ config.RuleIndex u' ≠ 0%Z ∧ config.Interval (config.Sync d) ≠ 0%Z
     ∧ config.Port (config.Health d) ≠ 0%Z
     ∧ Forall (λ feed, config.Timeout feed ≠ "") (config.Feeds (config.Core d)))
  ∧ (config.URL u' = config.URL u ∧ config.Username u' = config.Username u
     ∧ config.Password u' = config.Password u
     ∧ (config.Site u ≠ "" → config.Site u' = config.Site u)
     ∧ (config.GroupName u ≠ "" → config.GroupName u' = config.GroupName u)
     ∧ (config.Ruleset u ≠ "" → config.Ruleset u' = config.Ruleset u)
     ∧ (config.RuleIndex u ≠ 0%Z → config.RuleIndex u' = config.RuleIndex u)
     ∧ (config.Port (config.Health c) ≠ 0%Z
        → config.Port (config.Health d) = config.Port (config.Health c))
     ∧ (config.Interval (config.Sync c) ≠ 0%Z
        → config.Interval (config.Sync d) = config.Interval (config.Sync c))
     ∧ config.HealthEnabled (config.Health d) = config.HealthEnabled (config.Health c))
  ∧ Forall2 (λ feed feed',
               config.Name feed' = config.Name feed
               ∧ config.FeedURL feed' = config.FeedURL feed
               ∧ config.Parser feed' = config.Parser feed
               ∧ config.Enabled feed' = config.Enabled feed
               ∧ (config.Timeout feed ≠ "" → config.Timeout feed' = config.Timeout feed))
            (config.Feeds (config.Core c)) (config.Feeds (config.Core d)).
Proof.
  intros d u u'. split; [|split; [|split]].
  - unfold d, config.setDefaults. cbn [config.Core config.UniFi config.Feeds config.Sync
      config.Health config.URL config.Site config.Username config.Password config.GroupName
      config.Ruleset config.RuleIndex config.Interval config.HealthEnabled config.Port].
    rewrite !or_string_idemp, !or_int_idemp. f_equal. f_equal.
    rewrite <- list_fmap_compose. apply list_fmap_ext. intros i feed _. simpl.
    by rewrite or_string_idemp.
  - unfold u', d, config.setDefaults. simpl.
    repeat split; try (by apply or_string_nonempty); try (by apply or_int_nonzero).
    apply Forall_fmap, Forall_forall. intros feed _. simpl. by apply or_string_nonempty.
  - unfold u', u, d, config.setDefaults, config.or_string, config.or_int. simpl.
    repeat split; intros Hset;
      match goal with
      | |- (if String.eqb ?s "" then _ else _) = _ => by destruct (String.eqb_spec s "")
      | |- (if Z.eqb ?n 0 then _ else _) = _ => by destruct (Z.eqb_spec n 0)
      end.
  - unfold d, config.setDefaults. simpl. apply Forall2_fmap_r, Forall_Forall2_diag, Forall_forall.
    intros feed _. simpl. repeat split. unfold config.or_string.
    intros Ht. by destruct (String.eqb_spec (config.Timeout feed) "").
Qed.

(** X17.  What [main] accepts: a configuration passes [Validate] after
    [setDefaults], as [main] applies them, exactly when it meets the
    conditions of [Validate] with an interval that is zero (not given) or
    at least a minute.  The defaults change the outcome of [Validate] in no
    other way. *)
Theorem setDefaults_then_Validate (c : config.File) :
  let u := config.UniFi (config.Core c) in
  let enabled := config.GetEnabled (config.Feeds (config.Core c)) in
  config.Validate (config.setDefaults c) = None
  ↔ config.has_scheme (config.URL u) = true
    ∧ config.Username u ≠ "" ∧ config.Password u ≠ ""
    ∧ (config.Interval (config.Sync c) = 0 ∨ config.Minute ≤ config.Interval (config.Sync c))%Z
    ∧ enabled ≠ []
    ∧ Forall (λ feed, config.Name feed ≠ "" ∧ config.Parser feed ≠ ""
                      ∧ config.has_scheme (config.FeedURL feed) = true) enabled.
Proof.
  intros u enabled. rewrite Validate_passes, GetEnabled_setDefaults. fold enabled.
  rewrite Forall_fmap.
  assert ((λ feed, {| config.Name := config.Name feed; config.FeedURL := config.FeedURL feed;
                      config.Parser := config.Parser feed; config.Enabled := config.Enabled feed;
                      config.Timeout := config.or_string (config.Timeout feed) "30s" |})
            <$> enabled ≠ [] ↔ enabled ≠ []) as ->.
  { by destruct enabled. }
  assert ((config.Minute ≤ config.Interval (config.Sync (config.setDefaults c)))%Z
          ↔ (config.Interval (config.Sync c) = 0
             ∨ config.Minute ≤ config.Interval (config.Sync c))%Z) as ->.
  { unfold config.setDefaults, config.or_int, config.Minute. cbn [config.Sync config.Interval].
    destruct (Z.eqb_spec (config.Interval (config.Sync c)) 0); lia. }
  done.
Qed.

(** ** Package [unifi]: the session of the client *)

Section client_facts.
Import http unifi.
Context {Net : Type} (Do : Net → Request → Outcome * Net).

Lemma Login_client (c : Client) (w : Net) :
  cfg (Login Do c w).1.2 = cfg c
  ∧ ((Login Do c w).1.1 = None → loggedIn (Login Do c w).1.2 = true)
  ∧ ((Login Do c w).1.1 ≠ None → (Login Do c w).1.2 = c).
Proof.
  unfold Login. destruct (Do w _) as [[e|e|resp] w']; cbn [fst snd]; try done.
  by destruct (negb _).
Qed.

Lemma ensureLoggedIn_client (c : Client) (w : Net) (err : option error) (c1 : Client)
    (w1 : Net) :
  ensureLoggedIn Do c w = (err, c1, w1) →
  cfg c1 = cfg c
  ∧ (loggedIn c = true → err = None ∧ c1 = c ∧ w1 = w)
  ∧ (err = None → loggedIn c1 = true).
Proof.
  unfold ensureLoggedIn. destruct (loggedIn c) eqn:Hc.
  - by intros [= <- <- <-].
  - intros Hlogin. destruct (Login_client c w) as (Hcfg & Hok & _).
    rewrite Hlogin in Hcfg, Hok. done.
Qed.

Ltac session_call Hlogin :=
  match goal with
  | |- context [ensureLoggedIn Do ?c ?w] =>
      destruct (ensureLoggedIn Do c w) as [[err c1] w1] eqn:Hlogin;
      apply ensureLoggedIn_client in Hlogin as (Hcfg & Hin & Hok)
  end.

Lemma GetFirewallGroup_session (c : Client) (w : Net) (name : string) :
  keeps_session is_Ok c (GetFirewallGroup Do c w name).
Proof.
  unfold keeps_session, GetFirewallGroup. session_call Hlogin.
  destruct err as [e|].
  { cbn [fst snd]. split; [done|]. split; [|done]. intros Hc. by destruct (Hin Hc). }
  assert (loggedIn c = true → c1 = c) as Hsame by (intros Hc; by destruct (Hin Hc) as (_ & ? & _)).
  destruct (Do w1 _) as [[e|e|resp] w2]; cbn [fst snd]; try done.
  repeat case_match; cbn [fst snd]; auto.
Qed.

Lemma CreateFirewallGroup_session (c : Client) (w : Net) (name : string)
    (members : list string) :
  keeps_session is_Ok c (CreateFirewallGroup Do c w name members).
Proof.
  unfold keeps_session, CreateFirewallGroup. session_call Hlogin.
  destruct err as [e|].
  { cbn [fst snd]. split; [done|]. split; [|done]. intros Hc. by destruct (Hin Hc). }
  assert (loggedIn c = true → c1 = c) as Hsame by (intros Hc; by destruct (Hin Hc) as (_ & ? & _)).
  destruct (Do w1 _) as [[e|e|resp] w2]; cbn [fst snd]; try done.
  repeat case_match; cbn [fst snd]; auto.
Qed.

Lemma UpdateFirewallGroup_session (c : Client) (w : Net) (groupID : string)
    (members : list string) :
  keeps_session is_nil c (UpdateFirewallGroup Do c w groupID members).
Proof.
  unfold keeps_session, UpdateFirewallGroup. session_call Hlogin.
  destruct err as [e|].
  { cbn [fst snd]. split; [done|]. split; [|done]. intros Hc. by destruct (Hin Hc). }
  assert (loggedIn c = true → c1 = c) as Hsame by (intros Hc; by destruct (Hin Hc) as (_ & ? & _)).
  destruct (Do w1 _) as [[e|e|resp] w2]; cbn [fst snd]; try done.
  repeat case_match; cbn [fst snd]; auto.
Qed.
End client_facts.

(** X18.  No call of the client on the controller changes the
    configuration of the client or logs it out: after [GetFirewallGroup],
    [CreateFirewallGroup] or [UpdateFirewallGroup] a client that was logged
    in is as it was, whatever the controller answered, and a call that
    succeeds leaves the client logged in. *)
Theorem client_keeps_session {Net : Type} (Do : Net → http.Request → http.Outcome * Net)
    (c : unifi.Client) (w : Net) (name groupID : string) (members : list string) :
  unifi.keeps_session is_Ok c (unifi.GetFirewallGroup Do c w name)
  ∧ unifi.keeps_session is_Ok c (unifi.CreateFirewallGroup Do c w name members)
  ∧ unifi.keeps_session unifi.is_nil c (unifi.UpdateFirewallGroup Do c w groupID members).
Proof.
  split; [apply GetFirewallGroup_session|].
  split; [apply CreateFirewallGroup_session|apply UpdateFirewallGroup_session].
Qed.

(** X19.  The group [GetFirewallGroup] returns has the name that was asked
    for: a controller that answers with other groups only gets the error
    [group not found]. *)
Theorem GetFirewallGroup_named {Net : Type} (Do : Net → http.Request → http.Outcome * Net)
    (c c' : unifi.Client) (w w' : Net) (name : string) (group : http.FirewallGroup) :
  unifi.GetFirewallGroup Do c w name = (Ok group, c', w') →
  http.GroupName group = name.
Proof.
  unfold unifi.GetFirewallGroup.
  destruct (unifi.ensureLoggedIn Do c w) as [[[e|] c1] w1]; [done|].
  destruct (Do w1 _) as [[e|e|resp] w2]; try done.
  destruct (negb _); [done|]. destruct (http.Data resp) as [data|]; [|done].
  destruct (list_find _ data) as [[i g]|] eqn:Hfind; [|done].
  intros [= <- _ _]. by apply list_find_Some in Hfind as (_ & ? & _).
Qed.

(** X20.  [Logout] does nothing on a client that is not logged in, such as
    one that [NewClient] has just made: it sends no request and returns no
    error.  On a client that is logged in it sends the logout request; when
    the controller answers, with whatever status, the client is logged out
    and no error is returned; when the request cannot be made or sent, the
    error is returned and the client is left as it was, logged in. *)
Theorem Logout_session {Net : Type} (Do : Net → http.Request → http.Outcome * Net)
    (c : unifi.Client) (w : Net) :
  (unifi.loggedIn c = false → unifi.Logout Do c w = (None, c, w))
  ∧ (∀ cfg c0, unifi.NewClient cfg = Ok c0 → unifi.Logout Do c0 w = (None, c0, w))
  ∧ (unifi.loggedIn c = true →
     (∀ resp w', Do w (recorded.logout_request c) = (http.Got resp, w') →
        unifi.Logout Do c w = (None, unifi.set_loggedIn c false, w'))
     ∧ (∀ e w', Do w (recorded.logout_request c) = (http.RequestError e, w') →
          unifi.Logout Do c w = (Some (Wrap "failed to create logout request" e), c, w'))
     ∧ (∀ e w', Do w (recorded.logout_request c) = (http.DoError e, w') →
          unifi.Logout Do c w = (Some (Wrap "logout request failed" e), c, w')))
  ∧ unifi.cfg (unifi.Logout Do c w).1.2 = unifi.cfg c
  ∧ ((unifi.Logout Do c w).1.1 = None → unifi.loggedIn (unifi.Logout Do c w).1.2 = false)
  ∧ ((unifi.Logout Do c w).1.1 ≠ None → (unifi.Logout Do c w).1.2 = c).
Proof.
  split; [|split; [|split]].
  - unfold unifi.Logout. by intros ->.
  - by intros cfg c0 [= <-].
  - intros Hc. unfold unifi.Logout. rewrite Hc. cbn [negb].
    fold (recorded.logout_request c).
    repeat split; intros ? w' Hsend; by rewrite Hsend.
  - unfold unifi.Logout. destruct (unifi.loggedIn c) eqn:Hc; cbn [negb]; [|done].
    by destruct (Do w _) as [[e|e|resp] w'].
Qed.

(** [Logout] on the scripted world: a status 500 logs the client out as
    well, and a connection that fails leaves it logged in. *)
Example Logout_any_status :
  unifi.Logout scenario.Do scenario.client [scenario.text 500 "Internal Server Error"]
  = (None, unifi.set_loggedIn scenario.client false, [])
  ∧ unifi.Logout scenario.Do scenario.client []
    = (Some (Wrap "logout request failed" (New "connection refused")), scenario.client, []).
Proof. split; reflexivity. Qed.

(** ** Package [unifi]: what the client sends *)

Section client_requests.
Import http unifi.
Context {Net : Type} (send : Net → Request → Outcome * Net).
Local Abbreviation Do := (recorded.Do send).

(** The requests [ensureLoggedIn] sends, and whether the call goes on. *)
Lemma ensureLoggedIn_requests (c : Client) (w : Net) (log : list Request) :
  ∃ err c1 w1,
    ensureLoggedIn Do c (w, log)
    = (err, c1, (w1, log ++ if loggedIn c then [] else [recorded.login_request c]))
    ∧ cfg c1 = cfg c
    ∧ (loggedIn c = true → c1 = c ∧ w1 = w)
    ∧ is_nil err = loggedIn c || recorded.answers_ok send w (recorded.login_request c).
Proof.
  unfold ensureLoggedIn. destruct (loggedIn c) eqn:Hc.
  { exists None, c, w. by rewrite app_nil_r. }
  unfold Login, recorded.Do, recorded.answers_ok. cbn [fst snd orb].
  fold (recorded.login_request c).
  destruct (send w (recorded.login_request c)) as [[e|e|resp] w1]; cbn [fst];
    try (by eexists _, _, _).
  destruct (StatusCode resp =? StatusOK)%Z; cbn [negb]; by eexists _, _, _.
Qed.

(** One request of a call after [ensureLoggedIn]. *)
Lemma call_requests {A : Type} (c : Client) (w : Net) (log : list Request) (req : Client → Request)
    (call : Client → Net * list Request → A * Client * (Net * list Request))
    (fail : error → A) :
  (∀ c c', cfg c' = cfg c → req c' = req c) →
  (∀ c1 w1 log1, ∃ r w2, call c1 (w1, log1) = (r, c1, (w2, log1 ++ [req c1]))) →
  ∃ r c2 w2,
    match ensureLoggedIn Do c (w, log) with
    | (Some err, c1, w1) => (fail err, c1, w1)
    | (None, c1, w1) => call c1 w1
    end
    = (r, c2,
       (w2, log ++ (if loggedIn c then [] else [recorded.login_request c])
                ++ (if loggedIn c || recorded.answers_ok send w (recorded.login_request c)
                    then [req c] else [])))
    ∧ (loggedIn c = true → c2 = c).
Proof.
  intros Hreq Hcall.
  destruct (ensureLoggedIn_requests c w log) as (err & c1 & w1 & -> & Hcfg & Hin & Herr).
  rewrite <- Herr. destruct err as [e|]; cbn [is_nil].
  - eexists _, _, _. rewrite app_nil_r. split; [done|]. intros Hc. by destruct (Hin Hc).
  - destruct (Hcall c1 w1 (log ++ if loggedIn c then [] else [recorded.login_request c]))
      as (r & w2 & ->).
    eexists _, _, _. rewrite <- app_assoc, (Hreq c c1 Hcfg). split; [done|].
    intros Hc. by destruct (Hin Hc).
Qed.

Lemma GetFirewallGroup_requests (c : Client) (w : Net) (log : list Request) (name : string) :
  ∃ r c2 w2,
    GetFirewallGroup Do c (w, log) name
    = (r, c2,
       (w2, log ++ (if loggedIn c then [] else [recorded.login_request c])
                ++ (if loggedIn c || recorded.answers_ok send w (recorded.login_request c)
                    then [recorded.groups_request c] else [])))
    ∧ (loggedIn c = true → c2 = c).
Proof.
  unfold GetFirewallGroup.
  apply (call_requests c w log recorded.groups_request
           (λ c1 w1,
              match Do w1 (recorded.groups_request c1) with
              | (RequestError e, w) => (Err (Wrap "failed to create request" e), c1, w)
              | (DoError e, w) => (Err (Wrap "request failed" e), c1, w)
              | (Got resp, w) =>
                  if negb (StatusCode resp =? StatusOK)%Z
                  then (Err (New "unexpected status"), c1, w)
                  else match Data resp with
                       | None => (Err (Wrap "failed to decode response" (New "json")), c1, w)
                       | Some data =>
                           match list_find (λ group, GroupName group = name) data with
                           | Some (_, group) => (Ok group, c1, w)
                           | None => (Err (New ("group not found: " +:+ name)), c1, w)
                           end
                       end
              end) Err).
  - intros c0 c' Hcfg. unfold recorded.groups_request, firewallgroup_url, baseURL.
    by rewrite Hcfg.
  - intros c1 w1 log1. unfold recorded.Do. cbn [fst snd].
    destruct (send w1 (recorded.groups_request c1)) as [[e|e|resp] w2];
      try (by eexists _, _).
    repeat case_match; by eexists _, _.
Qed.

Lemma CreateFirewallGroup_requests (c : Client) (w : Net) (log : list Request) (name : string)
    (members : list string) :
  ∃ r c2 w2,
    CreateFirewallGroup Do c (w, log) name members
    = (r, c2,
       (w2, log ++ (if loggedIn c then [] else [recorded.login_request c])
                ++ (if loggedIn c || recorded.answers_ok send w (recorded.login_request c)
                    then [recorded.create_request c name members] else [])))
    ∧ (loggedIn c = true → c2 = c).
Proof.
  unfold CreateFirewallGroup.
  apply (call_requests c w log (λ c, recorded.create_request c name members)
           (λ c1 w1,
              match Do w1 (recorded.create_request c1 name members) with
              | (RequestError e, w) => (Err (Wrap "failed to create request" e), c1, w)
              | (DoError e, w) => (Err (Wrap "request failed" e), c1, w)
              | (Got resp, w) =>
                  if negb (StatusCode resp =? StatusOK)%Z
                     && negb (StatusCode resp =? StatusCreated)%Z
                  then (Err (New "unexpected status"), c1, w)
                  else match Data resp with
                       | None => (Err (Wrap "failed to decode response" (New "json")), c1, w)
                       | Some [] => (Err (New "no group returned in response"), c1, w)
                       | Some (g :: _) => (Ok g, c1, w)
                       end
              end) Err).
  - intros c0 c' Hcfg. unfold recorded.create_request, firewallgroup_url, baseURL.
    by rewrite Hcfg.
  - intros c1 w1 log1. unfold recorded.Do. cbn [fst snd].
    destruct (send w1 (recorded.create_request c1 name members)) as [[e|e|resp] w2];
      try (by eexists _, _).
    repeat case_match; by eexists _, _.
Qed.

Lemma UpdateFirewallGroup_requests (c : Client) (w : Net) (log : list Request)
    (groupID : string) (members : list string) :
  ∃ r c2 w2,
    UpdateFirewallGroup Do c (w, log) groupID members
    = (r, c2,
       (w2, log ++ (if loggedIn c then [] else [recorded.login_request c])
                ++ (if loggedIn c || recorded.answers_ok send w (recorded.login_request c)
                    then [recorded.update_request c groupID members] else [])))
    ∧ (loggedIn c = true → c2 = c).
Proof.
  unfold UpdateFirewallGroup.
  apply (call_requests c w log (λ c, recorded.update_request c groupID members)
           (λ c1 w1,
              match Do w1 (recorded.update_request c1 groupID members) with
              | (RequestError e, w) => (Some (Wrap "failed to create request" e), c1, w)
              | (DoError e, w) => (Some (Wrap "request failed" e), c1, w)
              | (Got resp, w) =>
                  if negb (StatusCode resp =? StatusOK)%Z
                  then (Some (New "unexpected status"), c1, w)
                  else (None, c1, w)
              end) Some).
  - intros c0 c' Hcfg. unfold recorded.update_request, firewallgroup_url, baseURL.
    by rewrite Hcfg.
  - intros c1 w1 log1. unfold recorded.Do. cbn [fst snd].
    destruct (send w1 (recorded.update_request c1 groupID members)) as [[e|e|resp] w2];
      try (by eexists _, _).
    repeat case_match; by eexists _, _.
Qed.
End client_requests.

(** X21.  What a call of the client sends.  A client that is logged in
    sends the one request of the call and never a login, whatever the
    controller answers.  A client that is not logged in sends a login
    first, and the request of the call only when the login is answered
    with the status 200. *)
Theorem client_requests {Net : Type} (send : Net → http.Request → http.Outcome * Net)
    (c : unifi.Client) (w : Net) (log : list http.Request) (name groupID : string)
    (members : list string) :
  let login := if unifi.loggedIn c then [] else [recorded.login_request c] in
  let goes_on :=
    unifi.loggedIn c || recorded.answers_ok send w (recorded.login_request c) in
  (unifi.GetFirewallGroup (recorded.Do send) c (w, log) name).2.2
  = log ++ login ++ (if goes_on then [recorded.groups_request c] else [])
  ∧ (unifi.CreateFirewallGroup (recorded.Do send) c (w, log) name members).2.2
    = log ++ login ++ (if goes_on then [recorded.create_request c name members] else [])
  ∧ (unifi.UpdateFirewallGroup (recorded.Do send) c (w, log) groupID members).2.2
    = log ++ login ++ (if goes_on then [recorded.update_request c groupID members] else []).
Proof.
  intros login goes_on.
  destruct (GetFirewallGroup_requests send c w log name) as (r1 & c1 & w1 & -> & _).
  destruct (CreateFirewallGroup_requests send c w log name members)
    as (r2 & c2 & w2 & -> & _).
  destruct (UpdateFirewallGroup_requests send c w log groupID members)
    as (r3 & c3 & w3 & -> & _).
  done.
Qed.

(** ** Package [sync]: the fingerprint *)

Section digest_facts.
Import sha256.

Lemma round_length (st : list N) (kw : N * N) : length (round st kw) = length st.
Proof.
  unfold round.
  destruct st as [|a [|b [|c [|d [|e [|f [|g [|h [|i st]]]]]]]]]; reflexivity.
Qed.

Lemma foldl_round_length (kws : list (N * N)) (st : list N) :
  length (foldl round st kws) = length st.
Proof.
  revert st. induction kws as [|kw kws IH]; intros st; [done|].
  cbn [foldl]. by rewrite IH, round_length.
Qed.

Lemma block_length (h blk : list N) : length (block h blk) = length h.
Proof. unfold block. rewrite length_zip_with, foldl_round_length. lia. Qed.

Lemma foldl_block_length (blks : list (list N)) (h : list N) :
  length (foldl block h blks) = length h.
Proof.
  revert h. induction blks as [|blk blks IH]; intros h; [done|].
  cbn [foldl]. by rewrite IH, block_length.
Qed.

Lemma be_bytes_length (k : nat) (x : N) : length (be_bytes k x) = k.
Proof. unfold be_bytes. by rewrite length_fmap, length_seq. Qed.

Lemma bind_be_bytes_length (k : nat) (l : list N) :
  length (l ≫= be_bytes k) = (k * length l)%nat.
Proof.
  induction l as [|x l IH]; csimpl; [lia|].
  rewrite length_app, be_bytes_length, IH. lia.
Qed.

(** A SHA-256 digest has 32 bytes. *)
Lemma Sum256_length (msg : list N) : length (Sum256 msg) = 32%nat.
Proof.
  unfold Sum256. rewrite bind_be_bytes_length, foldl_block_length. reflexivity.
Qed.

Lemma EncodeToString_length (src : list N) :
  String.length (hex.EncodeToString src) = (2 * length src)%nat.
Proof. induction src as [|v src IH]; [done|]. cbn [hex.EncodeToString String.length length]. lia. Qed.

Lemma calculateHash_length_64 (networks : list net.IPNet) :
  String.length (sync.calculateHash networks) = 64%nat.
Proof.
  unfold sync.calculateHash. by rewrite EncodeToString_length, Sum256_length.
Qed.

Lemma calculateHash_nonempty (networks : list net.IPNet) : sync.calculateHash networks ≠ "".
Proof.
  intros Hempty. pose proof (calculateHash_length_64 networks) as Hlen.
  rewrite Hempty in Hlen. done.
Qed.
End digest_facts.

(** X22.  The fingerprint is a text of 64 bytes, the hexadecimal form of a
    digest of 32 bytes, whatever the entries are; in particular it is never
    the empty text with which a syncer starts. *)
Theorem calculateHash_length (networks : list net.IPNet) :
  String.length (sync.calculateHash networks) = 64%nat
  ∧ sync.calculateHash networks ≠ "".
Proof. split; [apply calculateHash_length_64|apply calculateHash_nonempty]. Qed.

(** X23.  The fingerprint of a normalized list is the digest of the member
    list as it is sent to the controller: the canonical strings in the
    order of the list, each followed by a newline.  Sorting them again, as
    [calculateHash] does, does not change their order. *)
Theorem fingerprint_of_members (networks : list net.IPNet) :
  let members := normalizer.ToStrings (normalizer.Normalize networks) in
  sort.Strings members = members
  ∧ sync.calculateHash (normalizer.Normalize networks)
    = hex.EncodeToString (sha256.Sum256 (bytes_of_string (sync.combine members))).
Proof.
  intros members.
  assert (sort.Strings members = members) as Hsorted
    by apply Strings_sorted_id, ToStrings_Normalize_strict.
  split; [exact Hsorted|]. unfold sync.calculateHash. fold members.
  rewrite Hsorted. reflexivity.
Qed.

Section cycle_facts.
Import sync.
Context {Net : Type} (Do : Net → http.Request → http.Outcome * Net).
Context {H : Type} `{!HealthRecorder H}.
Context (registry : gmap string (@parser.Parser Net)).

#[local] Opaque sync.Run sync.calculateHash sync.fetchAllFeeds normalizer.Normalize.

(** A cycle that starts without a fingerprint reconciles. *)
Lemma first_cycle_calls (s : Syncer H) (w : Net) :
  lastHash s = "" →
  ∃ write,
    (write = CreateGroup (group_name s) (members_of registry s w)
     ∨ ∃ id, write = UpdateGroup id (members_of registry s w))
    ∧ take 2 (calls (Run Do registry s w)) = [GetGroup (group_name s); write]
    ∧ (returned (Run Do registry s w) = None
       → lastHash (after (Run Do registry s w)) = fingerprint registry s w
         ∧ healthRecorder (after (Run Do registry s w)) = RecordSync <$> healthRecorder s)
    ∧ (returned (Run Do registry s w) ≠ None
       → lastHash (after (Run Do registry s w)) = ""
         ∧ healthRecorder (after (Run Do registry s w)) = healthRecorder s).
Proof.
  intros Hlast.
  destruct (Run_shape_holds Do registry s w)
    as [Heq|write _ Hw Hret Hl _ Hrec Hcalls|write cause _ Hw Hl _ Hrec Hcalls].
  - exfalso. rewrite Hlast in Heq. by apply (calculateHash_nonempty _ Heq).
  - exists write. rewrite Hcalls. split; [exact Hw|]. split; [reflexivity|].
    split; [by intros _|]. intros Hne. by rewrite Hret in Hne.
  - exists write. rewrite Hcalls. split; [by destruct Hw as [[? _]|[id [? _]]]; eauto|].
    split; [reflexivity|]. split.
    + intros Hnone. destruct Hw as [[_ Hr]|[id [_ Hr]]]; congruence.
    + intros _. by rewrite Hl, Hlast.
Qed.
End cycle_facts.

(** X24.  The first cycle of a syncer always reaches the controller: with
    no fingerprint stored ([lastHash] empty, as [New] leaves it) [Run] asks
    for the group and creates or updates it with the members it fetched,
    also when no feed gave an entry. *)
Theorem first_cycle_reconciles {Net H : Type} `{!sync.HealthRecorder H}
    (Do : Net → http.Request → http.Outcome * Net)
    (registry : gmap string (@parser.Parser Net)) (s : sync.Syncer H) (w : Net) :
  sync.lastHash s = "" →
  ∃ write,
    (write = sync.CreateGroup (sync.group_name s) (sync.members_of registry s w)
     ∨ ∃ id, write = sync.UpdateGroup id (sync.members_of registry s w))
    ∧ take 2 (sync.calls (sync.Run Do registry s w)) = [sync.GetGroup (sync.group_name s); write].
Proof.
  intros Hlast. destruct (first_cycle_calls Do registry s w Hlast) as (write & Hw & Hcalls & _).
  by exists write.
Qed.

Lemma first_cycle_reconciles_witness :
  sync.lastHash scenario.syncer = ""
  ∧ ∃ write,
      (write = sync.CreateGroup (sync.group_name scenario.syncer)
                 (sync.members_of scenario.registry scenario.syncer scenario.first_cycle)
       ∨ ∃ id, write = sync.UpdateGroup id
                         (sync.members_of scenario.registry scenario.syncer
                            scenario.first_cycle))
      ∧ take 2 (sync.calls (scenario.Run scenario.syncer scenario.first_cycle))
        = [sync.GetGroup (sync.group_name scenario.syncer); write].
Proof.
  split; [reflexivity|].
  exact (first_cycle_reconciles scenario.Do scenario.registry scenario.syncer
           scenario.first_cycle eq_refl).
Defined.

(** ** Package [sync]: the recorder is only told *)

Section recorder_facts.
Import sync.
Context {Net : Type} (Do : Net → http.Request → http.Outcome * Net).
Context {H : Type} `{!HealthRecorder H}.
Context (registry : gmap string (@parser.Parser Net)).

(** Two syncers that differ in their recorders at most. *)
Lemma Run_same_but_recorder (s s' : Syncer H) (w : Net) :
  config s' = config s → unifiClient s' = unifiClient s → lastHash s' = lastHash s →
  let r := Run Do registry s w in
  let r' := Run Do registry s' w in
  returned r' = returned r ∧ world r' = world r
  ∧ config (after r') = config (after r)
  ∧ unifiClient (after r') = unifiClient (after r)
  ∧ lastHash (after r') = lastHash (after r)
  ∧ filter (λ c, is_remote c = true) (calls r') = filter (λ c, is_remote c = true) (calls r).
Proof.
  intros Hcfg Hclient Hlast r r'. unfold r, r'.
  with_strategy transparent [sync.Run sync.fetchAllFeeds] unfold sync.Run, sync.fetchAllFeeds.
  rewrite Hcfg, Hclient, Hlast.
  destruct (foldl _ _ _) as [allNetworks w1].
  destruct (String.eqb _ _); [done|].
  destruct (unifi.GetFirewallGroup _ _ _ _) as [[[group|e] c] w2].
  - destruct (unifi.UpdateFirewallGroup _ _ _ _ _) as [[[e|] c'] w3]; [done|].
    unfold finish, with_client. cbn [config unifiClient lastHash healthRecorder].
    rewrite Hcfg. cbn [returned world after calls config unifiClient lastHash].
    repeat split; try done. by destruct (healthRecorder s), (healthRecorder s').
  - destruct (unifi.CreateFirewallGroup _ _ _ _ _) as [[[group|e'] c'] w3]; [|done].
    unfold finish, with_client. cbn [config unifiClient lastHash healthRecorder].
    rewrite Hcfg. cbn [returned world after calls config unifiClient lastHash].
    repeat split; try done. by destruct (healthRecorder s), (healthRecorder s').
Qed.
End recorder_facts.

(** X25.  A health recorder is told of a cycle and takes no part in it:
    with a recorder set, [Run] returns the same error or none, leaves the
    same fingerprint, client and world, and makes the same calls on the
    controller as without. *)
Theorem Run_recorder_independent {Net H : Type} `{!sync.HealthRecorder H}
    (Do : Net → http.Request → http.Outcome * Net)
    (registry : gmap string (@parser.Parser Net)) (s : sync.Syncer H) (hr : H) (w : Net) :
  let r := sync.Run Do registry s w in
  let r' := sync.Run Do registry (sync.SetHealthRecorder s hr) w in
  sync.returned r' = sync.returned r ∧ sync.world r' = sync.world r
  ∧ sync.config (sync.after r') = sync.config (sync.after r)
  ∧ sync.unifiClient (sync.after r') = sync.unifiClient (sync.after r)
  ∧ sync.lastHash (sync.after r') = sync.lastHash (sync.after r)
  ∧ filter (λ c, sync.is_remote c = true) (sync.calls r')
    = filter (λ c, sync.is_remote c = true) (sync.calls r).
Proof. by apply Run_same_but_recorder. Qed.

(** ** Package [sync]: the requests of a cycle *)

Section cycle_requests.
Import sync.
Context {Net : Type} (send : Net → http.Request → http.Outcome * Net).
Context {H : Type} `{!HealthRecorder H}.
Local Abbreviation Do := (recorded.Do send).
Local Abbreviation registry := (parser.registry0 Do).
Local Abbreviation known :=
  (λ feed, config.Parser feed = "plain" ∨ config.Parser feed = "netset").

Lemma Run_requests_logged_in (s : Syncer H) (w : Net) (log : list http.Request) :
  unifi.loggedIn (unifiClient s) = true →
  let r := Run Do registry s (w, log) in
  let c := unifiClient s in
  let members := members_of registry s (w, log) in
  let feeds :=
    recorded.feed_request <$> filter known (config.GetEnabled (config.Feeds (config s))) in
  unifiClient (after r) = c
  ∧ (fingerprint registry s (w, log) = lastHash s → (world r).2 = log ++ feeds)
  ∧ (fingerprint registry s (w, log) ≠ lastHash s →
     ∃ write,
       (write = recorded.create_request c (group_name s) members
        ∨ ∃ id, write = recorded.update_request c id members)
       ∧ (world r).2 = log ++ feeds ++ [recorded.groups_request c; write]).
Proof.
  intros Hin r c members feeds. subst r members.
  unfold fingerprint, members_of, fetched.
  with_strategy transparent [sync.Run sync.fetchAllFeeds] unfold sync.Run, sync.fetchAllFeeds.
  pose proof (foldl_fetch_feed_requests send
                (config.GetEnabled (config.Feeds (config s))) [] w log) as Hfold.
  destruct (foldl _ _ _) as [allNetworks [w1 log1]]. cbn [fst snd] in Hfold |- *.
  fold feeds in Hfold. subst log1.
  destruct (String.eqb_spec (calculateHash (normalizer.Normalize allNetworks)) (lastHash s))
    as [Heq|Hne].
  { cbn [after world snd]. split; [done|]. split; [done|]. by intros Hne. }
  subst c. set (c := unifiClient s) in *.
  destruct (GetFirewallGroup_requests send c w1 (log ++ feeds)
              (config.GroupName (config.UniFi (config s)))) as (r1 & c1 & w2 & -> & Hc1).
  rewrite Hin in *. cbn [orb app] in *. specialize (Hc1 eq_refl). subst c1.
  set (members := normalizer.ToStrings (normalizer.Normalize allNetworks)) in *.
  destruct r1 as [group|e].
  - destruct (UpdateFirewallGroup_requests send c w2 ((log ++ feeds) ++ [recorded.groups_request c])
                (http.ID group) members) as (r2 & c2 & w3 & -> & Hc2).
    rewrite Hin in *. cbn [orb app] in *. specialize (Hc2 eq_refl). subst c2.
    assert (((log ++ feeds) ++ [recorded.groups_request c])
              ++ [recorded.update_request c (http.ID group) members]
            = log ++ feeds ++ [recorded.groups_request c;
                               recorded.update_request c (http.ID group) members]) as Hlog.
    { by rewrite <- !app_assoc. }
    destruct r2 as [e|]; cbn [after world snd with_client finish fst unifiClient].
    + split; [done|]. split; [done|]. intros _. eexists. split; [right; by eexists|done].
    + split; [done|]. split; [done|]. intros _. eexists. split; [right; by eexists|done].
  - destruct (CreateFirewallGroup_requests send c w2 ((log ++ feeds) ++ [recorded.groups_request c])
                (config.GroupName (config.UniFi (config s))) members)
      as (r2 & c2 & w3 & -> & Hc2).
    rewrite Hin in *. cbn [orb app] in *. specialize (Hc2 eq_refl). subst c2.
    assert (((log ++ feeds) ++ [recorded.groups_request c])
              ++ [recorded.create_request c (config.GroupName (config.UniFi (config s))) members]
            = log ++ feeds
                  ++ [recorded.groups_request c;
                      recorded.create_request c (config.GroupName (config.UniFi (config s)))
                        members]) as Hlog.
    { by rewrite <- !app_assoc. }
    destruct r2 as [group|e']; cbn [after world snd with_client finish fst unifiClient].
    + split; [done|]. split; [done|]. intros _. eexists. split; [by left|done].
    + split; [done|]. split; [done|]. intros _. eexists. split; [by left|done].
Qed.
End cycle_requests.

(** X26.  The requests of a cycle, for a client that is logged in and the
    two parsers the program registers: one GET for each enabled feed with
    a known parser; then nothing more when the fingerprint is the stored
    one, and otherwise the request for the groups followed by one POST
    that creates the group or one PUT that updates it, with the members
    fetched.  No cycle sends a login, and the client is left as it was. *)
Theorem Run_requests {Net H : Type} `{!sync.HealthRecorder H}
    (send : Net → http.Request → http.Outcome * Net)
    (s : sync.Syncer H) (w : Net) (log : list http.Request) :
  unifi.loggedIn (sync.unifiClient s) = true →
  let registry := parser.registry0 (recorded.Do send) in
  let r := sync.Run (recorded.Do send) registry s (w, log) in
  let c := sync.unifiClient s in
  let members := sync.members_of registry s (w, log) in
  let feeds :=
    recorded.feed_request
      <$> filter (λ feed, config.Parser feed = "plain" ∨ config.Parser feed = "netset")
                 (config.GetEnabled (config.Feeds (sync.config s))) in
  sync.unifiClient (sync.after r) = c
  ∧ (sync.fingerprint registry s (w, log) = sync.lastHash s → (sync.world r).2 = log ++ feeds)
  ∧ (sync.fingerprint registry s (w, log) ≠ sync.lastHash s →
     ∃ write,
       (write = recorded.create_request c (sync.group_name s) members
        ∨ ∃ id, write = recorded.update_request c id members)
       ∧ (sync.world r).2 = log ++ feeds ++ [recorded.groups_request c; write]).
Proof. apply Run_requests_logged_in. Qed.

Lemma Run_requests_witness :
  unifi.loggedIn (sync.unifiClient scenario.syncer) = true
  ∧ let registry := parser.registry0 (recorded.Do scenario.Do) in
    let r := sync.Run (recorded.Do scenario.Do) registry scenario.syncer
               (scenario.first_cycle, []) in
    let c := sync.unifiClient scenario.syncer in
    let members := sync.members_of registry scenario.syncer (scenario.first_cycle, []) in
    let feeds :=
      recorded.feed_request
        <$> filter (λ feed, config.Parser feed = "plain" ∨ config.Parser feed = "netset")
                   (config.GetEnabled (config.Feeds (sync.config scenario.syncer))) in
    sync.unifiClient (sync.after r) = c
    ∧ (sync.fingerprint registry scenario.syncer (scenario.first_cycle, [])
       = sync.lastHash scenario.syncer → (sync.world r).2 = [] ++ feeds)
    ∧ (sync.fingerprint registry scenario.syncer (scenario.first_cycle, [])
       ≠ sync.lastHash scenario.syncer →
       ∃ write,
         (write = recorded.create_request c (sync.group_name scenario.syncer) members
          ∨ ∃ id, write = recorded.update_request c id members)
         ∧ (sync.world r).2 = [] ++ feeds ++ [recorded.groups_request c; write]).
Proof.
  split; [reflexivity|].
  exact (Run_requests scenario.Do scenario.syncer scenario.first_cycle [] eq_refl).
Defined.

(** ** Package [main]: the health server over the syncs *)

Section main_facts.
Import sync.
Context {Net : Type} (Do : Net → http.Request → http.Outcome * Net).
Context (registry : gmap string (@parser.Parser Net)).

#[local] Opaque sync.Run sync.calculateHash sync.fetchAllFeeds normalizer.Normalize.

(** A counter that is not negative and below 2^63 - 1 does not wrap. *)
Lemma int64_add_1 (x : Z) : (0 ≤ x < 2 ^ 63 - 1)%Z → int64_add x 1 = (x + 1)%Z.
Proof.
  intros Hx. unfold int64_add.
  replace (x + 1 + 2 ^ 63)%Z with (x + 1 - 2 ^ 63 + 1 * 2 ^ 64)%Z by lia.
  rewrite Z.mod_add by lia.
  assert (2 ^ 63 = 9223372036854775808)%Z as H63 by reflexivity.
  assert (2 ^ 64 = 18446744073709551616)%Z as H64 by reflexivity.
  rewrite H63, H64 in *.
  replace (x + 1 - 9223372036854775808)%Z
    with (x + 1 + 9223372036854775808 + (-1) * 18446744073709551616)%Z by lia.
  rewrite Z.mod_add by lia. rewrite Z.mod_small by lia. lia.
Qed.

(** What a sync does to the syncer and its health server. *)
Lemma sync_once_cases (s : Syncer HealthServer) (w : Net) (hs : HealthServer) :
  healthRecorder s = Some hs →
  let s' := (main.sync_once Do registry s w).1 in
  (s' = s ∧ lastHash s ≠ "")
  ∨ (healthRecorder s' = Some (RecordSync hs) ∧ lastHash s' ≠ "")
  ∨ (healthRecorder s' = Some (RecordError hs) ∧ lastHash s' = lastHash s).
Proof.
  intros Hrec s'. unfold s', main.sync_once.
  destruct (Run_shape_holds Do registry s w)
    as [Heq Hret Hafter _|write Hne _ Hret Hl _ Hr _|write cause Hne Hw Hl _ Hr _].
  - left. rewrite Hret, Hafter. cbn [fst]. split; [reflexivity|].
    rewrite <- Heq. apply calculateHash_nonempty.
  - right. left. rewrite Hret. cbn [fst]. rewrite Hrec in Hr. split; [exact Hr|].
    rewrite Hl. apply calculateHash_nonempty.
  - right. right.
    assert (∃ e, returned (Run Do registry s w) = Some e) as [e Hret]
      by (destruct Hw as [[_ ?]|[id [_ ?]]]; eauto).
    rewrite Hret. cbn [fst healthRecorder lastHash]. rewrite Hr, Hrec, Hl. done.
Qed.

Lemma sync_once_invariant (n : nat) (s : Syncer HealthServer) (w : Net) :
  main.health_invariant n s →
  main.health_invariant (S n) (main.sync_once Do registry s w).1.
Proof.
  intros (hs & Hrec & Hlast & Hcounts).
  assert ((Z.of_nat (S n) < 2 ^ 63)%Z → (Z.of_nat n < 2 ^ 63)%Z) as Hn by lia.
  destruct (sync_once_cases s w hs Hrec) as [[-> Hne]|[[Hrec' Hne]|[Hrec' Hsame]]].
  - exists hs. split; [exact Hrec|]. split; [exact Hlast|].
    intros Hbound. destruct (Hcounts (Hn Hbound)) as [(? & ? & ?) ?].
    split; [|done]. lia.
  - exists (RecordSync hs). split; [exact Hrec'|].
    cbn [RecordSync HealthServer_recorder ready syncCount errorCount].
    split; [done|]. intros Hbound. destruct (Hcounts (Hn Hbound)) as [(? & ? & ?) ?].
    rewrite int64_add_1 by lia. split; [lia|]. split; [lia|done].
  - exists (RecordError hs). split; [exact Hrec'|].
    cbn [RecordError HealthServer_recorder ready syncCount errorCount].
    rewrite Hsame. split; [exact Hlast|].
    intros Hbound. destruct (Hcounts (Hn Hbound)) as [(? & ? & ?) ?].
    rewrite int64_add_1 by lia. split; [lia|done].
Qed.

Lemma syncs_invariant (n m : nat) (s : Syncer HealthServer) (w : Net) :
  main.health_invariant m s →
  main.health_invariant (m + n) (main.syncs Do registry n s w).1.
Proof.
  revert m s w. induction n as [|n IH]; intros m s w Hinv.
  - by rewrite Nat.add_0_r.
  - cbn [main.syncs]. pose proof (sync_once_invariant m s w Hinv) as Honce.
    destruct (main.sync_once Do registry s w) as [s1 w1]. cbn [fst] in Honce.
    replace (m + S n)%nat with (S m + n)%nat by lia. by apply IH.
Qed.

Lemma start_invariant (cfg : config.File) (unifiClient : unifi.Client) :
  config.HealthEnabled (config.Health cfg) = true →
  main.health_invariant 0 (main.start cfg unifiClient).
Proof.
  intros Henabled. unfold main.start. rewrite Henabled.
  exists main.NewHealthServer. split; [reflexivity|]. split; [done|].
  intros _. cbn. split; [lia|]. split; [done|lia].
Qed.

Lemma handleReady_GET (hs : HealthServer) :
  main.handleReady hs "GET" = (if ready hs then 200 else 503)%Z.
Proof. unfold main.handleReady. by destruct (ready hs). Qed.
End main_facts.

(** X27.  The health server over the syncs of [main], when it is enabled.
    After any number [n] of syncs, the initial one and those of the ticker,
    the server is ready, so that [handleReady] answers a GET with 200 and
    not with 503, exactly when the syncer holds a fingerprint; once ready it
    stays ready: an error never takes readiness back.  As long as [n] is
    below 2^63, so that the 64-bit counters cannot have wrapped around, the
    two counters are not negative and count at most [n] syncs between them
    (a sync that finds the fingerprint unchanged counts as neither), and the
    server is ready exactly when at least one sync was recorded. *)
Theorem main_health {Net : Type} (Do : Net → http.Request → http.Outcome * Net)
    (registry : gmap string (@parser.Parser Net)) (cfg : config.File)
    (unifiClient : unifi.Client) (n : nat) (w : Net) :
  config.HealthEnabled (config.Health cfg) = true →
  let s := (main.syncs Do registry n (main.start cfg unifiClient) w).1 in
  ∃ hs,
    sync.healthRecorder s = Some hs
    ∧ (sync.ready hs = true ↔ sync.lastHash s ≠ "")
    ∧ (main.handleReady hs "GET" = 200%Z ↔ sync.lastHash s ≠ "")
    ∧ (main.handleReady hs "GET" = 503%Z ↔ sync.lastHash s = "")
    ∧ (∀ s' w', (main.sync_once Do registry s w').1 = s' →
         sync.ready hs = true →
         ∃ hs', sync.healthRecorder s' = Some hs' ∧ sync.ready hs' = true)
    ∧ ((Z.of_nat n < 2 ^ 63)%Z →
       (0 ≤ sync.syncCount hs ∧ 0 ≤ sync.errorCount hs
        ∧ sync.syncCount hs + sync.errorCount hs ≤ Z.of_nat n)%Z
       ∧ (sync.ready hs = true ↔ 0 < sync.syncCount hs)%Z).
Proof.
  intros Henabled s.
  pose proof (syncs_invariant Do registry n 0 _ w (start_invariant cfg unifiClient Henabled))
    as Hinv.
  fold s in Hinv. pose proof Hinv as (hs & Hrec & Hlast & Hcounts).
  exists hs. split; [exact Hrec|]. split; [exact Hlast|].
  rewrite handleReady_GET. split; [|split; [|split]].
  - rewrite <- Hlast. by destruct (sync.ready hs).
  - destruct (sync.ready hs) eqn:Hr.
    + split; [done|]. intros Hempty. by apply Hlast in Hempty.
    + split; [|done]. intros _. destruct (String.eqb_spec (sync.lastHash s) ""); [done|].
      assert (false = true) by (by apply Hlast). done.
  - intros s' w' <- Hr. apply Hlast in Hr.
    destruct (sync_once_cases Do registry s w' hs Hrec)
      as [[-> _]|[[Hrec' _]|[Hrec' Hsame]]].
    + exists hs. split; [exact Hrec|]. by apply Hlast.
    + by exists (sync.RecordSync hs).
    + exists (sync.RecordError hs). split; [exact Hrec'|].
      cbn [sync.RecordError sync.HealthServer_recorder sync.ready]. by apply Hlast.
  - exact Hcounts.
Qed.

Lemma main_health_witness :
  let cfg := {| config.Core := scenario.cfg;
                config.Sync := {| config.Interval := 60 * config.Minute |};
                config.Health := {| config.HealthEnabled := true; config.Port := 8080 |} |} in
  config.HealthEnabled (config.Health cfg) = true
  ∧ let s := (main.syncs scenario.Do scenario.registry 2
                (main.start cfg scenario.client) scenario.first_cycle).1 in
    ∃ hs,
      sync.healthRecorder s = Some hs
      ∧ (sync.ready hs = true ↔ sync.lastHash s ≠ "")
      ∧ (main.handleReady hs "GET" = 200%Z ↔ sync.lastHash s ≠ "")
      ∧ (main.handleReady hs "GET" = 503%Z ↔ sync.lastHash s = "")
      ∧ (∀ s' w', (main.sync_once scenario.Do scenario.registry s w').1 = s' →
           sync.ready hs = true →
           ∃ hs', sync.healthRecorder s' = Some hs' ∧ sync.ready hs' = true)
      ∧ ((Z.of_nat 2 < 2 ^ 63)%Z →
         (0 ≤ sync.syncCount hs ∧ 0 ≤ sync.errorCount hs
          ∧ sync.syncCount hs + sync.errorCount hs ≤ Z.of_nat 2)%Z
         ∧ (sync.ready hs = true ↔ 0 < sync.syncCount hs)%Z).
Proof.
  intros cfg. split; [reflexivity|].
  exact (main_health scenario.Do scenario.registry cfg scenario.client 2
           scenario.first_cycle eq_refl).
Defined.

Lemma GetFirewallGroup_named_witness :
  let other := {| http.ID := "11aa"; http.GroupName := "guests";
                  http.GroupType := "address-group"; http.Members := [] |} in
  let answer := [scenario.json 200 [other; scenario.group ["10.0.0.0/8"]]] in
  unifi.GetFirewallGroup scenario.Do scenario.client answer "uts-block-list"
  = (Ok (scenario.group ["10.0.0.0/8"]), scenario.client, [])
  ∧ http.GroupName (scenario.group ["10.0.0.0/8"]) = "uts-block-list".
Proof.
  intros other answer.
  assert (unifi.GetFirewallGroup scenario.Do scenario.client answer "uts-block-list"
          = (Ok (scenario.group ["10.0.0.0/8"]), scenario.client, [])) as Hget
    by (vm_compute; reflexivity).
  split; [exact Hget|]. exact (GetFirewallGroup_named _ _ _ _ _ _ _ Hget).
Defined.

(** X28.  A configuration that [Validate] accepts leaves nothing for the
    parsers to object to: [ValidateConfig] of the plain and of the netset
    parser returns no error for any of its enabled feeds. *)
Theorem Validate_covers_ValidateConfig {Net : Type}
    (Do : Net → http.Request → http.Outcome * Net) (c : config.File)
    (feedConfig : config.FeedConfig) :
  config.Validate c = None →
  feedConfig ∈ config.GetEnabled (config.Feeds (config.Core c)) →
  parser.ValidateConfig (parser.PlainParser Do) feedConfig = None
  ∧ parser.ValidateConfig (parser.NetsetParser Do) feedConfig = None.
Proof.
  intros (_ & _ & _ & _ & _ & Hall)%Validate_passes Hin.
  rewrite Forall_forall in Hall. destruct (Hall feedConfig Hin) as (_ & _ & Hscheme).
  apply has_scheme_nonempty in Hscheme. simpl. unfold parser.url_required.
  by destruct (String.eqb_spec (config.FeedURL feedConfig) "").
Qed.

Lemma Validate_covers_ValidateConfig_witness :
  let c := {| config.Core := scenario.cfg;
              config.Sync := {| config.Interval := 60 * config.Minute |};
              config.Health := {| config.HealthEnabled := true; config.Port := 8080 |} |} in
  let feedConfig :=
    {| config.Name := "blocklist"; config.FeedURL := "https://feeds.example/list.txt";
       config.Parser := "plain"; config.Enabled := true; config.Timeout := "30s" |} in
  config.Validate c = None
  ∧ feedConfig ∈ config.GetEnabled (config.Feeds (config.Core c))
  ∧ parser.ValidateConfig (parser.PlainParser scenario.Do) feedConfig = None
  ∧ parser.ValidateConfig (parser.NetsetParser scenario.Do) feedConfig = None.
Proof.
  intros c feedConfig.
  assert (config.Validate c = None) as Hvalid by (vm_compute; reflexivity).
  assert (feedConfig ∈ config.GetEnabled (config.Feeds (config.Core c))) as Hin
    by (vm_compute; left).
  split; [exact Hvalid|]. split; [exact Hin|].
  exact (Validate_covers_ValidateConfig scenario.Do c feedConfig Hvalid Hin).
Defined.
